(** * Signal automata: clauses, configurations and space-time diagrams

    A shallow embedding of [src/lib/automata] ([Clause.ts],
    [Configuration.ts] and [Automaton.ts]) and the properties of the rule
    parser and of [makeDiagram] established on it. The class [Automaton]
    comes in two revisions, which differ in the grammar of the conditions
    and of the outputs: [src/lib/automata/Automaton.ts], where a sign is a
    token of its own (module [SignToken]), and [src/unnamed/part_000],
    where an item carries its time step, its position and its sign (module
    [SignedItem]). [makeDiagram] is the same in both.

    Modelling conventions.
    - A [Signal] is a registered symbol [Symbol.for(name)]: two signals are
      the same exactly when their names are, so a signal is its name.
    - A [Set<Signal>] is the list of its elements in insertion order, without
      repetition; [Set_add] and [Set_has] are [Set.prototype.add] and
      [Set.prototype.has].
    - Numbers are integers ([Z], or [nat] for array indices and loop
      counters that start at 0); no text here is long enough for a double
      to lose precision.
    - A call that can throw returns a [result]; a loop whose termination is
      not plain from its shape takes fuel and answers [Timeout] without it.
    - The cells of a configuration are distinct [Set] objects, as
      [new Configuration(n)] makes them. *)

From Stdlib Require Import ZArith Ascii String.
From stdpp Require Import base numbers list gmap strings.

#[local] Open Scope string_scope.
#[local] Open Scope Z_scope.
#[local] Open Scope list_scope.
#[local] Open Scope stdpp_scope.

(** ** Exceptions and results *)

Inductive Exception :=
| TypeError                              (* a property read on undefined or null *)
| RuleParsingException (message : string).

Inductive result (A : Type) :=
| Ok (a : A)
| Throw (e : Exception)
| Timeout.                               (* the fuel of a loop ran out *)
Arguments Ok {A} a.
Arguments Throw {A} e.
Arguments Timeout {A}.

(** Sequencing: an exception in [r] skips the rest. *)
#[global] Instance result_bind : MBind result := λ A B k r,
  match r with
  | Ok a => k a
  | Throw e => Throw e
  | Timeout => Timeout
  end.

#[global] Instance result_ret : MRet result := λ A a, Ok a.

(** ** Signals and sets of signals *)

Abbreviation Signal := string.

Abbreviation SignalSet := (list Signal).

Definition Set_has (s : SignalSet) (x : Signal) : bool := bool_decide (x ∈ s).

Definition Set_add (s : SignalSet) (x : Signal) : SignalSet :=
  if Set_has s x then s else s ++ [x].

(** Two sets are structurally equal when they hold the same signals. *)
Definition same_set (s1 s2 : SignalSet) : Prop := ∀ x, x ∈ s1 ↔ x ∈ s2.

(** ** Clause.ts *)

#[local] Set Warnings "-register-all".

Inductive Clause :=
| CTrue                                   (* [new Clause()]: the empty clause *)
| Negation (subclause : Clause)
| Conjunction (subclauses : list Clause)
| Disjunction (subclauses : list Clause)
| Literal (signal : Signal) (position timeStep : Z).

(** The induction principle that reaches the subclauses of the lists. *)
Section Clause_ind.
Variable P : Clause → Prop.
Hypothesis HTrue : P CTrue.
Hypothesis HNeg : ∀ c, P c → P (Negation c).
Hypothesis HConj : ∀ l, Forall P l → P (Conjunction l).
Hypothesis HDisj : ∀ l, Forall P l → P (Disjunction l).
Hypothesis HLit : ∀ s p t, P (Literal s p t).

Fixpoint Clause_ind' (c : Clause) : P c :=
  let fix all (l : list Clause) : Forall P l :=
    match l with
    | [] => Forall_nil_2 P
    | x :: l' => Forall_cons_2 P x l' (Clause_ind' x) (all l')
    end in
  match c with
  | CTrue => HTrue
  | Negation c' => HNeg c' (Clause_ind' c')
  | Conjunction l => HConj l (all l)
  | Disjunction l => HDisj l (all l)
  | Literal s p t => HLit s p t
  end.
End Clause_ind.

Definition is_Conjunction (c : Clause) : bool :=
  match c with Conjunction _ => true | _ => false end.

Definition is_Disjunction (c : Clause) : bool :=
  match c with Disjunction _ => true | _ => false end.

(** *** [new Conjunction(subclauses)]

    The loop pushes onto [this.subclauses], here [acc], the subclauses of a
    child that is a Conjunction and every other child as it is. *)
Fixpoint Conjunction_loop (acc subclauses : list Clause) : list Clause :=
  match subclauses with
  | [] => acc
  | Conjunction subs :: rest => Conjunction_loop (acc ++ subs) rest
  | subclause :: rest => Conjunction_loop (acc ++ [subclause]) rest
  end.

Definition new_Conjunction (subclauses : list Clause) : Clause :=
  Conjunction (Conjunction_loop [] subclauses).

(** *** [new Disjunction(subclauses)]

    The [else] branch of this loop is [this.subclauses = subclauses]: from
    then on [this.subclauses] IS the argument array, the array the [for-of]
    is iterating, and a later [push] extends the array under the iterator,
    which goes on to visit the pushed elements.

    [own] is [this.subclauses] while it still is the array the constructor
    allocated, and [None] once it is the argument array; [seen] and [todo]
    are the elements of the argument array before and from the iterator's
    index. *)
Fixpoint clause_size (c : Clause) : nat :=
  match c with
  | CTrue | Literal _ _ _ => 1
  | Negation c' => S (clause_size c')
  | Conjunction l | Disjunction l =>
      S ((fix sizes (l : list Clause) : nat :=
            match l with [] => 0%nat | x :: l' => (clause_size x + sizes l')%nat end) l)
  end.

Definition clauses_size (l : list Clause) : nat :=
  foldr (λ c n, (clause_size c + n)%nat) 0%nat l.

Fixpoint Disjunction_loop (fuel : nat) (own : option (list Clause))
    (seen todo : list Clause) : option (list Clause) :=
  match todo with
  | [] => Some (match own with Some l => l | None => seen end)
  | subclause :: rest =>
      match fuel with
      | O => None
      | S fuel' =>
          match subclause, own with
          | Disjunction subs, Some l =>
              Disjunction_loop fuel' (Some (l ++ subs)) (seen ++ [subclause]) rest
          | Disjunction subs, None =>
              Disjunction_loop fuel' None (seen ++ [subclause]) (rest ++ subs)
          | _, _ =>
              Disjunction_loop fuel' None (seen ++ [subclause]) rest
          end
      end
  end.

(** Every visit removes one node from what is left to visit, so the size of
    the argument bounds the number of iterations ([Disjunction_loop_total]). *)
Definition new_Disjunction (subclauses : list Clause) : Clause :=
  Disjunction
    (default [] (Disjunction_loop (clauses_size subclauses) (Some []) [] subclauses)).

(** *** [eval]

    A neighborhood does not copy the sets of the cells: [neighborhood[i]] is
    the [Set] object of the cell itself, or a new empty set beyond the ends
    of the strip. *)
Inductive SetRef :=
| FreshSet                    (* [new Set()], which nothing else holds *)
| CellSet (index : nat).      (* [this.cells[index]] *)

Abbreviation Neighborhood := (gmap Z SetRef).

(** The elements of the set behind a reference, [cells] being the present
    state of the configuration the neighborhood was taken from. The
    reference of a cell never dangles: the array of the cells keeps its
    length ([window_ref_in_range], [write_output_grows]). *)
Definition deref (cells : list SignalSet) (r : SetRef) : SignalSet :=
  match r with
  | FreshSet => []
  | CellSet index => default [] (cells !! index)
  end.

(** [Array.prototype.every] and [some] stop at the first subclause that
    settles the answer; an exception leaves at once. *)
Fixpoint eval (cells : list SignalSet) (signals : Neighborhood) (clause : Clause)
    : result bool :=
  match clause with
  | CTrue => Ok true
  | Negation subclause =>
      b ← eval cells signals subclause; Ok (negb b)
  | Conjunction subclauses =>
      (fix every (l : list Clause) : result bool :=
         match l with
         | [] => Ok true
         | subclause :: l' =>
             b ← eval cells signals subclause; if b : bool then every l' else Ok false
         end) subclauses
  | Disjunction subclauses =>
      (fix some (l : list Clause) : result bool :=
         match l with
         | [] => Ok false
         | subclause :: l' =>
             b ← eval cells signals subclause; if b : bool then Ok true else some l'
         end) subclauses
  | Literal signal position _ =>
      match signals !! position with
      | None => Throw TypeError          (* [undefined.has] *)
      | Some r => Ok (Set_has (deref cells r) signal)
      end
  end.

(** ** Configuration.ts *)

Abbreviation Configuration := (list SignalSet).

Definition new_Configuration (nbCells : nat) : Configuration := replicate nbCells [].

Definition getSize (config : Configuration) : nat := length config.

(** [for (let i = minNeighbor; i <= maxNeighbor; i++)]. *)
Definition getNeighborhood (config : Configuration) (c : nat)
    (minNeighbor maxNeighbor : Z) : Neighborhood :=
  foldl (λ (neighborhood : Neighborhood) (i : Z),
           if decide (Z.of_nat c + i < 0) then <[i := FreshSet]> neighborhood
           else if decide (Z.of_nat c + i >= Z.of_nat (length config))
                then <[i := FreshSet]> neighborhood
           else <[i := CellSet (Z.to_nat (Z.of_nat c + i))]> neighborhood)
        ∅ (seqZ minNeighbor (maxNeighbor - minNeighbor + 1)).

(** ** Automaton.ts: rules and [makeDiagram] *)

Record RuleOutput := {
  neighbor : Z;
  signal : Signal;
  futureStep : Z;
}.

Record Rule := {
  condition : Clause;
  outputs : list RuleOutput;
}.

Record Automaton := {
  rules : list Rule;
  minNeighbor : Z;
  maxNeighbor : Z;
  maxFutureDepth : Z;
}.

Abbreviation Diagram := (list Configuration).

(** [array[i]] for an integer [i]: [undefined] outside the array. *)
Definition lookupZ {A} (l : list A) (i : Z) : option A :=
  if decide (0 ≤ i) then l !! Z.to_nat i else None.

(** A [for-of] or [forEach] whose body may throw, threading the state. *)
Fixpoint for_of {A S} (body : S → A → result S) (l : list A) (s : S) : result S :=
  match l with
  | [] => Ok s
  | x :: l' => s' ← body s x; for_of body l' s'
  end.

(** The callback of [rule.outputs.forEach], at cell [c] and time [t]. The
    test looks at the target time from above only: a target time below 0
    passes it, and [diagram[t + output.futureStep]] is then [undefined]. *)
Definition write_output (nbCells t c : nat) (diagram : Diagram) (output : RuleOutput)
    : result Diagram :=
  let targetCell := Z.of_nat c + neighbor output in
  let targetTime := Z.of_nat t + futureStep output in
  if bool_decide (targetTime < Z.of_nat (length diagram))
     && bool_decide (0 ≤ targetCell) && bool_decide (targetCell < Z.of_nat nbCells)
  then
    match lookupZ diagram targetTime with
    | None => Throw TypeError            (* [undefined.cells] *)
    | Some config =>
        match lookupZ config targetCell with
        | None => Throw TypeError        (* [undefined.add] *)
        | Some cell =>
            Ok (<[Z.to_nat targetTime :=
                    <[Z.to_nat targetCell := Set_add cell (signal output)]> config]>
                  diagram)
        end
    end
  else Ok diagram.

(** The body of [for (const rule of this.rules)]: the condition reads the
    sets of [diagram[t]] as they are now, through [neighborhood]. *)
Definition run_rule (nbCells t c : nat) (neighborhood : Neighborhood)
    (diagram : Diagram) (rule : Rule) : result Diagram :=
  fires ← eval (default [] (diagram !! t)) neighborhood (condition rule);
  if fires : bool then for_of (write_output nbCells t c) (outputs rule) diagram
  else Ok diagram.

(** The body of [for (let c = 0; c < nbCells; c++)]. [config] is the
    object [diagram[t]]: what is read through it is read in the diagram as
    it is now. *)
Definition run_cell (a : Automaton) (nbCells t : nat) (diagram : Diagram) (c : nat)
    : result Diagram :=
  match diagram !! t with
  | None => Throw TypeError              (* [undefined.getNeighborhood] *)
  | Some config =>
      let neighborhood := getNeighborhood config c (minNeighbor a) (maxNeighbor a) in
      for_of (run_rule nbCells t c neighborhood) (rules a) diagram
  end.

(** The body of [for (let t = 0; t < nbSteps; t++)]. *)
Definition run_step (a : Automaton) (nbCells : nat) (diagram : Diagram) (t : nat)
    : result Diagram :=
  for_of (run_cell a nbCells t) (seq 0 nbCells) diagram.

(** [nbSteps] is a number of steps: a natural number. *)
Definition makeDiagram (a : Automaton) (initialConfiguration : Configuration)
    (nbSteps : nat) : result Diagram :=
  let nbCells := getSize initialConfiguration in
  let diagram := initialConfiguration :: replicate nbSteps (new_Configuration nbCells) in
  for_of (run_step a nbCells) (seq 0 nbSteps) diagram.

(** ** Strings and regular expressions

    The part of JavaScript's strings and regular expressions the parser
    uses, on texts of ASCII characters. *)

Definition chars (s : string) : list ascii := list_ascii_of_string s.
Definition text (l : list ascii) : string := string_of_list_ascii l.

Definition code (c : ascii) : N := N_of_ascii c.

Definition in_range (lo hi c : ascii) : bool :=
  (code lo <=? code c)%N && (code c <=? code hi)%N.

(** [\d] *)
Definition is_digit (c : ascii) : bool := in_range "0" "9" c.

(** [[A-Za-z0-9_$']] *)
Definition is_name_char (c : ascii) : bool :=
  in_range "A" "Z" c || in_range "a" "z" c || in_range "0" "9" c
  || Ascii.eqb c "_" || Ascii.eqb c "$" || Ascii.eqb c "'".

(** [\s]: tab, line feed, vertical tab, form feed, carriage return, space. *)
Definition is_space (c : ascii) : bool :=
  in_range "009" "013" c || Ascii.eqb c " ".

(** [.]: anything but a line terminator. *)
Definition is_dot (c : ascii) : bool :=
  negb (Ascii.eqb c "010" || Ascii.eqb c "013").

Definition is_one_of (cs : list ascii) (c : ascii) : bool :=
  existsb (Ascii.eqb c) cs.

Inductive Regex :=
| RChar (c : ascii)                    (* one given character *)
| RClass (p : ascii → bool)            (* one character of a class *)
| REnd                                 (* [$] *)
| RSeq (r1 r2 : Regex)
| RAlt (r1 r2 : Regex)                 (* [r1|r2] *)
| ROpt (r : Regex)                     (* [r?] *)
| RPlus (p : ascii → bool)             (* [[class]+] *)
| RStar (p : ascii → bool)             (* [[class]*] *)
| RGroup (name : string) (r : Regex).  (* [(?<name>r)] *)

(** The named groups that took part in a match, with what they matched. *)
Abbreviation Groups := (list (string * string)).

(** [groups.name]: [None] is [undefined]. *)
Definition group (groups : Groups) (name : string) : option string :=
  (λ found, snd (snd found)) <$> list_find (λ g, fst g = name) groups.

(** The longest run of characters of the class at the head of [s]. *)
Fixpoint run_length (p : ascii → bool) (s : list ascii) : nat :=
  match s with
  | c :: s' => if p c then S (run_length p s') else O
  | [] => O
  end.

(** A quantifier is greedy: it first takes all it can, then gives back one
    character at a time, down to [least], until the rest matches. *)
Fixpoint give_back {R} (k : list ascii → option R) (s : list ascii)
    (least n : nat) : option R :=
  match k (drop n s) with
  | Some r => Some r
  | None =>
      match n with
      | O => None
      | S n' => if decide (least ≤ n')%nat then give_back k s least n' else None
      end
  end.

(** Backtracking match of [r] at the head of [s], alternatives in the
    order of the engine; [k] is what must match after [r]. *)
Fixpoint rmatch {R} (r : Regex) (s : list ascii) (groups : Groups)
    (k : list ascii → Groups → option R) : option R :=
  match r with
  | RChar c =>
      match s with
      | c' :: s' => if Ascii.eqb c c' then k s' groups else None
      | [] => None
      end
  | RClass p =>
      match s with
      | c' :: s' => if p c' then k s' groups else None
      | [] => None
      end
  | REnd => match s with [] => k s groups | _ => None end
  | RSeq r1 r2 => rmatch r1 s groups (λ s' groups', rmatch r2 s' groups' k)
  | RAlt r1 r2 =>
      match rmatch r1 s groups k with
      | Some res => Some res
      | None => rmatch r2 s groups k
      end
  | ROpt r' =>
      match rmatch r' s groups k with
      | Some res => Some res
      | None => k s groups
      end
  | RPlus p =>
      let n := run_length p s in
      if decide (1 ≤ n)%nat then give_back (λ s', k s' groups) s 1 n else None
  | RStar p => give_back (λ s', k s' groups) s 0 (run_length p s)
  | RGroup name r' =>
      rmatch r' s groups
        (λ s' groups',
           k s' (groups' ++ [(name, text (take (length s - length s') s))]))
  end.

Record Match := {
  matched : string;       (* [m[0]] *)
  groups : Groups;        (* [m.groups] *)
  index : nat;            (* [m.index] *)
}.

Definition match_here (re : Regex) (s : list ascii) (at_index : nat) : option Match :=
  rmatch re s [] (λ s' groups,
    Some {| matched := text (take (length s - length s') s);
            groups := groups; index := at_index |}).

(** [re.exec(s)] for a regular expression without the [g] flag: the match
    at the first index that has one. *)
Fixpoint exec_from (re : Regex) (s : list ascii) (at_index : nat) : option Match :=
  match match_here re s at_index with
  | Some m => Some m
  | None =>
      match s with
      | [] => None
      | _ :: s' => exec_from re s' (S at_index)
      end
  end.

Definition exec (re : Regex) (s : string) : option Match := exec_from re (chars s) 0.

(** All the matches of a regular expression with the [g] flag, left to
    right; [skip] characters of the last match are still to be passed, and
    after an empty match the search moves one character on. *)
Fixpoint match_all_from (re : Regex) (skip : nat) (s : list ascii) (at_index : nat)
    : list Match :=
  match skip with
  | S skip' =>
      match s with
      | [] => []
      | _ :: s' => match_all_from re skip' s' (S at_index)
      end
  | O =>
      match match_here re s at_index with
      | Some m =>
          m :: match s with
               | [] => []
               | _ :: s' =>
                   match_all_from re (String.length (matched m) - 1) s' (S at_index)
               end
      | None =>
          match s with
          | [] => []
          | _ :: s' => match_all_from re 0 s' (S at_index)
          end
      end
  end.

Definition match_all_groups (re : Regex) (s : string) : list Match :=
  match_all_from re 0 (chars s) 0.

(** [s.match(re)] with the [g] flag: the matched texts, or [null]. *)
Definition match_all (re : Regex) (s : string) : option (list string) :=
  match match_all_groups re s with
  | [] => None
  | ms => Some (matched <$> ms)
  end.

(** [s.search(re)] when [re] matches somewhere, as [/\S|$/] does. *)
Definition search (re : Regex) (s : string) : nat :=
  match exec re s with
  | Some m => index m
  | None => 0
  end.

(** [s.replace(re, '')] for [re] without the [g] flag. *)
Definition remove_first (re : Regex) (s : string) : string :=
  match exec re s with
  | Some m =>
      text (take (index m) (chars s)
            ++ drop (index m + String.length (matched m)) (chars s))
  | None => s
  end.

Fixpoint drop_while {A} (p : A → bool) (l : list A) : list A :=
  match l with
  | x :: l' => if p x then drop_while p l' else l
  | [] => []
  end.

(** [s.trim()] *)
Definition trim (s : string) : string :=
  text (reverse (drop_while is_space (reverse (drop_while is_space (chars s))))).

(** [s.includes(c)] *)
Definition includes (c : ascii) (s : string) : bool :=
  existsb (Ascii.eqb c) (chars s).

(** [s.split(c)] *)
Fixpoint split_chars (c : ascii) (cur s : list ascii) : list string :=
  match s with
  | [] => [text cur]
  | x :: s' =>
      if Ascii.eqb x c then text cur :: split_chars c [] s'
      else split_chars c (cur ++ [x]) s'
  end.

Definition split (c : ascii) (s : string) : list string := split_chars c [] (chars s).

(** [parseInt(s)] on a text [[+-]?\d+], which is what every call below
    passes: the regular expression that cut the text out saw to it. *)
Definition digit_value (c : ascii) : Z := Z.of_N (code c) - 48.

Definition parse_digits (s : list ascii) : Z :=
  foldl (λ n c, 10 * n + digit_value c) 0 (take (run_length is_digit s) s).

Definition parseInt (s : string) : Z :=
  match chars s with
  | "-"%char :: ds => - parse_digits ds
  | "+"%char :: ds => parse_digits ds
  | ds => parse_digits ds
  end.

(** ** Automaton.ts: the parser

    What the two revisions of the parser share: the loop that reads the
    subclauses of a group, and the loop of the constructor over the lines,
    each over the functions in which the revisions differ. *)

Definition RE_seq (rs : list Regex) : Regex :=
  match rs with
  | [] => RStar (λ _, false)
  | r :: rs' => foldl RSeq r rs'
  end.

(** An entry [{ condition, indent }] of the stack of the constructor. *)
Record StackEntry := {
  entry_condition : Clause;
  entry_indent : nat;
}.

Record ParserState := {
  parsed_rules : list Rule;          (* [this.rules] *)
  parsed_maxFutureDepth : Z;         (* [this.maxFutureDepth] *)
  conditionsStack : list StackEntry; (* index 0 first *)
}.

Section Constructor.
(** [this.parseCondition] and [this.parseOutputs], the latter with
    [this.maxFutureDepth] before and after. *)
Variable parseCondition : string → result Clause.
Variable parseOutputs : Z → string → result (list RuleOutput * Z).

(** The body of [for (let line of rulesString.split('\n'))]. *)
Definition parse_line (st : ParserState) (line : string) : result ParserState :=
  let indent := search (RAlt (RClass (λ c, negb (is_space c))) REnd) line in
  let line := trim (remove_first (RSeq (RChar "#") (RStar is_dot)) line) in
  if decide (String.length line = 0%nat) then Ok st else
  let '(conditionString, outputsString) :=
    if includes ":" line
    then (split ":" line !! 0%nat, default "" (split ":" line !! 1%nat))
    else (None, line) in
  let conditionsStack :=
    drop_while (λ e, bool_decide (indent ≤ e.(entry_indent))%nat)
               st.(conditionsStack) in
  '(condition, conditionsStack) ←
    match conditionString with
    | Some conditionString =>
        if decide (conditionString = "") then
          match conditionsStack with
          | [] => Throw TypeError      (* [undefined.condition] *)
          | top :: _ => Ok (top.(entry_condition), conditionsStack)
          end
        else
          lineCondition ← parseCondition conditionString;
          let condition :=
            match conditionsStack with
            | [] => lineCondition
            | top :: _ => new_Conjunction [top.(entry_condition); lineCondition]
            end in
          Ok (condition,
              {| entry_condition := condition; entry_indent := indent |} :: conditionsStack)
    | None =>
        match conditionsStack with
        | [] => Throw TypeError        (* [undefined.condition] *)
        | top :: _ => Ok (top.(entry_condition), conditionsStack)
        end
    end;
  if decide (outputsString = "") then
    Ok {| parsed_rules := st.(parsed_rules);
          parsed_maxFutureDepth := st.(parsed_maxFutureDepth);
          conditionsStack := conditionsStack |}
  else
    '(outputs, maxFutureDepth) ← parseOutputs st.(parsed_maxFutureDepth) outputsString;
    Ok {| parsed_rules :=
            st.(parsed_rules) ++ [{| condition := condition; outputs := outputs |}];
          parsed_maxFutureDepth := maxFutureDepth;
          conditionsStack := conditionsStack |}.

(** [new Automaton(rulesString)]. Nothing in either revision assigns
    [minNeighbor] or [maxNeighbor] after the first lines of the
    constructor. *)
Definition constructor (rulesString : string) : result Automaton :=
  st ← for_of parse_line (split "010" rulesString)
         {| parsed_rules := []; parsed_maxFutureDepth := 1; conditionsStack := [] |};
  Ok {| rules := st.(parsed_rules);
        minNeighbor := 0;
        maxNeighbor := 0;
        maxFutureDepth := st.(parsed_maxFutureDepth) |}.
End Constructor.

(** The [while] loop of a group, [read] being [this.readConditionTokens]
    and [guard] what the loop does when the tokens run out before the
    closing one: it answers [Some e] to throw [e], [None] to go on. *)
Fixpoint read_group (read : list string → result (Clause * list string))
    (guard : option Exception) (close : string) (n : nat)
    (subclauses : list Clause) (conditionTokens : list string)
    : result (list Clause * list string) :=
  match conditionTokens, guard with
  | [], Some e => Throw e
  | first :: rest, _ =>
      if decide (first = close) then Ok (subclauses, rest)
      else
        match n with
        | O => Timeout
        | S n' =>
            '(subclause, conditionTokens') ← read conditionTokens;
            read_group read guard close n' (subclauses ++ [subclause]) conditionTokens'
        end
  | [], None =>
      match n with
      | O => Timeout
      | S n' =>
          '(subclause, conditionTokens') ← read conditionTokens;
          read_group read guard close n' (subclauses ++ [subclause]) conditionTokens'
      end
  end.

(** *** The revision of [src/lib/automata/Automaton.ts]: a sign is a token *)
Module SignToken.

Definition signalNameRE : Regex := RPlus is_name_char.
Definition numberRE : Regex := RSeq (ROpt (RChar "-")) (RPlus is_digit).

(** [(\(|\)|\[|\]|\+|-|[A-Za-z0-9_$']+)] *)
Definition conditionTokenRE : Regex :=
  RAlt (RChar "(") (RAlt (RChar ")") (RAlt (RChar "[") (RAlt (RChar "]")
    (RAlt (RChar "+") (RAlt (RChar "-") signalNameRE))))).

(** [(((-?\d+\/)?-?\d+\.)?[A-Za-z0-9_$']+)] *)
Definition outputTokenRE : Regex :=
  RSeq (ROpt (RSeq (ROpt (RSeq numberRE (RChar "/"))) (RSeq numberRE (RChar "."))))
       signalNameRE.

Definition unbalanced : Exception :=
  RuleParsingException "Unbalanced parentheses in condition".

(** [conditionTokens.shift()] takes the head; the tokens left come back
    with the clause. *)
Fixpoint readConditionTokens_fuel (fuel : nat) (conditionTokens : list string)
    : result (Clause * list string) :=
  match fuel with
  | O => Timeout
  | S fuel' =>
      match conditionTokens with
      | [] => Ok (CTrue, [])
      | token :: conditionTokens =>
          if decide (token = "(") then
            '(subclauses, conditionTokens) ←
              read_group (readConditionTokens_fuel fuel') (Some unbalanced) ")"
                         fuel' [] conditionTokens;
            match subclauses with
            | [subclause] => Ok (subclause, conditionTokens)
            | _ => Ok (new_Conjunction subclauses, conditionTokens)
            end
          else if decide (token = "[") then
            '(subclauses, conditionTokens) ←
              read_group (readConditionTokens_fuel fuel') (Some unbalanced) "]"
                         fuel' [] conditionTokens;
            match subclauses with
            | [subclause] => Ok (subclause, conditionTokens)
            | _ => Ok (new_Disjunction subclauses, conditionTokens)
            end
          else if decide (token = "-") then
            '(negatedCondition, conditionTokens) ←
              readConditionTokens_fuel fuel' conditionTokens;
            match negatedCondition with
            | Negation subclause => Ok (subclause, conditionTokens)
            | _ => Ok (Negation negatedCondition, conditionTokens)
            end
          else if decide (token = "+") then
            readConditionTokens_fuel fuel' conditionTokens
          else Ok (Literal token 0 0, conditionTokens)
      end
  end.

(** Every call takes a token, so one more unit of fuel than there are
    tokens is enough ([SignToken.readConditionTokens_total]). *)
Definition readConditionTokens (conditionTokens : list string)
    : result (Clause * list string) :=
  readConditionTokens_fuel (S (length conditionTokens)) conditionTokens.

Definition parseCondition (conditionString : string) : result Clause :=
  match match_all conditionTokenRE conditionString with
  | None => Throw (RuleParsingException "Invalid condition")
  | Some tokens =>
      '(condition, tokens) ← readConditionTokens tokens;
      if decide (0 < length tokens)%nat
      then Throw (RuleParsingException "Invalid condition")
      else Ok condition
  end.

(** The body of [for (const token of tokens)] in [parseOutputs], on the
    outputs so far and [this.maxFutureDepth]. *)
Definition parse_output (st : list RuleOutput * Z) (token : string)
    : list RuleOutput * Z :=
  let '(outputs, maxFutureDepth) := st in
  if includes "." token then
    let outputSplit := split "." token in
    let neighborString := default "" (outputSplit !! 0%nat) in
    let signalName := default "" (outputSplit !! 1%nat) in
    let '(neighborString, futureStep, maxFutureDepth) :=
      if includes "/" neighborString then
        let futureStep := parseInt (default "" (split "/" neighborString !! 1%nat)) in
        (default "" (split "/" neighborString !! 0%nat), futureStep,
         Z.max maxFutureDepth futureStep)
      else (neighborString, 1, maxFutureDepth) in
    let neighbor := if decide (neighborString = "") then 0 else parseInt neighborString in
    (outputs
     ++ [{| neighbor := neighbor; signal := signalName; futureStep := futureStep |}],
     maxFutureDepth)
  else
    (outputs ++ [{| neighbor := 0; signal := token; futureStep := 1 |}], maxFutureDepth).

Definition parseOutputs (maxFutureDepth : Z) (outputsString : string)
    : result (list RuleOutput * Z) :=
  match match_all outputTokenRE outputsString with
  | None => Throw (RuleParsingException "Invalid outputs")
  | Some tokens => Ok (foldl parse_output ([], maxFutureDepth) tokens)
  end.

Definition new_Automaton : string → result Automaton :=
  constructor parseCondition parseOutputs.

End SignToken.

(** *** The revision of [src/unnamed/part_000]: an item carries its time
    step, its position and its sign *)
Module SignedItem.

Definition signed_number : Regex :=
  RSeq (ROpt (RClass (is_one_of ["+"; "-"]%char))) (RPlus is_digit).

(** [(?:(?<time>[+-]?\d+)\/)] *)
Definition timeStepRE : Regex := RSeq (RGroup "time" signed_number) (RChar "/").
(** [(?:(?<coord>[+-]?\d+)\.)] *)
Definition coordinateRE : Regex := RSeq (RGroup "coord" signed_number) (RChar ".").
(** [(?<signal>[A-Za-z0-9_$']+)] *)
Definition signalNameRE : Regex := RGroup "signal" (RPlus is_name_char).
(** [(?<sign>[+-])] *)
Definition signRE : Regex := RGroup "sign" (RClass (is_one_of ["+"; "-"]%char)).

Definition conditionItemRE : Regex :=
  RE_seq [ROpt timeStepRE; ROpt coordinateRE; ROpt signRE; signalNameRE].

(** [[\[\]()]|] followed by the source of [conditionItemRE] *)
Definition conditionTokensRE : Regex :=
  RAlt (RClass (is_one_of ["["; "]"; "("; ")"]%char)) conditionItemRE.

Definition outputItemRE : Regex :=
  RE_seq [ROpt timeStepRE; ROpt coordinateRE; signalNameRE].

(** [x || d] for a group [x]: [undefined] and the empty text are falsy. *)
Definition or_default (x : option string) (d : string) : string :=
  match x with
  | Some s => if decide (s = "") then d else s
  | None => d
  end.

(** The loops of the groups have no test for the end of the tokens: past
    it [this.readConditionTokens] answers the empty clause without taking
    anything, and the loop goes on. [fuel] bounds the calls and the turns
    of the loops. *)
Fixpoint readConditionTokens (fuel : nat) (conditionTokens : list string)
    : result (Clause * list string) :=
  match fuel with
  | O => Timeout
  | S fuel' =>
      match conditionTokens with
      | [] => Ok (CTrue, [])
      | token :: conditionTokens =>
          if decide (token = "[") then
            '(subclauses, conditionTokens) ←
              read_group (readConditionTokens fuel') None "]" fuel' [] conditionTokens;
            match subclauses with
            | [] => Ok (Negation CTrue, conditionTokens)
            | [subclause] => Ok (subclause, conditionTokens)
            | _ => Ok (new_Disjunction subclauses, conditionTokens)
            end
          else if decide (token = "(") then
            '(subclauses, conditionTokens) ←
              read_group (readConditionTokens fuel') None ")" fuel' [] conditionTokens;
            match subclauses with
            | [] => Ok (CTrue, conditionTokens)
            | [subclause] => Ok (subclause, conditionTokens)
            | _ => Ok (new_Conjunction subclauses, conditionTokens)
            end
          else
            match exec conditionItemRE token with
            | None => Throw TypeError          (* [null.groups] *)
            | Some item =>
                let timeStep := parseInt (or_default (group item.(groups) "time") "0") in
                let position := parseInt (or_default (group item.(groups) "coord") "0") in
                let signal := default "" (group item.(groups) "signal") in
                if decide (group item.(groups) "sign" = Some "-")
                then Ok (Negation (Literal signal position timeStep), conditionTokens)
                else Ok (Literal signal position timeStep, conditionTokens)
            end
      end
  end.

Definition parseCondition (fuel : nat) (conditionString : string) : result Clause :=
  match match_all conditionTokensRE conditionString with
  | None => Throw TypeError                    (* [null.shift] *)
  | Some tokens =>
      '(condition, tokens) ← readConditionTokens fuel tokens;
      if decide (0 < length tokens)%nat
      then Throw (RuleParsingException "Unbalanced condition")
      else Ok condition
  end.

(** [new RuleOutput(signal, position, timeStep)], whose parameters are
    [(signal, neighbor, futureStep)]. This revision leaves
    [this.maxFutureDepth] alone. *)
Definition parse_output (m : Match) : RuleOutput :=
  let timeStep := parseInt (or_default (group m.(groups) "time") "1") in
  let position := parseInt (or_default (group m.(groups) "coord") "0") in
  {| neighbor := position;
     signal := default "" (group m.(groups) "signal");
     futureStep := timeStep |}.

Definition parseOutputs (maxFutureDepth : Z) (outputsString : string)
    : result (list RuleOutput * Z) :=
  Ok (parse_output <$> match_all_groups outputItemRE outputsString, maxFutureDepth).

Definition new_Automaton (fuel : nat) : string → result Automaton :=
  constructor (parseCondition fuel) parseOutputs.

End SignedItem.

(** ** Clause.ts and Automaton.ts: the signals and the text of the rules *)

(** [set.forEach(signal => signals.add(signal))], in the order of [set]. *)
Definition add_all (signals set : SignalSet) : SignalSet := foldl Set_add signals set.

(** [getSignals] of the clauses. *)
Fixpoint getSignals (c : Clause) : SignalSet :=
  match c with
  | CTrue => []
  | Negation subclause => getSignals subclause
  | Conjunction subclauses | Disjunction subclauses =>
      foldl (λ signals subclause, add_all signals (getSignals subclause)) [] subclauses
  | Literal signal _ _ => [signal]
  end.

Definition getOutputSignals (rule : Rule) : SignalSet :=
  foldl (λ signals output, Set_add signals (signal output)) [] (outputs rule).

Definition getConditionSignals (rule : Rule) : SignalSet := getSignals (condition rule).

(** [Automaton.getSignals]. *)
Definition Automaton_getSignals (a : Automaton) : SignalSet :=
  foldl (λ signals rule,
           add_all (add_all signals (getConditionSignals rule)) (getOutputSignals rule))
        [] (rules a).

(** The text of an integer, as a template literal writes a number: its
    decimal digits, after a [-] when it is negative. [fuel] bounds the
    number of digits. *)
Definition digit_char (d : Z) : ascii := ascii_of_N (Z.to_N (48 + d)).

Fixpoint digits_fuel (fuel : nat) (n : Z) (acc : list ascii) : list ascii :=
  match fuel with
  | O => acc
  | S fuel' =>
      if n <? 10 then digit_char n :: acc
      else digits_fuel fuel' (n / 10) (digit_char (n mod 10) :: acc)
  end.

Definition digits (n : Z) : list ascii := digits_fuel (S (Z.to_nat (Z.log2 n))) n [].

Definition Number_toString (n : Z) : string :=
  if n <? 0 then text ("-"%char :: digits (- n)) else text (digits n).

(** [array.join(sep)] *)
Fixpoint join (sep : string) (l : list string) : string :=
  match l with
  | [] => ""
  | [x] => x
  | x :: l' => x ++ sep ++ join sep l'
  end.

(** [toString] of the clauses; the name of a signal is [Symbol.keyFor] of
    it. *)
Fixpoint Clause_toString (c : Clause) : string :=
  match c with
  | CTrue => ""
  | Negation subclause => "-" ++ Clause_toString subclause
  | Conjunction subclauses => "(" ++ join " " (map Clause_toString subclauses) ++ ")"
  | Disjunction subclauses => "[" ++ join " " (map Clause_toString subclauses) ++ "]"
  | Literal signal position _ =>
      if decide (position = 0) then signal
      else Number_toString position ++ "." ++ signal
  end.

(** [RuleOutput.toString], the same in both revisions. *)
Definition RuleOutput_toString (output : RuleOutput) : string :=
  if decide (futureStep output = 1)
  then Number_toString (neighbor output) ++ "." ++ signal output
  else Number_toString (neighbor output) ++ "/" ++ Number_toString (futureStep output)
       ++ "." ++ signal output.

Definition Rule_toString (rule : Rule) : string :=
  Clause_toString (condition rule) ++ ": "
  ++ join " " (map RuleOutput_toString (outputs rule)).

Definition Automaton_toString (a : Automaton) : string :=
  join (String "010" "") (map Rule_toString (rules a)).

(** ** The vocabulary of the properties *)

(** What a child contributes to a flattened list of subclauses. *)
Definition splice_Conjunction (c : Clause) : list Clause :=
  match c with Conjunction subs => subs | _ => [c] end.

(** No immediate child of a Conjunction is a Conjunction, nor of a
    Disjunction a Disjunction, at the root of the clause. *)
Definition flat_root (c : Clause) : bool :=
  match c with
  | Conjunction subs => forallb (λ s, negb (is_Conjunction s)) subs
  | Disjunction subs => forallb (λ s, negb (is_Disjunction s)) subs
  | _ => true
  end.

(** Every literal of the clause looks at an offset of [[lo, hi]]. *)
Fixpoint literals_within (lo hi : Z) (c : Clause) : bool :=
  match c with
  | CTrue => true
  | Negation subclause => literals_within lo hi subclause
  | Conjunction subclauses | Disjunction subclauses =>
      forallb (literals_within lo hi) subclauses
  | Literal _ position _ => bool_decide (lo ≤ position ≤ hi)
  end.

(** The automata on which no evaluation reads outside the window and no
    output aims before the time of the rule that writes it. *)
Definition well_formed (a : Automaton) : bool :=
  forallb (λ rule,
             literals_within (minNeighbor a) (maxNeighbor a) (condition rule)
             && forallb (λ output, bool_decide (0 ≤ futureStep output)) (outputs rule))
          (rules a).

(** The overall minimum and maximum, 0 included, of the offsets of the
    literals and of the outputs of a list of rules. *)
Fixpoint positions (c : Clause) : list Z :=
  match c with
  | CTrue => []
  | Negation subclause => positions subclause
  | Conjunction subclauses | Disjunction subclauses => flat_map positions subclauses
  | Literal _ position _ => [position]
  end.

Definition offsets (rs : list Rule) : list Z :=
  flat_map (λ rule, positions (condition rule) ++ (neighbor <$> outputs rule)) rs.

Definition min_offset (rs : list Rule) : Z := foldr Z.min 0 (offsets rs).
Definition max_offset (rs : list Rule) : Z := foldr Z.max 0 (offsets rs).

(** Structural equality of configurations, diagrams and outcomes: the same
    widths and lengths, and the same signals in every cell. *)
Definition same_cells (c1 c2 : Configuration) : Prop := Forall2 same_set c1 c2.

Definition same_diagram (d1 d2 : Diagram) : Prop := Forall2 same_cells d1 d2.

Definition same_outcome (r1 r2 : result Diagram) : Prop :=
  match r1, r2 with
  | Ok d1, Ok d2 => same_diagram d1 d2
  | Throw e1, Throw e2 => e1 = e2
  | Timeout, Timeout => True
  | _, _ => False
  end.

(** Every configuration of the diagram has [nbCells] cells. *)
Definition width (nbCells : nat) (diagram : Diagram) : Prop :=
  Forall (λ config : Configuration, length config = nbCells) diagram.

(** [d'] is [d] with signals added: nothing was removed, no cell and no
    configuration was added or dropped. *)
Definition grown (d d' : Diagram) : Prop :=
  Forall2 (Forall2 (λ cell cell' : SignalSet, cell ⊆ cell')) d d'.

(** What [getNeighborhood] puts at offset [i]. *)
Definition window_ref (config : Configuration) (c : nat) (i : Z) : SetRef :=
  if decide (Z.of_nat c + i < 0) then FreshSet
  else if decide (Z.of_nat c + i >= Z.of_nat (length config)) then FreshSet
  else CellSet (Z.to_nat (Z.of_nat c + i)).

(** Automata and configurations of the scenarios. *)
Definition automaton_of (rs : list Rule) (lo hi : Z) : Automaton :=
  {| rules := rs; minNeighbor := lo; maxNeighbor := hi; maxFutureDepth := 1 |}.

Definition rule_of (c : Clause) (sig : Signal) (offset step : Z) : Rule :=
  {| condition := c;
     outputs := [{| neighbor := offset; signal := sig; futureStep := step |}] |}.

(** Scenario A, the rule text [A: 0/0.B]. *)
Definition scenario_A : Automaton := automaton_of [rule_of (Literal "A" 0 0) "B" 0 0] 0 0.

(** An automaton whose window is [[-1, 1]]: a cell with [A] marks itself
    with [B] in the same step; a cell notes [L] for the next step when its
    left neighbor holds [B], and [R] when its right neighbor does. *)
Definition neighbors_example : Automaton :=
  automaton_of [rule_of (Literal "A" 0 0) "B" 0 0;
                rule_of (Literal "B" (-1) 0) "L" 0 1;
                rule_of (Literal "B" 1 0) "R" 0 1] (-1) 1.

(** What a call of [readConditionTokens] on the tokens [ts] may end in,
    when it ends well: a clause and the tokens after the ones it took, at
    least one; or the exception of an unclosed group. *)
Definition reads_well (ts : list string) (r : result (Clause * list string)) : Prop :=
  match r with
  | Ok (_, rest) => ∃ taken, taken ≠ [] ∧ ts = taken ++ rest
  | Throw e => e = SignToken.unbalanced
  | Timeout => False
  end.

(** Every Negation of the clause stands on a literal or on the empty
    clause. *)
Fixpoint negations_on_leaves (c : Clause) : bool :=
  match c with
  | Negation (Literal _ _ _) | Negation CTrue => true
  | Negation _ => false
  | Conjunction subclauses | Disjunction subclauses =>
      forallb negations_on_leaves subclauses
  | CTrue | Literal _ _ _ => true
  end.

(** The two pairs of grouping tokens. *)
Definition grouping (open close : string) : Prop :=
  (open = "(" ∧ close = ")") ∨ (open = "[" ∧ close = "]").

(** What a child that is a Disjunction holds, and any other child alone. *)
Definition splice_Disjunction (c : Clause) : list Clause :=
  match c with Disjunction subs => subs | _ => [c] end.

(** The signals of the literals of a clause, from left to right. *)
Fixpoint literal_signals (c : Clause) : list Signal :=
  match c with
  | CTrue => []
  | Negation subclause => literal_signals subclause
  | Conjunction subclauses | Disjunction subclauses =>
      flat_map literal_signals subclauses
  | Literal signal _ _ => [signal]
  end.

(** The signals the outputs of the rules write. *)
Definition output_signals (rs : list Rule) : list Signal :=
  flat_map (λ rule, signal <$> outputs rule) rs.

(** Every signal of [d'] was in the same cell of [d] or is one of [new]. *)
Definition writes_only (new : Signal → Prop) (d d' : Diagram) : Prop :=
  ∀ t config' c cell' x,
    d' !! t = Some config' → config' !! c = Some cell' → x ∈ cell' →
    new x ∨ ∃ config cell, d !! t = Some config ∧ config !! c = Some cell ∧ x ∈ cell.

(** The steps into the future of the outputs of the rules. *)
Definition futureSteps (rs : list Rule) : list Z :=
  flat_map (λ rule, futureStep <$> outputs rule) rs.

(** No output of the automaton aims at the time of its rule or before. *)
Definition forward (a : Automaton) : bool :=
  forallb (λ rule, forallb (λ output, bool_decide (1 ≤ futureStep output)) (outputs rule))
          (rules a).

(** The text of a number: digits, after a [-] or not. *)
Definition is_number (l : list ascii) : Prop :=
  ∃ ds, ds ≠ [] ∧ Forall (λ c, is_digit c = true) ds ∧ (l = ds ∨ l = "-"%char :: ds).

(** The run of a class ends where [rest] begins. *)
Definition stops (p : ascii → bool) (rest : list ascii) : Prop :=
  match rest with [] => True | c :: _ => p c = false end.

(** The name of a signal the parsers can read: characters of
    [[A-Za-z0-9_$']], one at least. *)
Definition is_name (name : string) : bool :=
  match chars name with [] => false | cs => forallb is_name_char cs end.

Definition name_chars (name : list ascii) : Prop :=
  name ≠ [] ∧ Forall (λ c, is_name_char c = true) name.

(** The output with its neighbor and its step into the future exchanged,
    unless the step is 1. *)
Definition exchanged (o : RuleOutput) : RuleOutput :=
  if decide (futureStep o = 1) then o
  else {| neighbor := futureStep o; signal := signal o; futureStep := neighbor o |}.

(** The clauses the parser with sign tokens reads back from their text, and
    the tokens of these texts. *)
Definition is_Negation (c : Clause) : bool :=
  match c with Negation _ => true | _ => false end.

Fixpoint readable (c : Clause) : bool :=
  match c with
  | CTrue => false
  | Negation subclause => readable subclause && negb (is_Negation subclause)
  | Conjunction subclauses =>
      forallb readable subclauses
      && forallb (λ s, negb (is_Conjunction s)) subclauses
      && negb (bool_decide (length subclauses = 1%nat))
  | Disjunction subclauses =>
      forallb readable subclauses
      && forallb (λ s, negb (is_Disjunction s)) subclauses
      && negb (bool_decide (length subclauses = 1%nat))
  | Literal signal position timeStep =>
      is_name signal && bool_decide (position = 0) && bool_decide (timeStep = 0)
  end.

Fixpoint Clause_tokens (c : Clause) : list string :=
  match c with
  | CTrue => []
  | Negation subclause => "-" :: Clause_tokens subclause
  | Conjunction subclauses => "(" :: flat_map Clause_tokens subclauses ++ [")"]
  | Disjunction subclauses => "[" :: flat_map Clause_tokens subclauses ++ ["]"]
  | Literal signal _ _ => [signal]
  end.

(** The tokens of a text followed by [rest], then the tokens of [rest]. *)
Definition tokenizes (s : string) (tokens : list string) : Prop :=
  ∀ rest i, stops is_name_char rest →
    ∃ j, matched <$> match_all_from SignToken.conditionTokenRE 0 (chars s ++ rest) i
         = tokens ++ (matched <$> match_all_from SignToken.conditionTokenRE 0 rest j).

(** The rules the parser with sign tokens reads back from their text. *)
Definition printable (rule : Rule) : bool :=
  readable (condition rule)
  && match outputs rule with [] => false | _ => true end
  && forallb (λ output, is_name (signal output)) (outputs rule).

(** A character that is neither a [:], nor a [#], nor a line feed. *)
Definition plain (c : ascii) : bool :=
  negb (Ascii.eqb c ":" || Ascii.eqb c "#" || Ascii.eqb c "010").

(** ** Results, loops and sets *)

Lemma bind_Ok_inv {A B} (r : result A) (k : A → result B) b :
  r ≫= k = Ok b → ∃ a, r = Ok a ∧ k a = Ok b.
Proof. destruct r as [a|e|]; simpl; [eauto | discriminate..]. Qed.

Lemma for_of_app {A S} (body : S → A → result S) l1 l2 s :
  for_of body (l1 ++ l2) s = for_of body l1 s ≫= for_of body l2.
Proof.
  revert s. induction l1 as [|x l1 IH]; intros s; simpl; [reflexivity|].
  destruct (body s x) as [s'| |]; simpl; [apply IH | reflexivity..].
Qed.

(** A property every turn of a loop keeps holds when the loop is over. *)
Lemma for_of_invariant {A S} (P : S → Prop) (body : S → A → result S) l :
  (∀ s x s', x ∈ l → P s → body s x = Ok s' → P s') →
  ∀ s s', P s → for_of body l s = Ok s' → P s'.
Proof.
  induction l as [|x l IH]; intros Hbody s s' Hs Hrun; simpl in Hrun.
  - congruence.
  - apply bind_Ok_inv in Hrun as (s1 & H1 & Hrun).
    eapply IH; [| |exact Hrun].
    + intros ? y ? Hy. apply Hbody. by right.
    + eapply Hbody; [by left|exact Hs|exact H1].
Qed.

(** A loop whose turns all return, returns. *)
Lemma for_of_returns {A S} (P : S → Prop) (body : S → A → result S) l :
  (∀ s x, x ∈ l → P s → ∃ s', body s x = Ok s' ∧ P s') →
  ∀ s, P s → ∃ s', for_of body l s = Ok s' ∧ P s'.
Proof.
  induction l as [|x l IH]; intros Hbody s Hs; simpl; [eauto|].
  destruct (Hbody s x) as (s1 & -> & Hs1); [by left|done|]. simpl.
  apply IH; [|done]. intros ? y Hy. apply Hbody. by right.
Qed.

Lemma Set_has_true s x : Set_has s x = true ↔ x ∈ s.
Proof. unfold Set_has. by rewrite bool_decide_eq_true. Qed.

Lemma elem_of_Set_add s x y : y ∈ Set_add s x ↔ y ∈ s ∨ y = x.
Proof.
  unfold Set_add. destruct (Set_has s x) eqn:Hx.
  - apply Set_has_true in Hx. split; [by left|]. by intros [?| ->].
  - rewrite elem_of_app, list_elem_of_singleton. done.
Qed.

Lemma Set_add_grows s x : s ⊆ Set_add s x.
Proof. intros y Hy. apply elem_of_Set_add. by left. Qed.

Lemma Set_add_same s1 s2 x : same_set s1 s2 → same_set (Set_add s1 x) (Set_add s2 x).
Proof. intros H y. rewrite !elem_of_Set_add, (H y). done. Qed.

Lemma Set_has_same s1 s2 x : same_set s1 s2 → Set_has s1 x = Set_has s2 x.
Proof.
  intros H. unfold Set_has. apply bool_decide_ext, H.
Qed.

Lemma lookupZ_Some {A} (l : list A) (i : Z) x :
  lookupZ l i = Some x ↔ 0 ≤ i ∧ l !! Z.to_nat i = Some x.
Proof.
  unfold lookupZ. destruct (decide (0 ≤ i)) as [Hi|Hi].
  - split; [by intros | by intros [_ ?]].
  - split; [discriminate | by intros [? _]].
Qed.

Lemma lookupZ_in_range {A} (l : list A) (i : Z) :
  0 ≤ i < Z.of_nat (length l) → is_Some (lookupZ l i).
Proof.
  intros Hi. unfold lookupZ. rewrite decide_True by lia.
  apply lookup_lt_is_Some. lia.
Qed.

(** ** Neighborhoods and evaluation *)

Lemma getNeighborhood_lookup config c lo hi i :
  getNeighborhood config c lo hi !! i
  = if decide (lo ≤ i ≤ hi) then Some (window_ref config c i) else None.
Proof.
  unfold getNeighborhood.
  set (step := λ (neighborhood : Neighborhood) (i : Z), _).
  assert (Hstep : ∀ nb j, step nb j = <[j := window_ref config c j]> nb).
  { intros nb j. unfold step, window_ref. by repeat case_decide. }
  assert (Hfold : ∀ l (nb : Neighborhood),
            foldl step nb l !! i
            = if decide (i ∈ l) then Some (window_ref config c i) else nb !! i).
  { induction l as [|j l IH]; intros nb.
    - cbn [foldl]. destruct (decide (i ∈ [])) as [Hi%elem_of_nil|_]; done.
    - cbn [foldl]. rewrite IH, Hstep.
      destruct (decide (i ∈ l)) as [Hl|Hl], (decide (i ∈ j :: l)) as [Hjl|Hjl];
        try done.
      + exfalso. apply Hjl. by right.
      + apply elem_of_cons in Hjl as [->|?]; [|done]. by rewrite lookup_insert_eq.
      + rewrite lookup_insert_ne; [done|]. intros ->. apply Hjl. by left. }
  rewrite Hfold, lookup_empty.
  destruct (decide (lo ≤ i ≤ hi)) as [Hi|Hi].
  - rewrite decide_True; [done|]. apply elem_of_seqZ. lia.
  - rewrite decide_False; [done|]. rewrite elem_of_seqZ. lia.
Qed.

(** A reference of a window points inside the configuration. *)
Lemma window_ref_in_range config c i k :
  window_ref config c i = CellSet k →
  Z.of_nat k = Z.of_nat c + i ∧ (k < length config)%nat.
Proof. unfold window_ref. repeat case_decide; [done..|]. intros [= <-]. lia. Qed.

(** With every literal inside the window, the evaluation returns. *)
Lemma eval_returns config c lo hi cells clause :
  literals_within lo hi clause = true →
  ∃ b, eval cells (getNeighborhood config c lo hi) clause = Ok b.
Proof.
  induction clause as [|sub IH|l IH|l IH|s p t] using Clause_ind'; simpl; intros Hw.
  - eauto.
  - destruct (IH Hw) as [b ->]. simpl. eauto.
  - induction IH as [|x l Hx _ IHl]; simpl in *; [eauto|].
    apply andb_prop in Hw as [Hx' Hl]. destruct (Hx Hx') as [b ->]. simpl.
    destruct b; [by apply IHl | eauto].
  - induction IH as [|x l Hx _ IHl]; simpl in *; [eauto|].
    apply andb_prop in Hw as [Hx' Hl]. destruct (Hx Hx') as [b ->]. simpl.
    destruct b; [eauto | by apply IHl].
  - apply bool_decide_eq_true in Hw.
    rewrite getNeighborhood_lookup, decide_True by done. eauto.
Qed.

Lemma deref_same cells1 cells2 r x :
  same_cells cells1 cells2 → Set_has (deref cells1 r) x = Set_has (deref cells2 r) x.
Proof.
  intros H. apply Set_has_same. destruct r as [|k]; simpl; [done|].
  destruct (cells1 !! k) as [s1|] eqn:H1.
  - destruct (Forall2_lookup_l _ _ _ _ _ H H1) as (s2 & -> & Hs). done.
  - apply Forall2_length in H. apply lookup_ge_None in H1.
    assert (H2 : cells2 !! k = None) by (apply lookup_ge_None; lia).
    rewrite H2. done.
Qed.

(** The evaluation looks at the signals of the cells, not at the order in
    which they came. *)
Lemma eval_same cells1 cells2 signals clause :
  same_cells cells1 cells2 → eval cells1 signals clause = eval cells2 signals clause.
Proof.
  intros H. induction clause as [|sub IH|l IH|l IH|s p t] using Clause_ind'; simpl.
  - done.
  - by rewrite IH.
  - induction IH as [|x l Hx _ IHl]; [done|]. rewrite Hx, IHl. done.
  - induction IH as [|x l Hx _ IHl]; [done|]. rewrite Hx, IHl. done.
  - destruct (signals !! p) as [r|]; [|done]. by rewrite (deref_same _ _ _ _ H).
Qed.

(** ** What a step does to the diagram *)

Lemma grown_refl d : grown d d.
Proof. apply Forall_Forall2_diag, Forall_forall. intros config _.
  apply Forall_Forall2_diag, Forall_forall. by intros cell _ x. Qed.

Lemma grown_trans d1 d2 d3 : grown d1 d2 → grown d2 d3 → grown d1 d3.
Proof.
  apply Forall2_trans. intros c1 c2 c3.
  apply Forall2_trans. intros s1 s2 s3 H12 H23 x Hx. by apply H23, H12.
Qed.

Lemma grown_length d d' : grown d d' → length d' = length d.
Proof. intros H. symmetry. by eapply Forall2_length. Qed.

(** Adding a signal to one cell of one configuration. *)
Lemma grown_insert (d : Diagram) tt tc config cell x :
  d !! tt = Some config → config !! tc = Some cell →
  grown d (<[tt := <[tc := Set_add cell x]> config]> d).
Proof.
  intros Hd Hc. rewrite <-(list_insert_id d tt config) at 1 by done.
  apply Forall2_insert; [apply grown_refl|].
  rewrite <-(list_insert_id config tc cell) at 1 by done.
  apply Forall2_insert; [|apply Set_add_grows].
  apply Forall_Forall2_diag, Forall_forall. by intros s _ y.
Qed.

Lemma width_insert nbCells (d : Diagram) tt tc config cell :
  width nbCells d → d !! tt = Some config →
  width nbCells (<[tt := <[tc := cell]> config]> d).
Proof.
  intros Hw Hd. apply Forall_insert; [done|]. rewrite length_insert.
  by apply (Forall_lookup_1 _ _ _ _ Hw Hd).
Qed.

(** An output checked and written: the diagram keeps its shape and loses
    nothing. *)
Lemma write_output_grows nbCells t c d output d' :
  width nbCells d → write_output nbCells t c d output = Ok d' →
  width nbCells d' ∧ grown d d'.
Proof.
  intros Hw. unfold write_output.
  destruct (_ && _); [|intros [= <-]; split; [done|apply grown_refl]].
  destruct (lookupZ d _) as [config|] eqn:Hd; [|discriminate].
  destruct (lookupZ config _) as [cell|] eqn:Hc; [|discriminate].
  apply lookupZ_Some in Hd as [_ Hd]. apply lookupZ_Some in Hc as [_ Hc].
  intros [= <-]. split; [by apply width_insert | by apply grown_insert].
Qed.

(** An output that does not aim before time 0 never throws. *)
Lemma write_output_returns nbCells t c d output :
  width nbCells d → 0 ≤ futureStep output →
  ∃ d', write_output nbCells t c d output = Ok d'.
Proof.
  intros Hw Hfs. unfold write_output.
  destruct (_ && _) eqn:Hguard; [|eauto].
  apply andb_prop in Hguard as [Hguard Hhi]. apply andb_prop in Hguard as [Htime Hlo].
  apply bool_decide_eq_true in Htime, Hlo, Hhi.
  destruct (lookupZ_in_range d (Z.of_nat t + futureStep output)) as [config Hd]; [lia|].
  rewrite Hd. apply lookupZ_Some in Hd as [_ Hd].
  pose proof (Forall_lookup_1 _ _ _ _ Hw Hd) as Hlen. simpl in Hlen.
  destruct (lookupZ_in_range config (Z.of_nat c + neighbor output)) as [cell Hc]; [lia|].
  rewrite Hc. eauto.
Qed.

(** An output whose target cell is off the strip, or whose target time is
    at or past the end of the diagram, is dropped: nothing is written and
    nothing is thrown. *)
Lemma write_output_dropped nbCells t c d output :
  Z.of_nat c + neighbor output < 0 ∨ Z.of_nat nbCells ≤ Z.of_nat c + neighbor output
  ∨ Z.of_nat (length d) ≤ Z.of_nat t + futureStep output →
  write_output nbCells t c d output = Ok d.
Proof.
  intros H. unfold write_output.
  destruct (_ && _) eqn:Hguard; [|done].
  apply andb_prop in Hguard as [Hguard Hhi]. apply andb_prop in Hguard as [Htime Hlo].
  apply bool_decide_eq_true in Htime, Hlo, Hhi. lia.
Qed.

(** A loop whose turns keep the shape and lose nothing does so too. *)
Lemma for_of_grows {A} nbCells (body : Diagram → A → result Diagram) l :
  (∀ s x s', width nbCells s → body s x = Ok s' → width nbCells s' ∧ grown s s') →
  ∀ d d', width nbCells d → for_of body l d = Ok d' → width nbCells d' ∧ grown d d'.
Proof.
  intros Hbody d d' Hw Hrun.
  eapply (for_of_invariant (λ s, width nbCells s ∧ grown d s));
    [|split; [exact Hw|apply grown_refl]|exact Hrun].
  intros s x s' _ [Hs Hg] Hx. destruct (Hbody _ _ _ Hs Hx) as [Hs' Hg'].
  split; [done|]. by eapply grown_trans.
Qed.

Lemma run_rule_grows nbCells t c neighborhood d rule d' :
  width nbCells d → run_rule nbCells t c neighborhood d rule = Ok d' →
  width nbCells d' ∧ grown d d'.
Proof.
  intros Hw. unfold run_rule. intros (fires & _ & Hrun)%bind_Ok_inv.
  destruct fires.
  - revert Hw Hrun. apply for_of_grows. intros s o s'. apply write_output_grows.
  - injection Hrun as <-. split; [done|apply grown_refl].
Qed.

Lemma run_cell_grows a nbCells t d c d' :
  width nbCells d → run_cell a nbCells t d c = Ok d' →
  width nbCells d' ∧ grown d d'.
Proof.
  unfold run_cell. destruct (d !! t) as [config|]; [|discriminate].
  apply for_of_grows. intros s rule s'. apply run_rule_grows.
Qed.

Lemma run_step_grows a nbCells d t d' :
  width nbCells d → run_step a nbCells d t = Ok d' →
  width nbCells d' ∧ grown d d'.
Proof. apply for_of_grows. intros s c s'. apply run_cell_grows. Qed.

Lemma width_initial (initial : Configuration) n :
  width (length initial) (initial :: replicate n (new_Configuration (length initial))).
Proof.
  apply Forall_cons. split; [done|]. apply Forall_replicate.
  unfold new_Configuration. by rewrite length_replicate.
Qed.

(** The shape of what [makeDiagram] returns, whenever it returns. *)
Lemma makeDiagram_shape a initial n d :
  makeDiagram a initial n = Ok d →
  length d = S n ∧ width (length initial) d
  ∧ grown (initial :: replicate n (new_Configuration (length initial))) d.
Proof.
  unfold makeDiagram, getSize. intros Hrun.
  destruct (for_of_grows _ _ _ (run_step_grows a (length initial)) _ _
              (width_initial initial n) Hrun) as [Hw Hg].
  split; [|done]. rewrite (grown_length _ _ Hg). simpl. by rewrite length_replicate.
Qed.

(** ** When [makeDiagram] returns *)

(** A loop over the diagram whose turns return and keep the shape returns. *)
Lemma for_of_diagram_returns {A} nbCells (body : Diagram → A → result Diagram) l len :
  (∀ s x, x ∈ l → width nbCells s → length s = len → ∃ s', body s x = Ok s') →
  (∀ s x s', width nbCells s → body s x = Ok s' → width nbCells s' ∧ grown s s') →
  ∀ d, width nbCells d → length d = len → ∃ d', for_of body l d = Ok d'.
Proof.
  intros Hret Hgrow d Hw Hlen.
  destruct (for_of_returns (λ s, width nbCells s ∧ length s = len) body l) with (s := d)
    as (d' & Hd' & _); [|done|eauto].
  intros s x Hx [Hs Hl]. destruct (Hret s x Hx Hs Hl) as [s' Hs'].
  exists s'. split; [done|]. destruct (Hgrow _ _ _ Hs Hs') as [Hw' Hg].
  split; [done|]. by rewrite (grown_length _ _ Hg).
Qed.

Lemma run_rule_returns nbCells t c config lo hi d rule :
  width nbCells d →
  literals_within lo hi (condition rule) = true →
  forallb (λ output, bool_decide (0 ≤ futureStep output)) (outputs rule) = true →
  ∃ d', run_rule nbCells t c (getNeighborhood config c lo hi) d rule = Ok d'.
Proof.
  intros Hw Hlit Houts. unfold run_rule.
  destruct (eval_returns config c lo hi (default [] (d !! t)) _ Hlit) as [fires ->].
  simpl. destruct fires; [|eauto].
  apply (for_of_diagram_returns nbCells _ _ (length d)); [| |done..].
  - intros s o Ho Hs _. apply write_output_returns; [done|].
    rewrite forallb_forall in Houts. apply list_elem_of_In, Houts in Ho.
    by apply bool_decide_eq_true in Ho.
  - intros s o s'. apply write_output_grows.
Qed.

Lemma run_cell_returns a nbCells t d c :
  well_formed a = true → width nbCells d → (t < length d)%nat →
  ∃ d', run_cell a nbCells t d c = Ok d'.
Proof.
  intros Ha Hw Ht. unfold run_cell.
  destruct (lookup_lt_is_Some_2 d t Ht) as [config ->].
  apply (for_of_diagram_returns nbCells _ _ (length d)); [| |done..].
  - intros s rule Hrule Hs _. unfold well_formed in Ha. rewrite forallb_forall in Ha.
    apply list_elem_of_In, Ha, andb_prop in Hrule as [Hlit Houts].
    by apply run_rule_returns.
  - intros s rule s'. apply run_rule_grows.
Qed.

Lemma run_step_returns a nbCells d t :
  well_formed a = true → width nbCells d → (t < length d)%nat →
  ∃ d', run_step a nbCells d t = Ok d'.
Proof.
  intros Ha Hw Ht. unfold run_step.
  apply (for_of_diagram_returns nbCells _ _ (length d)); [| |done..].
  - intros s c _ Hs Hl. apply run_cell_returns; [done..|]. by rewrite Hl.
  - intros s c s'. apply run_cell_grows.
Qed.

(** On a well-formed automaton [makeDiagram] returns a diagram. *)
Lemma makeDiagram_returns a initial n :
  well_formed a = true → ∃ d, makeDiagram a initial n = Ok d.
Proof.
  intros Ha. unfold makeDiagram, getSize.
  apply (for_of_diagram_returns (length initial) _ _ (S n)).
  - intros s t Ht Hs Hl. apply run_step_returns; [done..|].
    apply elem_of_seq in Ht. lia.
  - intros s t s'. apply run_step_grows.
  - apply width_initial.
  - simpl. by rewrite length_replicate.
Qed.

(** With no rule nothing is evaluated and nothing is written. *)
Lemma makeDiagram_no_rule a initial n :
  rules a = [] →
  makeDiagram a initial n
  = Ok (initial :: replicate n (new_Configuration (length initial))).
Proof.
  intros Hno. unfold makeDiagram, getSize.
  set (d := initial :: replicate n (new_Configuration (length initial))).
  assert (Hlen : length d = S n) by (simpl; by rewrite length_replicate).
  assert (Hcell : ∀ t c, (t < S n)%nat → run_cell a (length initial) t d c = Ok d).
  { intros t c Ht. unfold run_cell.
    destruct (lookup_lt_is_Some_2 d t) as [config ->]; [lia|]. by rewrite Hno. }
  assert (Hcells : ∀ t cs, (t < S n)%nat →
            for_of (run_cell a (length initial) t) cs d = Ok d).
  { intros t cs Ht. induction cs as [|c cs IH]; [done|]. simpl. by rewrite Hcell. }
  assert (Hsteps : ∀ ts, Forall (λ t, t < S n)%nat ts →
            for_of (run_step a (length initial)) ts d = Ok d).
  { induction 1 as [|t ts Ht _ IH]; [done|]. cbn [for_of].
    replace (run_step a (length initial) d t) with (Ok d : result Diagram);
      [exact IH|]. symmetry. by apply Hcells. }
  apply Hsteps, Forall_forall. intros t Ht%elem_of_seq. lia.
Qed.

(** ** [makeDiagram]: the diagram returned *)

(** C10: whatever the automaton and the initial configuration,
    [makeDiagram(initial, 0)] returns the sequence whose one element is the
    initial configuration, every cell as it was: with no step to run, no
    rule is evaluated and nothing is written. *)
Theorem makeDiagram_zero_steps (a : Automaton) (initial : Configuration) :
  makeDiagram a initial 0 = Ok [initial].
Proof. reflexivity. Qed.

(** C3, as stated, fails: with no rule the first configuration returned is
    the initial one, signals included, so the diagram is not all empty; and
    an automaton whose literal looks outside the window makes [makeDiagram]
    throw, so that it returns no diagram at all. *)
Lemma makeDiagram_not_all_empty :
  makeDiagram (automaton_of [] 0 0) [["Init"]; []] 1
  = Ok [[["Init"]; []]; [[]; []]]
  ∧ ¬ Forall (Forall (λ cell : SignalSet, cell = [])) [[["Init"]; []]; [[]; []]]
  ∧ makeDiagram (automaton_of [rule_of (Literal "A" 1 0) "B" 0 1] 0 0) [[]; []] 1
    = Throw TypeError.
Proof.
  split; [reflexivity|]. split; [|reflexivity].
  intros H. apply Forall_cons in H as [H _]. apply Forall_cons in H as [H _].
  discriminate H.
Qed.

(** C3, amended: for every initial configuration of N cells, every number
    of steps and every automaton whose literals stay inside the window and
    whose outputs do not aim at the past, [makeDiagram] returns [nbSteps + 1]
    configurations, each of N cells; the first one is the initial
    configuration, which kept every signal it had; and with no rule at all
    the diagram is the initial configuration as it was, followed by
    [nbSteps] configurations of N empty cells. *)
Theorem makeDiagram_returns_diagram (a : Automaton) (initial : Configuration)
    (nbSteps : nat) :
  well_formed a = true →
  ∃ d, makeDiagram a initial nbSteps = Ok d
       ∧ length d = S nbSteps
       ∧ width (length initial) d
       ∧ (∃ first, d !! 0%nat = Some first
                   ∧ Forall2 (λ cell cell' : SignalSet, cell ⊆ cell') initial first)
       ∧ (rules a = [] →
          d = initial :: replicate nbSteps (new_Configuration (length initial))).
Proof.
  intros Ha. destruct (makeDiagram_returns a initial nbSteps Ha) as [d Hd].
  exists d. destruct (makeDiagram_shape _ _ _ _ Hd) as (Hlen & Hw & Hg).
  repeat split; try done.
  - inversion Hg as [|? first ? rest Hfirst _]; subst. by exists first.
  - intros Hno. rewrite (makeDiagram_no_rule a initial nbSteps Hno) in Hd. congruence.
Qed.

Lemma makeDiagram_returns_diagram_witness :
  well_formed (automaton_of [rule_of (Literal "A" 0 0) "B" 0 0] 0 0) = true
  ∧ ∃ d, makeDiagram (automaton_of [rule_of (Literal "A" 0 0) "B" 0 0] 0 0)
                     [["A"]; []; []] 2 = Ok d
         ∧ length d = 3%nat
         ∧ width 3 d
         ∧ (∃ first, d !! 0%nat = Some first
                     ∧ Forall2 (λ cell cell' : SignalSet, cell ⊆ cell')
                               [["A"]; []; []] first)
         ∧ (rules (automaton_of [rule_of (Literal "A" 0 0) "B" 0 0] 0 0) = [] →
            d = [["A"]; []; []] :: replicate 2 (new_Configuration 3)).
Proof.
  split; [reflexivity|].
  apply (makeDiagram_returns_diagram
           (automaton_of [rule_of (Literal "A" 0 0) "B" 0 0] 0 0) [["A"]; []; []] 2).
  reflexivity.
Defined.

(** C4: the code breaks the claim. The test before a write bounds the
    target time from above only; an output whose step into the future is
    negative aims before time 0, passes the test when its target cell is on
    the strip, and the write throws instead of being dropped. The rule text
    [A: 0/-1.B] parses to such an output. *)
Theorem write_before_time_0_throws :
  SignToken.new_Automaton "A: 0/-1.B"
  = Ok (automaton_of [rule_of (Literal "A" 0 0) "B" 0 (-1)] 0 0)
  ∧ write_output 1 0 0 [[["A"]]; [[]]]
                 {| neighbor := 0; signal := "B"; futureStep := -1 |}
    = Throw TypeError
  ∧ makeDiagram (automaton_of [rule_of (Literal "A" 0 0) "B" 0 (-1)] 0 0) [["A"]] 1
    = Throw TypeError.
Proof. repeat split; vm_compute; reflexivity. Qed.

(** C5: a literal whose offset is outside the window [[lo, hi]] of the
    neighborhood finds no set there, and its evaluation throws; it does not
    answer that the signal is absent, nor does its negation answer that it
    is. *)
Theorem Literal_outside_window_throws (config cells : Configuration) (c : nat)
    (lo hi : Z) (sig : Signal) (position timeStep : Z) :
  position < lo ∨ hi < position →
  getNeighborhood config c lo hi !! position = None
  ∧ eval cells (getNeighborhood config c lo hi) (Literal sig position timeStep)
    = Throw TypeError
  ∧ eval cells (getNeighborhood config c lo hi) (Literal sig position timeStep)
    ≠ Ok false
  ∧ eval cells (getNeighborhood config c lo hi)
         (Negation (Literal sig position timeStep))
    = Throw TypeError.
Proof.
  intros Hout.
  assert (Hnone : getNeighborhood config c lo hi !! position = None).
  { rewrite getNeighborhood_lookup. apply decide_False. lia. }
  simpl. rewrite Hnone. repeat split; discriminate.
Qed.

Lemma Literal_outside_window_throws_witness :
  (1 < 0 ∨ 0 < 1)
  ∧ getNeighborhood [["A"]; ["A"]] 0 0 0 !! 1 = None
  ∧ eval [["A"]; ["A"]] (getNeighborhood [["A"]; ["A"]] 0 0 0) (Literal "A" 1 0)
    = Throw TypeError
  ∧ eval [["A"]; ["A"]] (getNeighborhood [["A"]; ["A"]] 0 0 0) (Literal "A" 1 0)
    ≠ Ok false
  ∧ eval [["A"]; ["A"]] (getNeighborhood [["A"]; ["A"]] 0 0 0)
         (Negation (Literal "A" 1 0))
    = Throw TypeError.
Proof.
  split; [right; lia|].
  apply (Literal_outside_window_throws [["A"]; ["A"]] [["A"]; ["A"]] 0 0 0 "A" 1 0).
  right; lia.
Defined.

(** ** Determinism *)

Lemma same_set_refl s : same_set s s.
Proof. by intros x. Qed.

Lemma same_cells_refl c : same_cells c c.
Proof. apply Forall_Forall2_diag, Forall_forall. intros s _. apply same_set_refl. Qed.

Lemma same_diagram_replicate n (c : Configuration) :
  same_diagram (replicate n c) (replicate n c).
Proof. apply Forall_Forall2_diag, Forall_forall. intros s _. apply same_cells_refl. Qed.

Lemma same_lookup {A} (R : A → A → Prop) (l1 l2 : list A) (i : nat) :
  Forall2 R l1 l2 → option_Forall2 R (l1 !! i) (l2 !! i).
Proof. intros H. by apply Forall2_lookup. Qed.

Lemma same_lookupZ {A} (R : A → A → Prop) l1 l2 i :
  Forall2 R l1 l2 → option_Forall2 R (lookupZ l1 i) (lookupZ l2 i).
Proof.
  intros H. unfold lookupZ. destruct (decide (0 ≤ i)); [|constructor].
  by apply Forall2_lookup.
Qed.

Lemma getNeighborhood_length config1 config2 c lo hi :
  length config1 = length config2 →
  getNeighborhood config1 c lo hi = getNeighborhood config2 c lo hi.
Proof. intros H. unfold getNeighborhood. by rewrite H. Qed.

Lemma write_output_same nbCells t c d1 d2 output :
  same_diagram d1 d2 →
  same_outcome (write_output nbCells t c d1 output) (write_output nbCells t c d2 output).
Proof.
  intros H. unfold write_output. rewrite <-(Forall2_length _ _ _ H).
  destruct (_ && _); [|exact H].
  destruct (same_lookupZ same_cells d1 d2 (Z.of_nat t + futureStep output) H)
    as [config1 config2 Hconfig|]; [|reflexivity].
  destruct (same_lookupZ same_set config1 config2 (Z.of_nat c + neighbor output) Hconfig)
    as [cell1 cell2 Hcell|]; [|reflexivity].
  simpl. apply Forall2_insert; [exact H|].
  apply Forall2_insert; [exact Hconfig|]. by apply Set_add_same.
Qed.

(** Loops whose turns take equal diagrams to equal outcomes do so too. *)
Lemma for_of_same {A} (body1 body2 : Diagram → A → result Diagram) l :
  (∀ s1 s2 x, same_diagram s1 s2 → same_outcome (body1 s1 x) (body2 s2 x)) →
  ∀ d1 d2, same_diagram d1 d2 → same_outcome (for_of body1 l d1) (for_of body2 l d2).
Proof.
  intros Hbody. induction l as [|x l IH]; intros d1 d2 H; simpl; [exact H|].
  pose proof (Hbody d1 d2 x H) as Hx.
  destruct (body1 d1 x) as [s1|e1|], (body2 d2 x) as [s2|e2|]; simpl in *;
    try done.
  by apply IH.
Qed.

Lemma run_rule_same nbCells t c neighborhood d1 d2 rule :
  same_diagram d1 d2 →
  same_outcome (run_rule nbCells t c neighborhood d1 rule)
               (run_rule nbCells t c neighborhood d2 rule).
Proof.
  intros H. unfold run_rule.
  assert (Hrow : same_cells (default [] (d1 !! t)) (default [] (d2 !! t))).
  { destruct (same_lookup same_cells d1 d2 t H) as [config1 config2 Hc|]; [exact Hc|].
    apply same_cells_refl. }
  rewrite (eval_same _ _ neighborhood (condition rule) Hrow).
  destruct (eval _ _ _) as [[]| |]; simpl; try done.
  apply for_of_same; [|exact H]. intros s1 s2 o. apply write_output_same.
Qed.

Lemma run_cell_same a nbCells t d1 d2 c :
  same_diagram d1 d2 →
  same_outcome (run_cell a nbCells t d1 c) (run_cell a nbCells t d2 c).
Proof.
  intros H. unfold run_cell.
  destruct (same_lookup same_cells d1 d2 t H) as [config1 config2 Hc|]; [|reflexivity].
  rewrite (getNeighborhood_length config1 config2) by by eapply Forall2_length.
  apply for_of_same; [|exact H]. intros s1 s2 rule. apply run_rule_same.
Qed.

Lemma run_step_same a nbCells d1 d2 t :
  same_diagram d1 d2 →
  same_outcome (run_step a nbCells d1 t) (run_step a nbCells d2 t).
Proof.
  intros H. apply for_of_same; [|exact H]. intros s1 s2 c. apply run_cell_same.
Qed.

(** C9: two runs of [makeDiagram] on automata with the same rules in the
    same order and the same three bounds, on initial configurations with
    the same signals in every cell and for the same number of steps, end
    alike, and when they return, return diagrams of the same length and
    width with the same signals in every cell at every time step. *)
Theorem makeDiagram_deterministic (a1 a2 : Automaton)
    (initial1 initial2 : Configuration) (nbSteps1 nbSteps2 : nat) :
  rules a1 = rules a2 →
  minNeighbor a1 = minNeighbor a2 →
  maxNeighbor a1 = maxNeighbor a2 →
  maxFutureDepth a1 = maxFutureDepth a2 →
  same_cells initial1 initial2 →
  nbSteps1 = nbSteps2 →
  same_outcome (makeDiagram a1 initial1 nbSteps1) (makeDiagram a2 initial2 nbSteps2).
Proof.
  destruct a1 as [rs1 lo1 hi1 depth1], a2 as [rs2 lo2 hi2 depth2]. simpl.
  intros -> -> -> -> Hinit ->. unfold makeDiagram, getSize.
  rewrite <-(Forall2_length _ _ _ Hinit).
  apply for_of_same.
  - intros s1 s2 t. apply run_step_same.
  - constructor; [exact Hinit|]. apply same_diagram_replicate.
Qed.

Lemma makeDiagram_deterministic_witness :
  same_outcome
    (makeDiagram (automaton_of [rule_of (Literal "A" 0 0) "B" 0 0] 0 0) [["A"; "X"]; []] 1)
    (makeDiagram (automaton_of [rule_of (Literal "A" 0 0) "B" 0 0] 0 0) [["X"; "A"]; []] 1).
Proof.
  apply (makeDiagram_deterministic
           (automaton_of [rule_of (Literal "A" 0 0) "B" 0 0] 0 0)
           (automaton_of [rule_of (Literal "A" 0 0) "B" 0 0] 0 0)
           [["A"; "X"]; []] [["X"; "A"]; []] 1 1);
    try reflexivity.
  apply Forall2_cons_2; [|apply same_cells_refl].
  intros x. rewrite !elem_of_cons, !elem_of_nil. tauto.
Defined.

(** ** Writes in the step being scanned *)

(** A write at offset 0 and step 0 lands in the cell being processed. *)
Lemma write_output_here nbCells t c (d : Diagram) config cell sig :
  d !! t = Some config → config !! c = Some cell → (c < nbCells)%nat →
  write_output nbCells t c d {| neighbor := 0; signal := sig; futureStep := 0 |}
  = Ok (<[t := <[c := Set_add cell sig]> config]> d).
Proof.
  intros Hd Hc Hlt. unfold write_output. simpl. rewrite !Z.add_0_r.
  pose proof (lookup_lt_Some _ _ _ Hd) as Ht.
  rewrite !bool_decide_eq_true_2 by lia. simpl.
  unfold lookupZ. rewrite decide_True by lia. rewrite !Nat2Z.id, Hd.
  rewrite decide_True by lia. by rewrite Hc.
Qed.

(** A signal that is in a cell is still there in any diagram grown from
    this one. *)
Lemma grown_keeps (d d' : Diagram) t c config cell sig :
  grown d d' → d !! t = Some config → config !! c = Some cell → sig ∈ cell →
  ∃ config' cell', d' !! t = Some config' ∧ config' !! c = Some cell' ∧ sig ∈ cell'.
Proof.
  intros Hg Hd Hc Hsig.
  destruct (Forall2_lookup_l _ _ _ _ _ Hg Hd) as (config' & Hd' & Hconfig).
  destruct (Forall2_lookup_l _ _ _ _ _ Hconfig Hc) as (cell' & Hc' & Hcell).
  exists config', cell'. repeat split; [done..|]. by apply Hcell.
Qed.

(** The window of [c'] holds, at the offset that reaches [c], the set of
    the cell [c] itself. *)
Lemma getNeighborhood_reaches (config : Configuration) (c c' : nat) lo hi :
  (c < length config)%nat → lo ≤ Z.of_nat c - Z.of_nat c' ≤ hi →
  getNeighborhood config c' lo hi !! (Z.of_nat c - Z.of_nat c') = Some (CellSet c).
Proof.
  intros Hc Hwin. rewrite getNeighborhood_lookup, decide_True by done.
  unfold window_ref. rewrite !decide_False by lia. do 2 f_equal. lia.
Qed.

(** The scan of a step reaches cell [c] after the cells before it are done
    with, and the cells after it once it is done with. *)
Lemma run_step_split a nbCells d t c :
  (c < nbCells)%nat →
  run_step a nbCells d t
  = for_of (run_cell a nbCells t) (seq 0 c) d
    ≫= λ d1, run_cell a nbCells t d1 c
    ≫= for_of (run_cell a nbCells t) (seq (S c) (nbCells - S c)).
Proof.
  intros Hc. unfold run_step.
  replace nbCells with (c + S (nbCells - S c))%nat at 2 by lia.
  rewrite seq_app, for_of_app. simpl.
  destruct (for_of _ (seq 0 c) d); reflexivity.
Qed.

(** C1: a rule output with [futureStep = 0] and [neighborOffset = 0] that
    is written while cell [c] is processed at time [t] adds its signal to
    cell [c] of [diagram[t]] itself. From there on, through the rest of the
    outputs of the rule, the rest of the rules of the cell and the cells
    processed after it, the signal stays, and the window of any cell [c']
    that reaches back to [c] holds that very set: a literal on the signal
    at the offset of [c] is true at [c']. The cells before [c] were all
    done with before the turn of [c] came, so that none of them sees the
    write: in [neighbors_example] the cell on the right of the writer
    fires on it and the cell on its left does not. And the rule text
    [A: 0/0.B], on three cells of which cell 0 holds [A], leaves both [A]
    and [B] in cell 0 of [diagram[0]] after [makeDiagram(_, 1)]. *)
Theorem same_step_write_seen_later (a : Automaton) (nbCells t c : nat) (d : Diagram)
    (config : Configuration) (cell : SignalSet) (sig : Signal) :
  width nbCells d → d !! t = Some config → config !! c = Some cell →
  let written := <[t := <[c := Set_add cell sig]> config]> d in
  write_output nbCells t c d {| neighbor := 0; signal := sig; futureStep := 0 |}
  = Ok written
  ∧ written !! t = Some (<[c := Set_add cell sig]> config)
  ∧ sig ∈ Set_add cell sig
  ∧ (∀ (neighborhood : Neighborhood) (os : list RuleOutput) (rs : list Rule)
       (cs : list nat) (d' : Diagram) (c' : nat) (timeStep : Z),
       (for_of (write_output nbCells t c) os written
          ≫= for_of (run_rule nbCells t c neighborhood) rs)
         ≫= for_of (run_cell a nbCells t) cs = Ok d' →
       minNeighbor a ≤ Z.of_nat c - Z.of_nat c' ≤ maxNeighbor a →
       ∃ config',
         d' !! t = Some config'
         ∧ getNeighborhood config' c' (minNeighbor a) (maxNeighbor a)
             !! (Z.of_nat c - Z.of_nat c') = Some (CellSet c)
         ∧ eval config' (getNeighborhood config' c' (minNeighbor a) (maxNeighbor a))
                (Literal sig (Z.of_nat c - Z.of_nat c') timeStep) = Ok true)
  ∧ (∀ d0 : Diagram,
       run_step a nbCells d0 t
       = for_of (run_cell a nbCells t) (seq 0 c) d0
         ≫= λ d1 : Diagram, run_cell a nbCells t d1 c
         ≫= for_of (run_cell a nbCells t) (seq (S c) (nbCells - S c)))
  ∧ makeDiagram neighbors_example [[]; ["A"]; []] 1
    = Ok [[[]; ["A"; "B"]; []]; [[]; []; ["L"]]]
  ∧ SignToken.new_Automaton "A: 0/0.B" = Ok scenario_A
  ∧ (∀ fuel, SignedItem.new_Automaton (S fuel) "A: 0/0.B" = Ok scenario_A)
  ∧ makeDiagram scenario_A [["A"]; []; []] 1 = Ok [[["A"; "B"]; []; []]; [[]; []; []]].
Proof.
  intros Hw Hd Hc written.
  pose proof (Forall_lookup_1 _ _ _ _ Hw Hd) as Hlen. simpl in Hlen.
  pose proof (lookup_lt_Some _ _ _ Hc) as Hlt. rewrite Hlen in Hlt.
  pose proof (lookup_lt_Some _ _ _ Hd) as Ht.
  assert (Hwritten : written !! t = Some (<[c := Set_add cell sig]> config)).
  { by apply list_lookup_insert_eq. }
  assert (Hsig : sig ∈ Set_add cell sig) by (apply elem_of_Set_add; by right).
  split; [by apply write_output_here|]. split; [done|]. split; [done|].
  split; [|split; [intros d0; by apply run_step_split|]].
  - intros neighborhood os rs cs d' c' timeStep Hrun Hwin.
    apply bind_Ok_inv in Hrun as (d2 & Hrun & Hcells).
    apply bind_Ok_inv in Hrun as (d1 & Houts & Hrules).
    assert (Hw0 : width nbCells written) by by apply width_insert.
    destruct (for_of_grows nbCells _ os (λ s o s', write_output_grows nbCells t c s o s')
                _ _ Hw0 Houts) as [Hw1 Hg1].
    destruct (for_of_grows nbCells _ rs
                (λ s r s', run_rule_grows nbCells t c neighborhood s r s')
                _ _ Hw1 Hrules) as [Hw2 Hg2].
    destruct (for_of_grows nbCells _ cs (λ s x s', run_cell_grows a nbCells t s x s')
                _ _ Hw2 Hcells) as [Hw' Hg'].
    pose proof (grown_trans _ _ _ (grown_trans _ _ _ Hg1 Hg2) Hg') as Hg.
    destruct (grown_keeps written d' t c _ (Set_add cell sig) sig Hg Hwritten)
      as (config' & cell' & Hd' & Hc' & Hsig'); [|done|].
    { apply list_lookup_insert_eq. by rewrite Hlen. }
    exists config'. split; [done|].
    pose proof (lookup_lt_Some _ _ _ Hc') as Hlt'.
    pose proof (getNeighborhood_reaches config' c c' _ _ Hlt' Hwin) as Hnb.
    split; [done|]. simpl. rewrite Hnb. simpl. rewrite Hc'. simpl.
    f_equal. by apply Set_has_true.
  - split; [reflexivity|]. split; [reflexivity|]. split; [|reflexivity].
    intros fuel. vm_compute. reflexivity.
Qed.

Lemma same_step_write_seen_later_witness :
  write_output 3 0 1 [[[]; ["A"]; []]; [[]; []; []]]
               {| neighbor := 0; signal := "B"; futureStep := 0 |}
  = Ok [[[]; ["A"; "B"]; []]; [[]; []; []]]
  ∧ eval [[]; ["A"; "B"]; []] (getNeighborhood [[]; ["A"; "B"]; []] 2 (-1) 1)
         (Literal "B" (-1) 0) = Ok true.
Proof.
  destruct (same_step_write_seen_later neighbors_example 3 0 1
              [[[]; ["A"]; []]; [[]; []; []]] [[]; ["A"]; []] ["A"] "B")
    as (Hwrite & _ & _ & Hlater & _).
  - repeat constructor.
  - reflexivity.
  - reflexivity.
  - split; [exact Hwrite|].
    destruct (Hlater ∅ [] [] [] [[[]; ["A"; "B"]; []]; [[]; []; []]] 2%nat 0)
      as (config' & Hconfig' & _ & Heval).
    + reflexivity.
    + simpl. lia.
    + injection Hconfig' as <-. exact Heval.
Defined.

(** ** The constructors of the clauses *)

(** [new Conjunction]: each child that is a Conjunction gives its own
    subclauses, in place, and every other child stays as it is. *)
Lemma Conjunction_loop_spliced acc subclauses :
  Conjunction_loop acc subclauses = acc ++ flat_map splice_Conjunction subclauses.
Proof.
  revert acc. induction subclauses as [|c l IH]; intros acc; simpl.
  - by rewrite app_nil_r.
  - destruct c; rewrite IH; simpl; by rewrite <-?app_assoc.
Qed.

Lemma new_Conjunction_spliced subclauses :
  new_Conjunction subclauses = Conjunction (flat_map splice_Conjunction subclauses).
Proof. unfold new_Conjunction. by rewrite Conjunction_loop_spliced. Qed.

(** A Conjunction built from children that are flat at their root has no
    Conjunction among its own children. *)
Lemma new_Conjunction_flat subclauses :
  Forall (λ c, flat_root c = true) subclauses →
  flat_root (new_Conjunction subclauses) = true.
Proof.
  intros H. rewrite new_Conjunction_spliced. simpl.
  induction H as [|c l Hc _ IH]; [done|]. simpl. rewrite forallb_app, IH, andb_true_r.
  destruct c; simpl; done.
Qed.

Lemma clause_size_Disjunction l : clause_size (Disjunction l) = S (clauses_size l).
Proof. reflexivity. Qed.

Lemma clauses_size_app l1 l2 :
  clauses_size (l1 ++ l2) = (clauses_size l1 + clauses_size l2)%nat.
Proof. induction l1 as [|c l1 IH]; simpl; [done|]. rewrite IH. lia. Qed.

(** The loop of [new Disjunction] ends, pushed elements and all: the fuel
    [new_Disjunction] gives it is never used up. *)
Lemma Disjunction_loop_total fuel own seen todo :
  (clauses_size todo ≤ fuel)%nat → is_Some (Disjunction_loop fuel own seen todo).
Proof.
  revert own seen todo. induction fuel as [|fuel IH]; intros own seen todo Hsize.
  - destruct todo as [|c todo]; [by eexists|].
    simpl in Hsize. destruct c; simpl in Hsize; lia.
  - destruct todo as [|c todo]; [by eexists|]. simpl in Hsize.
    destruct c as [|sub|l|l|s p t]; cbn [Disjunction_loop];
      try (apply IH; cbn [clause_size] in Hsize; lia).
    rewrite clause_size_Disjunction in Hsize.
    destruct own; apply IH; rewrite ?clauses_size_app; lia.
Qed.

Lemma new_Disjunction_returns subclauses :
  ∃ l, Disjunction_loop (clauses_size subclauses) (Some []) [] subclauses = Some l
       ∧ new_Disjunction subclauses = Disjunction l.
Proof.
  destruct (Disjunction_loop_total (clauses_size subclauses) (Some []) [] subclauses)
    as [l Hl]; [done|].
  exists l. split; [done|]. unfold new_Disjunction. by rewrite Hl.
Qed.

(** C7: the code breaks the claim for Disjunction. [new Conjunction]
    flattens ([new_Conjunction_spliced], [new_Conjunction_flat]); in
    [new Disjunction] the branch of a child that is not a Disjunction
    assigns the argument array to [this.subclauses] where the sibling
    pushes the child, so that a Disjunction among the children stays: after
    a plain child it is kept and its subclauses come after it, and before
    a plain child it is kept and nothing of it is spliced. *)
Theorem new_Disjunction_keeps_nested :
  new_Disjunction [Literal "A" 0 0; new_Disjunction [Literal "B" 0 0; Literal "C" 0 0]]
  = Disjunction [Literal "A" 0 0; Disjunction [Literal "B" 0 0; Literal "C" 0 0];
                 Literal "B" 0 0; Literal "C" 0 0]
  ∧ new_Disjunction [new_Disjunction [Literal "B" 0 0; Literal "C" 0 0]; Literal "A" 0 0]
    = Disjunction [Disjunction [Literal "B" 0 0; Literal "C" 0 0]; Literal "A" 0 0]
  ∧ flat_root
      (new_Disjunction
         [Literal "A" 0 0; new_Disjunction [Literal "B" 0 0; Literal "C" 0 0]]) = false
  ∧ SignToken.parseCondition "[A [B C]]"
    = Ok (Disjunction [Literal "A" 0 0; Disjunction [Literal "B" 0 0; Literal "C" 0 0];
                       Literal "B" 0 0; Literal "C" 0 0])
  ∧ new_Conjunction [Literal "A" 0 0; new_Conjunction [Literal "B" 0 0; Literal "C" 0 0]]
    = Conjunction [Literal "A" 0 0; Literal "B" 0 0; Literal "C" 0 0].
Proof. repeat split; vm_compute; reflexivity. Qed.

(** ** The parser of conditions, signs as tokens *)

(** The loop of a group over a [read] that behaves on the tokens at hand:
    it does not run out of fuel, and it ends on the closing token or with
    the exception. *)
Lemma read_group_well read close n subclauses tokens :
  (∀ ts, ts ≠ [] → (length ts ≤ length tokens)%nat → reads_well ts (read ts)) →
  (length tokens ≤ n)%nat →
  match read_group read (Some SignToken.unbalanced) close n subclauses tokens with
  | Ok (_, rest) => ∃ taken, taken ≠ [] ∧ tokens = taken ++ rest ∧ close ∈ taken
  | Throw e => e = SignToken.unbalanced
  | Timeout => False
  end.
Proof.
  revert subclauses tokens. induction n as [|n IH]; intros subclauses tokens Hread Hn.
  - destruct tokens; [done|simpl in Hn; lia].
  - destruct tokens as [|first rest]; [done|]. cbn [read_group].
    destruct (decide (first = close)) as [->|Hfirst].
    { exists [close]. repeat split; [done|]. by left. }
    pose proof (Hread (first :: rest)) as Hr.
    destruct (read (first :: rest)) as [[c tokens']| |]; simpl;
      [|by apply Hr|by apply Hr].
    destruct Hr as (taken & Htaken & Heq); [done..|].
    assert (Hlen : (length tokens' < length (first :: rest))%nat).
    { rewrite Heq, length_app. destruct taken; [done|]. simpl. lia. }
    specialize (IH (subclauses ++ [c]) tokens').
    destruct (read_group read _ close n _ tokens') as [[subs' rest']| |];
      [| |]; try (apply IH; [|simpl in *; lia]).
    + destruct IH as (taken' & Htaken' & Heq' & Hclose).
      { intros ts Hts Hle. apply Hread; [done|]. lia. }
      { simpl in *. lia. }
      exists (taken ++ taken'). split; [by destruct taken|].
      split; [by rewrite Heq, Heq', app_assoc|]. apply elem_of_app. by right.
    + intros ts Hts Hle. apply Hread; [done|]. lia.
    + intros ts Hts Hle. apply Hread; [done|]. lia.
Qed.

Lemma SignToken_read_fuel_well fuel tokens :
  tokens ≠ [] → (length tokens < fuel)%nat →
  reads_well tokens (SignToken.readConditionTokens_fuel fuel tokens).
Proof.
  revert tokens. induction fuel as [|fuel IH]; intros tokens Hne Hfuel; [lia|].
  destruct tokens as [|token tokens]; [done|]. simpl in Hfuel.
  cbn [SignToken.readConditionTokens_fuel].
  assert (Hgroup : ∀ close,
            match read_group (SignToken.readConditionTokens_fuel fuel)
                    (Some SignToken.unbalanced) close fuel [] tokens with
            | Ok (_, rest) =>
                ∃ taken, taken ≠ [] ∧ tokens = taken ++ rest ∧ close ∈ taken
            | Throw e => e = SignToken.unbalanced
            | Timeout => False
            end).
  { intros close. apply read_group_well; [|lia].
    intros ts Hts Hle. apply IH; [done|lia]. }
  repeat case_decide.
  - specialize (Hgroup ")").
    destruct (read_group _ _ ")" _ _ _) as [[subs rest]| |]; simpl; try done.
    destruct Hgroup as (taken & _ & -> & _).
    assert (reads_well (token :: taken ++ rest) (Ok (CTrue, rest))) as Hok.
    { by exists (token :: taken). }
    destruct subs as [|? [|? ?]]; exact Hok.
  - specialize (Hgroup "]").
    destruct (read_group _ _ "]" _ _ _) as [[subs rest]| |]; simpl; try done.
    destruct Hgroup as (taken & _ & -> & _).
    assert (reads_well (token :: taken ++ rest) (Ok (CTrue, rest))) as Hok.
    { by exists (token :: taken). }
    destruct subs as [|? [|? ?]]; exact Hok.
  - destruct tokens as [|t2 tokens].
    { destruct fuel; [simpl in Hfuel; lia|]. simpl. by exists [token]. }
    specialize (IH (t2 :: tokens)).
    destruct (SignToken.readConditionTokens_fuel fuel (t2 :: tokens))
      as [[c rest]| |]; simpl;
      try (apply IH; [done|simpl in *; lia]).
    destruct IH as (taken & _ & ->); [done|simpl in *; lia|].
    assert (reads_well (token :: taken ++ rest) (Ok (CTrue, rest))) as Hok.
    { by exists (token :: taken). }
    destruct c; exact Hok.
  - destruct tokens as [|t2 tokens].
    { destruct fuel; [simpl in Hfuel; lia|]. simpl. by exists [token]. }
    specialize (IH (t2 :: tokens)).
    destruct (SignToken.readConditionTokens_fuel fuel (t2 :: tokens))
      as [[c rest]| |]; simpl;
      try (apply IH; [done|simpl in *; lia]).
    destruct IH as (taken & _ & ->); [done|simpl in *; lia|].
    by exists (token :: taken).
  - by exists [token].
Qed.

(** [readConditionTokens] never runs out of the fuel it is given: it returns
    a clause, or throws for an unclosed group. *)
Lemma SignToken_readConditionTokens_total tokens :
  SignToken.readConditionTokens tokens ≠ Timeout.
Proof.
  destruct tokens as [|token tokens]; [discriminate|].
  pose proof (SignToken_read_fuel_well (S (length (token :: tokens)))
                (token :: tokens)) as H.
  unfold SignToken.readConditionTokens. intros Hto. rewrite Hto in H. apply H; [done|lia].
Qed.

(** The equations of [readConditionTokens] on the tokens that open a
    group, and of the loop of a group on the token at hand. *)
Lemma SignToken_read_parenthesis fuel tokens :
  SignToken.readConditionTokens_fuel (S fuel) ("(" :: tokens)
  = read_group (SignToken.readConditionTokens_fuel fuel) (Some SignToken.unbalanced)
               ")" fuel [] tokens
    ≫= λ '(subclauses, rest),
         match subclauses with
         | [subclause] => Ok (subclause, rest)
         | _ => Ok (new_Conjunction subclauses, rest)
         end.
Proof. reflexivity. Qed.

Lemma SignToken_read_bracket fuel tokens :
  SignToken.readConditionTokens_fuel (S fuel) ("[" :: tokens)
  = read_group (SignToken.readConditionTokens_fuel fuel) (Some SignToken.unbalanced)
               "]" fuel [] tokens
    ≫= λ '(subclauses, rest),
         match subclauses with
         | [subclause] => Ok (subclause, rest)
         | _ => Ok (new_Disjunction subclauses, rest)
         end.
Proof. reflexivity. Qed.

Lemma read_group_closes read guard close n subclauses rest :
  read_group read guard close n subclauses (close :: rest) = Ok (subclauses, rest).
Proof. destruct n, guard; simpl; by rewrite decide_True. Qed.

Lemma read_group_reads read guard close n subclauses first rest :
  first ≠ close →
  read_group read guard close (S n) subclauses (first :: rest)
  = read (first :: rest)
    ≫= λ '(subclause, tokens),
         read_group read guard close n (subclauses ++ [subclause]) tokens.
Proof. intros H. destruct guard; simpl; by rewrite decide_False. Qed.

(** A group of one subclause, for either pair of grouping tokens. *)
Lemma SignToken_group_of_one (open close : string) tokens c rest :
  grouping open close →
  SignToken.readConditionTokens tokens = Ok (c, close :: rest) →
  head tokens ≠ Some close →
  SignToken.readConditionTokens (open :: tokens) = Ok (c, rest).
Proof.
  intros Hpair Hread Hhead. unfold SignToken.readConditionTokens in *.
  destruct tokens as [|token tokens]; [by destruct Hpair as [[_ ->]|[_ ->]]|].
  assert (Htoken : token ≠ close) by (intros ->; by apply Hhead).
  change (length (open :: token :: tokens)) with (S (length (token :: tokens))).
  destruct Hpair as [[-> ->]|[-> ->]].
  - rewrite SignToken_read_parenthesis, read_group_reads, Hread by done.
    cbn -[read_group]. by rewrite read_group_closes.
  - rewrite SignToken_read_bracket, read_group_reads, Hread by done.
    cbn -[read_group]. by rewrite read_group_closes.
Qed.

(** A group whose closing token never comes. *)
Lemma SignToken_group_unclosed (open close : string) tokens :
  grouping open close →
  close ∉ tokens →
  SignToken.readConditionTokens (open :: tokens) = Throw SignToken.unbalanced.
Proof.
  intros Hpair Hclose. unfold SignToken.readConditionTokens.
  change (length (open :: tokens)) with (S (length tokens)).
  pose proof (read_group_well (SignToken.readConditionTokens_fuel (S (length tokens)))
                close (S (length tokens)) [] tokens) as Hgroup.
  assert (Hthrows : read_group (SignToken.readConditionTokens_fuel (S (length tokens)))
                      (Some SignToken.unbalanced) close (S (length tokens)) [] tokens
                    = Throw SignToken.unbalanced).
  { destruct (read_group _ _ close _ _ _) as [[subs rest]|e|].
    - destruct Hgroup as (taken & _ & -> & Hin); [|lia|].
      { intros ts Hts Hle. apply SignToken_read_fuel_well; [done|lia]. }
      exfalso. apply Hclose, elem_of_app. by left.
    - f_equal. apply Hgroup; [|lia].
      intros ts Hts Hle. apply SignToken_read_fuel_well; [done|lia].
    - exfalso. apply Hgroup; [|lia].
      intros ts Hts Hle. apply SignToken_read_fuel_well; [done|lia]. }
  destruct Hpair as [[-> ->]|[-> ->]].
  - by rewrite SignToken_read_parenthesis, Hthrows.
  - by rewrite SignToken_read_bracket, Hthrows.
Qed.

(** C8: when [readConditionTokens] meets the token [-] it reads the clause
    that follows, and if that clause is a Negation it returns its
    subclause, the two negations gone, where it would otherwise wrap the
    clause in a new Negation. So the tokens [-], [-], [A], and the condition
    [- -A], give the literal [A] itself, without a Negation. The
    evaluation does nothing of the kind: a Negation evaluates its
    subclause, whatever it is, and negates the answer. *)
Theorem double_negation_cancels_when_parsed :
  (∀ tokens,
     SignToken.readConditionTokens ("-" :: tokens)
     = SignToken.readConditionTokens tokens
       ≫= λ '(negatedCondition, rest),
            match negatedCondition with
            | Negation subclause => Ok (subclause, rest)
            | _ => Ok (Negation negatedCondition, rest)
            end)
  ∧ SignToken.readConditionTokens ["-"; "A"] = Ok (Negation (Literal "A" 0 0), [])
  ∧ SignToken.readConditionTokens ["-"; "-"; "A"] = Ok (Literal "A" 0 0, [])
  ∧ SignToken.parseCondition "- -A" = SignToken.parseCondition "A"
  ∧ SignToken.parseCondition "- -A" = Ok (Literal "A" 0 0)
  ∧ (∀ cells signals subclause,
       eval cells signals (Negation subclause)
       = eval cells signals subclause ≫= λ b, Ok (negb b)).
Proof.
  split; [|repeat split; vm_compute; reflexivity].
  intros tokens. unfold SignToken.readConditionTokens.
  cbn [length SignToken.readConditionTokens_fuel]. reflexivity.
Qed.

(** ** The parser of conditions, signs inside the items *)

Lemma SignedItem_read_parenthesis fuel tokens :
  SignedItem.readConditionTokens (S fuel) ("(" :: tokens)
  = read_group (SignedItem.readConditionTokens fuel) None ")" fuel [] tokens
    ≫= λ '(subclauses, rest),
         match subclauses with
         | [] => Ok (CTrue, rest)
         | [subclause] => Ok (subclause, rest)
         | _ => Ok (new_Conjunction subclauses, rest)
         end.
Proof. reflexivity. Qed.

Lemma SignedItem_read_bracket fuel tokens :
  SignedItem.readConditionTokens (S fuel) ("[" :: tokens)
  = read_group (SignedItem.readConditionTokens fuel) None "]" fuel [] tokens
    ≫= λ '(subclauses, rest),
         match subclauses with
         | [] => Ok (Negation CTrue, rest)
         | [subclause] => Ok (subclause, rest)
         | _ => Ok (new_Disjunction subclauses, rest)
         end.
Proof. reflexivity. Qed.

Lemma SignedItem_group_of_one fuel (open close : string) tokens c rest :
  grouping open close →
  SignedItem.readConditionTokens fuel tokens = Ok (c, close :: rest) →
  head tokens ≠ Some close →
  SignedItem.readConditionTokens (S fuel) (open :: tokens) = Ok (c, rest).
Proof.
  intros Hpair Hread Hhead.
  destruct fuel as [|fuel]; [discriminate|].
  destruct tokens as [|token tokens]; [discriminate|].
  assert (Htoken : token ≠ close) by (intros ->; by apply Hhead).
  destruct Hpair as [[-> ->]|[-> ->]].
  - rewrite SignedItem_read_parenthesis, read_group_reads, Hread by done.
    cbn -[read_group]. by rewrite read_group_closes.
  - rewrite SignedItem_read_bracket, read_group_reads, Hread by done.
    cbn -[read_group]. by rewrite read_group_closes.
Qed.

(** Past the end of the tokens the loop of a group turns until the fuel is
    gone: every call returns the empty clause and takes nothing. *)
Lemma SignedItem_read_group_past_end fuel n close subclauses :
  read_group (SignedItem.readConditionTokens fuel) None close n subclauses [] = Timeout.
Proof.
  revert subclauses. induction n as [|n IH]; intros subclauses; [done|].
  cbn [read_group]. destruct fuel; [done|]. simpl. apply IH.
Qed.

(** The group of [(A] is never closed, and reading it never ends. *)
Lemma SignedItem_unclosed_group_never_returns fuel :
  SignedItem.parseCondition fuel "(A" = Timeout.
Proof.
  unfold SignedItem.parseCondition.
  replace (match_all SignedItem.conditionTokensRE "(A") with (Some ["("; "A"])
    by (vm_compute; reflexivity).
  destruct fuel as [|fuel]; [done|]. rewrite SignedItem_read_parenthesis.
  destruct fuel as [|fuel]; [done|]. rewrite read_group_reads by done.
  replace (SignedItem.readConditionTokens (S fuel) ["A"])
    with (Ok (Literal "A" 0 0, []) : result (Clause * list string))
    by (vm_compute; reflexivity).
  cbn -[read_group SignedItem.readConditionTokens].
  by rewrite SignedItem_read_group_past_end.
Qed.

(** A closing token where a clause is due is read as the name of a signal. *)
Lemma SignToken_closing_token_read_as_literal :
  SignToken.parseCondition ")" = Ok (Literal ")" 0 0).
Proof. vm_compute. reflexivity. Qed.

(** C6, as stated, fails: the empty group [()] is read without a failure
    by either revision, as a clause that is always true; and the revision
    with sign tokens reads [[]] as a Disjunction of nothing, which is not the
    Negation of the empty clause. *)
Lemma empty_parentheses_parse :
  SignToken.parseCondition "()" = Ok (Conjunction [])
  ∧ SignedItem.parseCondition 1 "()" = Ok CTrue
  ∧ SignToken.parseCondition "[]" = Ok (Disjunction [])
  ∧ Disjunction [] ≠ Negation CTrue.
Proof. repeat split; try (vm_compute; reflexivity). discriminate. Qed.

(** C6, amended: an empty group [()] parses to a clause that is always
    true (a Conjunction of nothing in the revision with sign tokens, the
    empty clause in the one with signed items) and an empty group [[]] to
    a clause that is always false (a Disjunction of nothing in the revision
    with sign tokens, the Negation of the empty clause in the one with
    signed items); a group of exactly one subclause parses to that
    subclause, without a wrapper; tokens left over once the clause is read
    are a parse failure in both revisions, and so is, in the revision with
    sign tokens, a group whose closing token does not come. *)
Theorem groups_of_a_condition :
  (∀ rest,
     SignToken.readConditionTokens ("(" :: ")" :: rest) = Ok (Conjunction [], rest))
  ∧ (∀ rest,
       SignToken.readConditionTokens ("[" :: "]" :: rest) = Ok (Disjunction [], rest))
  ∧ (∀ fuel rest,
       SignedItem.readConditionTokens (S fuel) ("(" :: ")" :: rest) = Ok (CTrue, rest))
  ∧ (∀ fuel rest,
       SignedItem.readConditionTokens (S fuel) ("[" :: "]" :: rest)
       = Ok (Negation CTrue, rest))
  ∧ (∀ cells signals,
       eval cells signals (Conjunction []) = Ok true
       ∧ eval cells signals CTrue = Ok true
       ∧ eval cells signals (Disjunction []) = Ok false
       ∧ eval cells signals (Negation CTrue) = Ok false)
  ∧ (∀ open close tokens c rest,
       grouping open close →
       SignToken.readConditionTokens tokens = Ok (c, close :: rest) →
       head tokens ≠ Some close →
       SignToken.readConditionTokens (open :: tokens) = Ok (c, rest))
  ∧ (∀ fuel open close tokens c rest,
       grouping open close →
       SignedItem.readConditionTokens fuel tokens = Ok (c, close :: rest) →
       head tokens ≠ Some close →
       SignedItem.readConditionTokens (S fuel) (open :: tokens) = Ok (c, rest))
  ∧ (∀ conditionString tokens c rest,
       match_all SignToken.conditionTokenRE conditionString = Some tokens →
       SignToken.readConditionTokens tokens = Ok (c, rest) → rest ≠ [] →
       SignToken.parseCondition conditionString
       = Throw (RuleParsingException "Invalid condition"))
  ∧ (∀ fuel conditionString tokens c rest,
       match_all SignedItem.conditionTokensRE conditionString = Some tokens →
       SignedItem.readConditionTokens fuel tokens = Ok (c, rest) → rest ≠ [] →
       SignedItem.parseCondition fuel conditionString
       = Throw (RuleParsingException "Unbalanced condition"))
  ∧ (∀ conditionString open close tokens,
       grouping open close →
       match_all SignToken.conditionTokenRE conditionString = Some (open :: tokens) →
       close ∉ tokens →
       SignToken.parseCondition conditionString = Throw SignToken.unbalanced).
Proof.
  split; [reflexivity|]. split; [reflexivity|].
  split; [intros; by rewrite SignedItem_read_parenthesis, read_group_closes|].
  split; [intros; by rewrite SignedItem_read_bracket, read_group_closes|].
  split; [by intros|].
  split; [intros *; apply SignToken_group_of_one|].
  split; [intros *; apply SignedItem_group_of_one|].
  split; [|split].
  - intros s tokens c rest Htokens Hread Hrest. unfold SignToken.parseCondition.
    rewrite Htokens, Hread. simpl. destruct rest; [done|].
    by rewrite decide_True by (simpl; lia).
  - intros fuel s tokens c rest Htokens Hread Hrest. unfold SignedItem.parseCondition.
    rewrite Htokens, Hread. simpl. destruct rest; [done|].
    by rewrite decide_True by (simpl; lia).
  - intros s open close tokens Hpair Htokens Hclose. unfold SignToken.parseCondition.
    by rewrite Htokens, (SignToken_group_unclosed open close tokens Hpair Hclose).
Qed.

Lemma groups_of_a_condition_witness :
  SignToken.readConditionTokens ["("; "A"; ")"; "B"] = Ok (Literal "A" 0 0, ["B"])
  ∧ SignedItem.readConditionTokens 2 ["["; "-A"; "]"]
    = Ok (Negation (Literal "A" 0 0), [])
  ∧ SignToken.parseCondition "A)" = Throw (RuleParsingException "Invalid condition")
  ∧ SignedItem.parseCondition 1 "A)" = Throw (RuleParsingException "Unbalanced condition")
  ∧ SignToken.parseCondition "(A [B]" = Throw SignToken.unbalanced.
Proof.
  destruct groups_of_a_condition
    as (_ & _ & _ & _ & _ & Hone1 & Hone2 & Hleft1 & Hleft2 & Hunclosed).
  split; [|split; [|split; [|split]]].
  - apply (Hone1 "(" ")" ["A"; ")"; "B"] (Literal "A" 0 0) ["B"]).
    + by left.
    + vm_compute. reflexivity.
    + discriminate.
  - apply (Hone2 1%nat "[" "]" ["-A"; "]"] (Negation (Literal "A" 0 0)) []).
    + by right.
    + vm_compute. reflexivity.
    + discriminate.
  - apply (Hleft1 "A)" ["A"; ")"] (Literal "A" 0 0) [")"]).
    + vm_compute. reflexivity.
    + vm_compute. reflexivity.
    + discriminate.
  - apply (Hleft2 1%nat "A)" ["A"; ")"] (Literal "A" 0 0) [")"]).
    + vm_compute. reflexivity.
    + vm_compute. reflexivity.
    + discriminate.
  - apply (Hunclosed "(A [B]" "(" ")" ["A"; "["; "B"; "]"]).
    + by left.
    + vm_compute. reflexivity.
    + intros Hin. repeat (apply elem_of_cons in Hin as [Hin|Hin]; [discriminate|]).
      by apply elem_of_nil in Hin.
Defined.

(** ** No result is a [Timeout] where the loops are bounded *)

Lemma for_of_no_timeout {A S} (body : S → A → result S) l s :
  (∀ s x, body s x ≠ Timeout) → for_of body l s ≠ Timeout.
Proof.
  intros Hbody. revert s. induction l as [|x l IH]; intros s; simpl; [done|].
  pose proof (Hbody s x) as Hx. destruct (body s x); simpl; [apply IH|done..].
Qed.

Lemma eval_no_timeout cells signals clause : eval cells signals clause ≠ Timeout.
Proof.
  induction clause as [|sub IH|l IH|l IH|s p t] using Clause_ind'; simpl.
  - done.
  - by destruct (eval cells signals sub).
  - induction IH as [|x l Hx _ IHl]; [done|].
    destruct (eval cells signals x) as [[]| |]; simpl; done.
  - induction IH as [|x l Hx _ IHl]; [done|].
    destruct (eval cells signals x) as [[]| |]; simpl; done.
  - by destruct (signals !! p).
Qed.

Lemma write_output_no_timeout nbCells t c d output :
  write_output nbCells t c d output ≠ Timeout.
Proof.
  unfold write_output. destruct (_ && _); [|done].
  destruct (lookupZ d _) as [config|]; [|done]. by destruct (lookupZ config _).
Qed.

(** [makeDiagram] returns or throws. *)
Lemma makeDiagram_no_timeout a initial n : makeDiagram a initial n ≠ Timeout.
Proof.
  apply for_of_no_timeout. intros d t. apply for_of_no_timeout. intros d' c.
  unfold run_cell. destruct (d' !! t); [|done].
  apply for_of_no_timeout. intros d'' rule. unfold run_rule.
  pose proof (eval_no_timeout (default [] (d'' !! t))
                (getNeighborhood l c (minNeighbor a) (maxNeighbor a)) (condition rule)).
  destruct (eval _ _ _) as [[]| |]; simpl; try done.
  apply for_of_no_timeout. intros. apply write_output_no_timeout.
Qed.

Lemma constructor_no_timeout parseCondition parseOutputs rulesString :
  (∀ s, parseCondition s ≠ Timeout) →
  (∀ depth s, parseOutputs depth s ≠ Timeout) →
  constructor parseCondition parseOutputs rulesString ≠ Timeout.
Proof.
  intros Hcondition Houtputs. unfold constructor.
  assert (Hlines : ∀ l st,
            for_of (parse_line parseCondition parseOutputs) l st ≠ Timeout).
  { intros l st. apply for_of_no_timeout. clear st. intros st line. unfold parse_line.
    case_decide; [done|].
    destruct (if includes ":" _ then _ else _) as [conditionString outputsString].
    generalize (drop_while
                  (λ e, bool_decide
                          (search (RAlt (RClass (λ c, negb (is_space c))) REnd) line
                           ≤ e.(entry_indent))%nat)
                  st.(conditionsStack)).
    intros stack.
    assert (Hfirst : ∀ r : result (Clause * list StackEntry), r ≠ Timeout →
              r ≫= (λ '(condition, conditionsStack),
                     if decide (outputsString = "") then
                       Ok {| parsed_rules := st.(parsed_rules);
                             parsed_maxFutureDepth := st.(parsed_maxFutureDepth);
                             conditionsStack := conditionsStack |}
                     else
                       parseOutputs st.(parsed_maxFutureDepth) outputsString
                       ≫= λ '(outputs, maxFutureDepth),
                         Ok {| parsed_rules :=
                                 st.(parsed_rules)
                                 ++ [{| condition := condition; outputs := outputs |}];
                               parsed_maxFutureDepth := maxFutureDepth;
                               conditionsStack := conditionsStack |})
              ≠ Timeout).
    { intros [[condition stack']| |] Hr; simpl; [|done..].
      case_decide; [done|].
      pose proof (Houtputs st.(parsed_maxFutureDepth) outputsString) as Ho.
      by destruct (parseOutputs _ _) as [[]| |]. }
    apply Hfirst. destruct conditionString as [conditionString|].
    - destruct (decide (conditionString = "")); [by destruct stack|].
      pose proof (Hcondition conditionString) as Hc.
      by destruct (parseCondition conditionString).
    - by destruct stack. }
  pose proof (Hlines (split "010" rulesString)
                {| parsed_rules := []; parsed_maxFutureDepth := 1;
                   conditionsStack := [] |}) as H.
  by destruct (for_of _ _ _).
Qed.

(** The constructor of the revision with sign tokens returns or throws. *)
Lemma SignToken_new_Automaton_no_timeout rulesString :
  SignToken.new_Automaton rulesString ≠ Timeout.
Proof.
  apply constructor_no_timeout.
  - intros s. unfold SignToken.parseCondition.
    destruct (match_all _ s) as [tokens|]; [|done].
    pose proof (SignToken_readConditionTokens_total tokens) as H.
    destruct (SignToken.readConditionTokens tokens) as [[c rest]| |]; simpl; [|done..].
    by case_decide.
  - intros depth s. unfold SignToken.parseOutputs. by destruct (match_all _ s).
Qed.

(** ** The negations the revision with signed items builds *)

Lemma new_Conjunction_negations subclauses :
  forallb negations_on_leaves subclauses = true →
  negations_on_leaves (new_Conjunction subclauses) = true.
Proof.
  rewrite new_Conjunction_spliced. simpl.
  induction subclauses as [|c l IH]; [done|]. simpl.
  intros [Hc Hl]%andb_prop. rewrite forallb_app, IH, andb_true_r by done.
  destruct c as [| [] | | |]; simpl in *; try done. by rewrite Hc.
Qed.

Lemma Disjunction_loop_negations fuel own seen todo l :
  forallb negations_on_leaves todo = true →
  forallb negations_on_leaves seen = true →
  forallb negations_on_leaves (default [] own) = true →
  Disjunction_loop fuel own seen todo = Some l →
  forallb negations_on_leaves l = true.
Proof.
  revert own seen todo. induction fuel as [|fuel IH]; intros own seen todo Htodo Hseen Hown.
  - destruct todo; [|discriminate]. simpl. intros [= <-]. by destruct own.
  - destruct todo as [|c todo]; [simpl; intros [= <-]; by destruct own|].
    simpl in Htodo. apply andb_prop in Htodo as [Hc Htodo].
    assert (Hseen' : forallb negations_on_leaves (seen ++ [c]) = true).
    { rewrite forallb_app, Hseen. simpl. by rewrite Hc. }
    destruct c as [|sub|subs|subs|s p t]; cbn [Disjunction_loop];
      try (by apply IH).
    destruct own as [o|]; apply IH; try done.
    + simpl in *. by rewrite forallb_app, Hown.
    + simpl in Hc. by rewrite forallb_app, Htodo.
Qed.

Lemma new_Disjunction_negations subclauses :
  forallb negations_on_leaves subclauses = true →
  negations_on_leaves (new_Disjunction subclauses) = true.
Proof.
  intros H. destruct (new_Disjunction_returns subclauses) as (l & Hl & ->).
  cbn [negations_on_leaves].
  by apply (Disjunction_loop_negations (clauses_size subclauses) (Some []) []
              subclauses l).
Qed.

Lemma read_group_negations read guard close n subclauses tokens subclauses' rest :
  (∀ ts c ts', read ts = Ok (c, ts') → negations_on_leaves c = true) →
  forallb negations_on_leaves subclauses = true →
  read_group read guard close n subclauses tokens = Ok (subclauses', rest) →
  forallb negations_on_leaves subclauses' = true.
Proof.
  intros Hread. revert subclauses tokens.
  induction n as [|n IH]; intros subclauses tokens Hsubs.
  - destruct tokens as [|first tokens], guard; simpl; try discriminate;
      case_decide; try discriminate; by intros [= <- <-].
  - assert (Hturn : ∀ ts,
              (read ts ≫= λ '(subclause, tokens'),
                 read_group read guard close n (subclauses ++ [subclause]) tokens')
              = Ok (subclauses', rest) →
              forallb negations_on_leaves subclauses' = true).
    { intros ts ([c ts'] & Hc & Hgo)%bind_Ok_inv. apply (IH _ _) in Hgo; [done|].
      rewrite forallb_app, Hsubs. simpl. by rewrite (Hread _ _ _ Hc). }
    destruct tokens as [|first tokens], guard; cbn [read_group]; try discriminate;
      try case_decide; try (by intros [= <- <-]); apply Hturn.
Qed.

(** X17: the revision with signed items builds a Negation over the literal
    of a signed item and over the empty clause of an empty group, and over
    nothing else: never over a clause that is itself a Negation. *)
Lemma SignedItem_negations_on_leaves fuel tokens c rest :
  SignedItem.readConditionTokens fuel tokens = Ok (c, rest) →
  negations_on_leaves c = true.
Proof.
  revert tokens c rest. induction fuel as [|fuel IH]; intros tokens c rest; [discriminate|].
  destruct tokens as [|token tokens]; [by intros [= <- <-]|].
  cbn [SignedItem.readConditionTokens]. repeat case_decide.
  - intros ([subs ts] & Hgroup & Hc)%bind_Ok_inv.
    apply read_group_negations in Hgroup; [|exact IH|done].
    destruct subs as [|c1 [|c2 subs]]; injection Hc as <- <-; [done|..].
    + simpl in Hgroup. by rewrite andb_true_r in Hgroup.
    + by apply new_Disjunction_negations.
  - intros ([subs ts] & Hgroup & Hc)%bind_Ok_inv.
    apply read_group_negations in Hgroup; [|exact IH|done].
    destruct subs as [|c1 [|c2 subs]]; injection Hc as <- <-; [done|..].
    + simpl in Hgroup. by rewrite andb_true_r in Hgroup.
    + by apply new_Conjunction_negations.
  - destruct (exec SignedItem.conditionItemRE token) as [item|]; [|discriminate].
    case_decide; by intros [= <- <-].
Qed.

(** ** The window of a parsed automaton *)

(** Whatever the text and the revision of the parser, the constructor
    leaves both ends of the window at 0. *)
Lemma constructor_window parseCondition parseOutputs rulesString a :
  constructor parseCondition parseOutputs rulesString = Ok a →
  minNeighbor a = 0 ∧ maxNeighbor a = 0.
Proof.
  unfold constructor. intros (st & _ & Ha)%bind_Ok_inv.
  injection Ha as <-. done.
Qed.

(** The window [makeDiagram] takes the neighborhoods over is the one of the
    fields of the automaton. *)
Lemma run_cell_window a nbCells t d c config :
  d !! t = Some config →
  run_cell a nbCells t d c
  = for_of (run_rule nbCells t c
              (getNeighborhood config c (minNeighbor a) (maxNeighbor a)))
           (rules a) d.
Proof. intros Hd. unfold run_cell. by rewrite Hd. Qed.

(** An output of a rule at cell 0 that aims at the cell on its left is
    dropped (scenario D). *)
Lemma write_output_left_of_cell_0 nbCells t d sig step :
  write_output nbCells t 0 d {| neighbor := -1; signal := sig; futureStep := step |}
  = Ok d.
Proof. apply write_output_dropped. left. simpl. lia. Qed.

(** C2: the code breaks the claim. The constructor sets [minNeighbor] and
    [maxNeighbor] to 0 and nothing updates them ([constructor_window]),
    while the literals and the outputs it parses have offsets on either
    side of 0: the overall minimum and maximum of the claim are not the
    fields. [makeDiagram] does take its windows over the fields
    ([run_cell_window]), so that the literal of [1.A: B], which the parser
    accepts, is evaluated on a window without the offset 1, and throws. *)
Theorem window_not_derived_from_rules :
  (∀ fuel, SignedItem.new_Automaton (S fuel) "1.A: B"
           = Ok (automaton_of [rule_of (Literal "A" 1 0) "B" 0 1] 0 0))
  ∧ max_offset [rule_of (Literal "A" 1 0) "B" 0 1] = 1
  ∧ maxNeighbor (automaton_of [rule_of (Literal "A" 1 0) "B" 0 1] 0 0) = 0
  ∧ makeDiagram (automaton_of [rule_of (Literal "A" 1 0) "B" 0 1] 0 0) [["Init"]; []] 1
    = Throw TypeError
  ∧ SignToken.new_Automaton "A: -1.B"
    = Ok (automaton_of [rule_of (Literal "A" 0 0) "B" (-1) 1] 0 0)
  ∧ min_offset [rule_of (Literal "A" 0 0) "B" (-1) 1] = -1
  ∧ minNeighbor (automaton_of [rule_of (Literal "A" 0 0) "B" (-1) 1] 0 0) = 0.
Proof.
  split; [intros fuel; vm_compute; reflexivity|].
  repeat split; vm_compute; reflexivity.
Qed.

(** * More of the code: neighborhoods, constructors, signals, texts *)

(** ** The neighborhood of a cell *)



(** ** [makeDiagram] on a strip without cells *)

(** X2: on a configuration of zero cells [makeDiagram] evaluates no rule,
    whatever the automaton, and returns [nbSteps + 1] configurations of
    zero cells. *)
Theorem makeDiagram_no_cell (a : Automaton) (nbSteps : nat) :
  makeDiagram a [] nbSteps = Ok (replicate (S nbSteps) []).
Proof.
  unfold makeDiagram, getSize. simpl length.
  change ([] :: replicate nbSteps (new_Configuration 0))
    with (replicate (S nbSteps) ([] : Configuration)).
  generalize (replicate (S nbSteps) ([] : Configuration)). intros d.
  induction (seq 0 nbSteps) as [|t ts IH]; [done|]. simpl. exact IH.
Qed.

(** ** The exceptions of [parseCondition] *)

(** X3: in the revision where a sign is a token, [parseCondition] throws
    nothing but a RuleParsingException, with the message of an invalid
    condition or of unbalanced parentheses: no condition text makes it
    throw a TypeError, and none makes it loop. *)
Theorem SignToken_parseCondition_throws (conditionString : string) :
  match SignToken.parseCondition conditionString with
  | Ok _ => True
  | Throw e =>
      e = RuleParsingException "Invalid condition" ∨ e = SignToken.unbalanced
  | Timeout => False
  end.
Proof.
  unfold SignToken.parseCondition.
  destruct (match_all _ conditionString) as [tokens|]; [|by left].
  destruct tokens as [|token tokens]; [simpl; done|].
  pose proof (SignToken_read_fuel_well (S (length (token :: tokens))) (token :: tokens))
    as Hread.
  unfold SignToken.readConditionTokens.
  destruct (SignToken.readConditionTokens_fuel _ _) as [[c rest]|e|]; simpl.
  - case_decide; [by left|done].
  - right. apply Hread; [done|lia].
  - apply Hread; [done|lia].
Qed.

(** ** What the constructors do to the evaluation *)

Lemma bind_bool_id (r : result bool) :
  (r ≫= λ b : bool, if b then Ok true else Ok false) = r.
Proof. by destruct r as [[]| |]. Qed.

Lemma eval_Conjunction_cons cells signals c l :
  eval cells signals (Conjunction (c :: l))
  = eval cells signals c
    ≫= λ b : bool, if b then eval cells signals (Conjunction l) else Ok false.
Proof. reflexivity. Qed.

Lemma eval_Conjunction_app cells signals l1 l2 :
  eval cells signals (Conjunction (l1 ++ l2))
  = eval cells signals (Conjunction l1)
    ≫= λ b : bool, if b then eval cells signals (Conjunction l2) else Ok false.
Proof.
  induction l1 as [|c l1 IH]; [done|].
  rewrite <-app_comm_cons, !eval_Conjunction_cons, IH.
  by destruct (eval cells signals c) as [[]| |].
Qed.

Lemma eval_Disjunction_cons cells signals c l :
  eval cells signals (Disjunction (c :: l))
  = eval cells signals c
    ≫= λ b : bool, if b then Ok true else eval cells signals (Disjunction l).
Proof. reflexivity. Qed.

Lemma eval_Disjunction_app cells signals l1 l2 :
  eval cells signals (Disjunction (l1 ++ l2))
  = eval cells signals (Disjunction l1)
    ≫= λ b : bool, if b then Ok true else eval cells signals (Disjunction l2).
Proof.
  induction l1 as [|c l1 IH]; [done|].
  rewrite <-app_comm_cons, !eval_Disjunction_cons, IH.
  by destruct (eval cells signals c) as [[]| |].
Qed.

(** A Disjunction answers false when, and only when, every subclause
    does. *)
Lemma eval_Disjunction_false cells signals l :
  eval cells signals (Disjunction l) = Ok false
  ↔ Forall (λ c, eval cells signals c = Ok false) l.
Proof.
  induction l as [|c l IH]; [by split|].
  rewrite eval_Disjunction_cons, Forall_cons, <-IH.
  destruct (eval cells signals c) as [[]| |]; simpl;
    (split; [try discriminate; by intros | intros [Hc Hl]; try discriminate; done]).
Qed.

Lemma eval_Conjunction_single cells signals c :
  eval cells signals (Conjunction [c]) = eval cells signals c.
Proof. rewrite eval_Conjunction_cons. by destruct (eval cells signals c) as [[]| |]. Qed.

Lemma eval_Disjunction_single cells signals c :
  eval cells signals (Disjunction [c]) = eval cells signals c.
Proof. rewrite eval_Disjunction_cons. by destruct (eval cells signals c) as [[]| |]. Qed.

(** X4: the Conjunction that [new Conjunction] builds evaluates as the
    conjunction of the subclauses it was given, in their order: splicing
    the subclauses of a child changes neither the answer nor the
    exception. *)
Theorem new_Conjunction_eval (cells : Configuration) (signals : Neighborhood)
    (subclauses : list Clause) :
  eval cells signals (new_Conjunction subclauses)
  = eval cells signals (Conjunction subclauses).
Proof.
  rewrite new_Conjunction_spliced.
  induction subclauses as [|c l IH]; [done|].
  cbn [flat_map]. rewrite eval_Conjunction_app, IH, eval_Conjunction_cons.
  f_equal. destruct c; cbn [splice_Conjunction]; try apply eval_Conjunction_single.
  reflexivity.
Qed.

Section Disjunction_eval.
Variable cells : Configuration.
Variable signals : Neighborhood.

(** Once [this.subclauses] is the argument array, the loop ends with that
    array: what it held, then what was pushed, and every pushed clause is a
    subclause of a Disjunction that comes before it in the array. When the
    clauses still to visit all answer false, so do the pushed ones. *)
Lemma Disjunction_loop_aliased fuel seen todo l :
  Disjunction_loop fuel None seen todo = Some l →
  ∃ pushed, l = seen ++ todo ++ pushed
            ∧ (Forall (λ c, eval cells signals c = Ok false) todo →
               Forall (λ c, eval cells signals c = Ok false) pushed).
Proof.
  revert seen todo. induction fuel as [|fuel IH]; intros seen todo.
  - destruct todo; [|discriminate]. intros [= <-]. exists []. by rewrite !app_nil_r.
  - destruct todo as [|c todo].
    { intros [= <-]. exists []. by rewrite !app_nil_r. }
    assert (Hplain : Disjunction_loop fuel None (seen ++ [c]) todo = Some l →
              ∃ pushed, l = seen ++ (c :: todo) ++ pushed
                ∧ (Forall (λ c, eval cells signals c = Ok false) (c :: todo) →
                   Forall (λ c, eval cells signals c = Ok false) pushed)).
    { intros (pushed & -> & Hq)%IH. exists pushed. split.
      - by rewrite <-!app_assoc.
      - intros [_ Htodo]%Forall_cons. by apply Hq. }
    destruct c as [|sub|subs|subs|s p t]; cbn [Disjunction_loop]; try exact Hplain.
    intros (pushed & -> & Hq)%IH. exists (subs ++ pushed). split.
    + by rewrite <-!app_assoc.
    + intros [Hc Htodo]%Forall_cons. apply eval_Disjunction_false in Hc.
      apply Forall_app. split; [done|]. apply Hq, Forall_app. done.
Qed.

(** While [this.subclauses] is the array of the constructor, it holds the
    subclauses of the Disjunctions visited, and evaluates as they do. *)
Lemma Disjunction_loop_own fuel own seen todo l :
  eval cells signals (Disjunction own) = eval cells signals (Disjunction seen) →
  Disjunction_loop fuel (Some own) seen todo = Some l →
  eval cells signals (Disjunction l) = eval cells signals (Disjunction (seen ++ todo)).
Proof.
  revert own seen todo. induction fuel as [|fuel IH]; intros own seen todo Hown.
  - destruct todo; [|discriminate]. intros [= <-]. by rewrite app_nil_r.
  - destruct todo as [|c todo].
    { intros [= <-]. by rewrite app_nil_r. }
    assert (Hplain : Disjunction_loop fuel None (seen ++ [c]) todo = Some l →
              eval cells signals (Disjunction l)
              = eval cells signals (Disjunction (seen ++ c :: todo))).
    { intros (pushed & -> & Hq)%Disjunction_loop_aliased.
      replace ((seen ++ [c]) ++ todo ++ pushed) with ((seen ++ c :: todo) ++ pushed)
        by (by rewrite <-!app_assoc).
      rewrite (eval_Disjunction_app _ _ (seen ++ c :: todo) pushed).
      destruct (eval cells signals (Disjunction (seen ++ c :: todo)))
        as [[]| |] eqn:Hall; simpl; try done.
      apply eval_Disjunction_false. apply Hq.
      apply eval_Disjunction_false in Hall.
      apply Forall_app in Hall as [_ Hall]. by apply Forall_cons in Hall as [_ ?]. }
    destruct c as [|sub|subs|subs|s p t]; cbn [Disjunction_loop]; try exact Hplain.
    intros Hl%IH.
    + rewrite Hl. by rewrite <-app_assoc.
    + rewrite !eval_Disjunction_app, Hown, eval_Disjunction_single. done.
Qed.
End Disjunction_eval.

(** X5: the Disjunction that [new Disjunction] builds evaluates as the
    disjunction of the subclauses it was given, in their order. The
    constructor does not always flatten (it may keep a nested Disjunction
    and push its subclauses after it, or keep the array as it came), but
    whatever it pushes comes after a Disjunction that has answered for it:
    the answer and the exception are those of the given subclauses. *)
Theorem new_Disjunction_eval (cells : Configuration) (signals : Neighborhood)
    (subclauses : list Clause) :
  eval cells signals (new_Disjunction subclauses)
  = eval cells signals (Disjunction subclauses).
Proof.
  destruct (new_Disjunction_returns subclauses) as (l & Hl & ->).
  by apply (Disjunction_loop_own cells signals _ [] [] subclauses l) in Hl.
Qed.

(** ** When [new Disjunction] flattens *)

Lemma Disjunction_loop_plain fuel seen todo l :
  Forall (λ c, is_Disjunction c = false) todo →
  Disjunction_loop fuel None seen todo = Some l → l = seen ++ todo.
Proof.
  revert seen todo. induction fuel as [|fuel IH]; intros seen todo Hplain.
  - destruct todo; [|discriminate]. intros [= <-]. by rewrite app_nil_r.
  - destruct todo as [|c todo]; [intros [= <-]; by rewrite app_nil_r|].
    apply Forall_cons in Hplain as [Hc Hplain].
    destruct c; try discriminate; cbn [Disjunction_loop];
      intros ->%IH; try done; by rewrite <-app_assoc.
Qed.

Lemma Disjunction_loop_nested fuel own seen todo l :
  Forall (λ c, is_Disjunction c = true) todo →
  Disjunction_loop fuel (Some own) seen todo = Some l →
  l = own ++ flat_map splice_Disjunction todo.
Proof.
  revert own seen todo. induction fuel as [|fuel IH]; intros own seen todo Hnested.
  - destruct todo; [|discriminate]. intros [= <-]. by rewrite app_nil_r.
  - destruct todo as [|c todo]; [intros [= <-]; by rewrite app_nil_r|].
    apply Forall_cons in Hnested as [Hc Hnested].
    destruct c; try discriminate. cbn [Disjunction_loop].
    intros ->%IH; [|done]. simpl. by rewrite <-app_assoc.
Qed.

(** X6: [new Disjunction] keeps the subclauses as they are given when none
    of them is a Disjunction, and when all of them are Disjunctions it
    holds their subclauses, in order, in place of them. *)
Theorem new_Disjunction_flattens (subclauses : list Clause) :
  (Forall (λ c, is_Disjunction c = false) subclauses →
   new_Disjunction subclauses = Disjunction subclauses)
  ∧ (Forall (λ c, is_Disjunction c = true) subclauses →
     new_Disjunction subclauses
     = Disjunction (flat_map splice_Disjunction subclauses)).
Proof.
  destruct (new_Disjunction_returns subclauses) as (l & Hl & ->). split.
  - intros Hplain. f_equal.
    destruct subclauses as [|c rest].
    { destruct (clauses_size []); by injection Hl as <-. }
    apply Forall_cons in Hplain as [Hc Hplain].
    destruct (clauses_size (c :: rest)) as [|fuel]; [discriminate|].
    destruct c; try discriminate; cbn [Disjunction_loop] in Hl;
      by apply Disjunction_loop_plain in Hl.
  - intros Hnested. f_equal.
    by apply Disjunction_loop_nested in Hl.
Qed.

Lemma new_Disjunction_flattens_witness :
  new_Disjunction [Literal "A" 0 0; Negation (Literal "B" 0 0)]
  = Disjunction [Literal "A" 0 0; Negation (Literal "B" 0 0)]
  ∧ new_Disjunction [Disjunction [Literal "A" 0 0]; Disjunction [Literal "B" 0 0]]
    = Disjunction (flat_map splice_Disjunction
                     [Disjunction [Literal "A" 0 0]; Disjunction [Literal "B" 0 0]]).
Proof.
  split.
  - apply (proj1 (new_Disjunction_flattens
                    [Literal "A" 0 0; Negation (Literal "B" 0 0)])).
    repeat constructor.
  - apply (proj2 (new_Disjunction_flattens
                    [Disjunction [Literal "A" 0 0]; Disjunction [Literal "B" 0 0]])).
    repeat constructor.
Defined.

(** ** The signals of a clause and of an automaton *)

Lemma NoDup_Set_add s x : NoDup s → NoDup (Set_add s x).
Proof.
  intros Hs. unfold Set_add. destruct (Set_has s x) eqn:Hx; [done|].
  apply NoDup_app. split; [done|]. split; [|apply NoDup_singleton].
  intros y Hy ->%list_elem_of_singleton.
  apply Set_has_true in Hy. congruence.
Qed.

Lemma add_all_spec signals set :
  (NoDup signals → NoDup (add_all signals set))
  ∧ ∀ x, x ∈ add_all signals set ↔ x ∈ signals ∨ x ∈ set.
Proof.
  unfold add_all. revert signals. induction set as [|y set IH]; intros signals; simpl.
  - split; [done|]. intros x. rewrite elem_of_nil. tauto.
  - destruct (IH (Set_add signals y)) as [Hnodup Hin]. split.
    + intros Hs. by apply Hnodup, NoDup_Set_add.
    + intros x. rewrite Hin, elem_of_Set_add, elem_of_cons. tauto.
Qed.

(** The loop of [getSignals] over the subclauses of a group. *)
Lemma getSignals_loop l acc :
  (NoDup acc →
   NoDup (foldl (λ signals sub, add_all signals (getSignals sub)) acc l))
  ∧ ∀ x, x ∈ foldl (λ signals sub, add_all signals (getSignals sub)) acc l
         ↔ x ∈ acc ∨ ∃ sub, sub ∈ l ∧ x ∈ getSignals sub.
Proof.
  revert acc. induction l as [|c l IH]; intros acc; simpl.
  - split; [done|]. intros x. split; [by left|].
    intros [?|(sub & Hsub%elem_of_nil & _)]; done.
  - destruct (IH (add_all acc (getSignals c))) as [Hnodup Hin].
    destruct (add_all_spec acc (getSignals c)) as [Hnodup' Hin']. split.
    + intros Hacc. by apply Hnodup, Hnodup'.
    + intros x. rewrite Hin, Hin'. split.
      * intros [[?|?]|(sub & Hsub & Hx)]; [by left|right..].
        -- exists c. split; [by left|done].
        -- exists sub. split; [by right|done].
      * intros [?|(sub & [->|Hsub]%elem_of_cons & Hx)]; [by left; left|by left; right|].
        right. by exists sub.
Qed.

Lemma elem_of_flat_map {A B} (f : A → list B) (l : list A) (x : B) :
  x ∈ flat_map f l ↔ ∃ y, y ∈ l ∧ x ∈ f y.
Proof.
  rewrite list_elem_of_In, in_flat_map. split.
  - intros (y & Hy & Hx). exists y. by rewrite !list_elem_of_In.
  - intros (y & Hy & Hx). exists y. by rewrite <-!list_elem_of_In.
Qed.

Lemma getSignals_spec (c : Clause) :
  NoDup (getSignals c) ∧ ∀ x, x ∈ getSignals c ↔ x ∈ literal_signals c.
Proof.
  assert (Hgroup : ∀ l,
            Forall (λ c, NoDup (getSignals c)
                         ∧ ∀ x, x ∈ getSignals c ↔ x ∈ literal_signals c) l →
            NoDup (foldl (λ signals sub, add_all signals (getSignals sub)) [] l)
            ∧ ∀ x, x ∈ foldl (λ signals sub, add_all signals (getSignals sub)) [] l
                   ↔ x ∈ flat_map literal_signals l).
  { intros l IH. destruct (getSignals_loop l []) as [Hnodup Hin].
    split; [apply Hnodup; constructor|].
    intros x. rewrite Hin, elem_of_flat_map. rewrite Forall_forall in IH. split.
    - intros [[]%elem_of_nil|(sub & Hsub & Hx)]. exists sub.
      split; [done|]. by apply (IH sub Hsub).
    - intros (sub & Hsub & Hx). right. exists sub.
      split; [done|]. by apply (IH sub Hsub). }
  induction c as [|sub IH|l IH|l IH|s p t] using Clause_ind'; simpl.
  - split; [constructor|done].
  - exact IH.
  - by apply Hgroup.
  - by apply Hgroup.
  - split; [apply NoDup_singleton|done].
Qed.

(** X7: [getSignals] of a clause holds each signal once, and holds the
    signals of the literals of the clause and no other: the signals under
    negations and inside nested groups count, positions and time steps do
    not. *)
Theorem getSignals_are_the_literals (c : Clause) :
  NoDup (getSignals c) ∧ ∀ x, x ∈ getSignals c ↔ x ∈ literal_signals c.
Proof. apply getSignals_spec. Qed.

Lemma getOutputSignals_spec rule :
  NoDup (getOutputSignals rule)
  ∧ ∀ x, x ∈ getOutputSignals rule ↔ x ∈ signal <$> outputs rule.
Proof.
  unfold getOutputSignals.
  assert (H : ∀ l acc,
            (NoDup acc → NoDup (foldl (λ signals o, Set_add signals (signal o)) acc l))
            ∧ ∀ x, x ∈ foldl (λ signals o, Set_add signals (signal o)) acc l
                   ↔ x ∈ acc ∨ x ∈ signal <$> l).
  { induction l as [|o l IH]; intros acc; simpl.
    - split; [done|]. intros x. rewrite elem_of_nil. tauto.
    - destruct (IH (Set_add acc (signal o))) as [Hnodup Hin]. split.
      + intros Hacc. by apply Hnodup, NoDup_Set_add.
      + intros x. rewrite Hin, elem_of_Set_add, elem_of_cons. tauto. }
  destruct (H (outputs rule) []) as [Hnodup Hin]. split; [apply Hnodup; constructor|].
  intros x. rewrite Hin, elem_of_nil. tauto.
Qed.

Lemma Automaton_getSignals_elem (a : Automaton) :
  NoDup (Automaton_getSignals a)
  ∧ ∀ x, x ∈ Automaton_getSignals a
         ↔ ∃ rule, rule ∈ rules a
                   ∧ (x ∈ literal_signals (condition rule)
                      ∨ x ∈ signal <$> outputs rule).
Proof.
  unfold Automaton_getSignals.
  assert (H : ∀ l acc,
            (NoDup acc →
             NoDup (foldl (λ signals rule,
                             add_all (add_all signals (getConditionSignals rule))
                                     (getOutputSignals rule)) acc l))
            ∧ ∀ x, x ∈ foldl (λ signals rule,
                                add_all (add_all signals (getConditionSignals rule))
                                        (getOutputSignals rule)) acc l
                   ↔ x ∈ acc ∨ ∃ rule, rule ∈ l
                                 ∧ (x ∈ literal_signals (condition rule)
                                    ∨ x ∈ signal <$> outputs rule)).
  { induction l as [|rule l IH]; intros acc; simpl.
    - split; [done|]. intros x. split; [by left|].
      intros [?|(rule & Hrule%elem_of_nil & _)]; done.
    - destruct (IH (add_all (add_all acc (getConditionSignals rule))
                            (getOutputSignals rule))) as [Hnodup Hin].
      destruct (add_all_spec (add_all acc (getConditionSignals rule))
                  (getOutputSignals rule)) as [Hnodup2 Hin2].
      destruct (add_all_spec acc (getConditionSignals rule)) as [Hnodup1 Hin1].
      split; [intros Hacc; by apply Hnodup, Hnodup2, Hnodup1|].
      intros x. rewrite Hin, Hin2, Hin1. unfold getConditionSignals.
      rewrite (proj2 (getSignals_spec (condition rule)) x).
      rewrite (proj2 (getOutputSignals_spec rule) x). split.
      + intros [[[?|?]|?]|(r & Hr & Hx)]; [by left|right..].
        * exists rule. split; [by left|by left].
        * exists rule. split; [by left|by right].
        * exists r. split; [by right|done].
      + intros [?|(r & [->|Hr]%elem_of_cons & Hx)]; [by left; left; left| |].
        * left. destruct Hx; [left; by right|by right].
        * right. by exists r. }
  destruct (H (rules a) []) as [Hnodup Hin]. split; [apply Hnodup; constructor|].
  intros x. rewrite Hin, elem_of_nil. tauto.
Qed.

(** X8: [getSignals] of an automaton holds each signal once, and a signal
    is in it exactly when a literal of the condition of some rule is on it
    or an output of some rule writes it. *)
Theorem Automaton_getSignals_spec (a : Automaton) :
  NoDup (Automaton_getSignals a)
  ∧ ∀ x, x ∈ Automaton_getSignals a
         ↔ ∃ rule, rule ∈ rules a
                   ∧ (x ∈ literal_signals (condition rule)
                      ∨ x ∈ signal <$> outputs rule).
Proof. apply Automaton_getSignals_elem. Qed.

(** ** Where the signals of a diagram come from *)

Lemma writes_only_refl new d : writes_only new d d.
Proof. intros t config c cell x Hd Hc Hx. right. by exists config, cell. Qed.

Lemma writes_only_trans new d1 d2 d3 :
  writes_only new d1 d2 → writes_only new d2 d3 → writes_only new d1 d3.
Proof.
  intros H12 H23 t config3 c cell3 x Hd Hc Hx.
  destruct (H23 _ _ _ _ _ Hd Hc Hx) as [?|(config2 & cell2 & Hd2 & Hc2 & Hx2)];
    [by left|].
  by apply (H12 _ _ _ _ _ Hd2 Hc2 Hx2).
Qed.

Lemma writes_only_weaken (new new' : Signal → Prop) d d' :
  (∀ x, new x → new' x) → writes_only new d d' → writes_only new' d d'.
Proof.
  intros Hnew H t config c cell x Hd Hc Hx.
  destruct (H _ _ _ _ _ Hd Hc Hx) as [?|?]; [left; by apply Hnew|by right].
Qed.

Lemma for_of_writes_only {A} new (body : Diagram → A → result Diagram) l d d' :
  (∀ s x s', x ∈ l → body s x = Ok s' → writes_only new s s') →
  for_of body l d = Ok d' → writes_only new d d'.
Proof.
  intros Hbody Hrun.
  apply (for_of_invariant (λ s, writes_only new d s) body l) with (s := d);
    [|apply writes_only_refl|done].
  intros s x s' Hx Hs Hs'. eapply writes_only_trans; [exact Hs|]. by eapply Hbody.
Qed.

(** An output adds its own signal, to one cell, and nothing else. *)
Lemma write_output_writes_only nbCells t c d output d' :
  write_output nbCells t c d output = Ok d' →
  writes_only (λ x, x = signal output) d d'.
Proof.
  unfold write_output. destruct (_ && _); [|intros [= <-]; apply writes_only_refl].
  destruct (lookupZ d _) as [config|] eqn:Hd; [|discriminate].
  destruct (lookupZ config _) as [cell|] eqn:Hc; [|discriminate].
  apply lookupZ_Some in Hd as [_ Hd]. apply lookupZ_Some in Hc as [_ Hc].
  intros [= <-] t' config' c' cell' x Hd' Hc' Hx.
  apply list_lookup_insert_Some in Hd' as [(Ht & Hconfig & _)|[Hne Hd']];
    [subst t' config'|right; by exists config', cell'].
  apply list_lookup_insert_Some in Hc' as [(Hcell & Hcell' & _)|[Hne Hc']];
    [subst c' cell'|right; by exists config, cell'].
  apply elem_of_Set_add in Hx as [Hx| ->]; [right; by exists config, cell|by left].
Qed.

Lemma run_rule_writes_only nbCells t c neighborhood d rule d' :
  run_rule nbCells t c neighborhood d rule = Ok d' →
  writes_only (λ x, x ∈ signal <$> outputs rule) d d'.
Proof.
  unfold run_rule. intros (fires & _ & Hrun)%bind_Ok_inv.
  destruct fires; [|injection Hrun as <-; apply writes_only_refl].
  revert Hrun. apply for_of_writes_only. intros s o s' Ho Hs.
  eapply writes_only_weaken; [|by eapply write_output_writes_only].
  intros x ->. by apply list_elem_of_fmap_2.
Qed.

Lemma makeDiagram_writes_only a initial n d :
  makeDiagram a initial n = Ok d →
  writes_only (λ x, x ∈ output_signals (rules a))
    (initial :: replicate n (new_Configuration (length initial))) d.
Proof.
  unfold makeDiagram, getSize. apply for_of_writes_only. intros s1 t s1' _.
  apply for_of_writes_only. intros s2 c s2' _. unfold run_cell.
  destruct (s2 !! t) as [config|]; [|discriminate].
  apply for_of_writes_only. intros s3 rule s3' Hrule Hrun.
  eapply writes_only_weaken; [|by eapply run_rule_writes_only].
  intros x Hx. apply elem_of_flat_map. by exists rule.
Qed.

(** X9: every signal in the diagram that [makeDiagram] returns is written
    by an output of some rule, and so is in [getSignals()] of the
    automaton, unless it was in the same cell of the initial configuration,
    at time 0: no rule invents a signal. *)
Theorem makeDiagram_signals_come_from (a : Automaton) (initial : Configuration)
    (nbSteps : nat) (d : Diagram) (t c : nat) (config : Configuration)
    (cell : SignalSet) (x : Signal) :
  makeDiagram a initial nbSteps = Ok d →
  d !! t = Some config → config !! c = Some cell → x ∈ cell →
  (x ∈ output_signals (rules a) ∧ x ∈ Automaton_getSignals a)
  ∨ (t = 0%nat ∧ ∃ cell0, initial !! c = Some cell0 ∧ x ∈ cell0).
Proof.
  intros Hrun Hd Hc Hx.
  destruct (makeDiagram_writes_only _ _ _ _ Hrun _ _ _ _ _ Hd Hc Hx)
    as [Hout|(config0 & cell0 & Hd0 & Hc0 & Hx0)].
  - left. split; [done|]. apply Automaton_getSignals_elem.
    apply elem_of_flat_map in Hout as (rule & Hrule & Hout). exists rule. by auto.
  - right. destruct t as [|t].
    + injection Hd0 as <-. split; [done|]. by exists cell0.
    + simpl in Hd0. apply lookup_replicate in Hd0 as [-> _].
      apply lookup_replicate in Hc0 as [-> _]. by apply elem_of_nil in Hx0.
Qed.

Lemma makeDiagram_signals_come_from_witness :
  ("B" ∈ output_signals (rules scenario_A) ∧ "B" ∈ Automaton_getSignals scenario_A)
  ∨ (0%nat = 0%nat ∧ ∃ cell0, [["A"]; []; []] !! 0%nat = Some cell0 ∧ "B" ∈ cell0).
Proof.
  apply (makeDiagram_signals_come_from scenario_A [["A"]; []; []] 1
           [[["A"; "B"]; []; []]; [[]; []; []]] 0 0 [["A"; "B"]; []; []] ["A"; "B"] "B").
  - reflexivity.
  - reflexivity.
  - reflexivity.
  - right. by left.
Defined.

(** ** What an evaluation looks at *)

(** X10: the evaluation of a clause at a cell looks at nothing but the
    signals of its literals, in the cells of the window: two
    configurations that agree, on these signals and in these cells, give
    the same answer or the same exception. *)
Theorem eval_looks_at_its_signals (config cells1 cells2 : Configuration) (c : nat)
    (lo hi : Z) (clause : Clause) :
  (∀ i s, lo ≤ i ≤ hi → s ∈ literal_signals clause →
          s ∈ default [] (lookupZ cells1 (Z.of_nat c + i))
          ↔ s ∈ default [] (lookupZ cells2 (Z.of_nat c + i))) →
  eval cells1 (getNeighborhood config c lo hi) clause
  = eval cells2 (getNeighborhood config c lo hi) clause.
Proof.
  induction clause as [|sub IH|l IH|l IH|s p t] using Clause_ind'; simpl; intros Hagree.
  - done.
  - by rewrite IH.
  - induction IH as [|x l Hx _ IHl]; [done|].
    rewrite Hx, IHl; [done|..]; intros i s Hi Hs; apply Hagree; try done;
      simpl; apply elem_of_app; by auto.
  - induction IH as [|x l Hx _ IHl]; [done|].
    rewrite Hx, IHl; [done|..]; intros i s Hi Hs; apply Hagree; try done;
      simpl; apply elem_of_app; by auto.
  - rewrite getNeighborhood_lookup. case_decide as Hp; [|done]. simpl. f_equal.
    specialize (Hagree p s Hp (list_elem_of_here _ _)).
    unfold window_ref. unfold lookupZ in Hagree.
    destruct (decide (Z.of_nat c + p < 0)); [done|].
    destruct (decide (Z.of_nat c + p >= Z.of_nat (length config))); [done|].
    rewrite !decide_True in Hagree by lia. simpl.
    unfold Set_has. by apply bool_decide_ext.
Qed.

Lemma eval_looks_at_its_signals_witness :
  eval [["A"; "X"]; ["B"]] (getNeighborhood [[]; []] 0 0 1)
       (Conjunction [Literal "A" 0 0; Negation (Literal "B" 1 0)])
  = eval [["Y"; "A"]; ["B"; "Z"]] (getNeighborhood [[]; []] 0 0 1)
         (Conjunction [Literal "A" 0 0; Negation (Literal "B" 1 0)]).
Proof.
  apply (eval_looks_at_its_signals [[]; []] [["A"; "X"]; ["B"]] [["Y"; "A"]; ["B"; "Z"]]
           0 0 1 (Conjunction [Literal "A" 0 0; Negation (Literal "B" 1 0)])).
  intros i s Hi Hs. simpl in Hs.
  assert (Hi' : i = 0 ∨ i = 1) by lia.
  apply elem_of_cons in Hs as [->|Hs]; [|apply list_elem_of_singleton in Hs as ->];
    destruct Hi' as [->| ->]; vm_compute lookupZ; simpl;
    rewrite ?elem_of_cons, ?elem_of_nil; split; intros H;
    repeat (destruct H as [H|H]; try discriminate H); tauto.
Defined.

(** ** What the parser with sign tokens builds *)

Section Kept_by_the_constructors.
(** A property of clauses that a group has when its subclauses have it. *)
Variable P : Clause → bool.
Hypothesis P_Conjunction : ∀ l, P (Conjunction l) = forallb P l.
Hypothesis P_Disjunction : ∀ l, P (Disjunction l) = forallb P l.

Lemma new_Conjunction_keeps subclauses :
  forallb P subclauses = true → P (new_Conjunction subclauses) = true.
Proof.
  rewrite new_Conjunction_spliced, P_Conjunction.
  induction subclauses as [|c l IH]; [done|]. simpl.
  intros [Hc Hl]%andb_prop. rewrite forallb_app, IH, andb_true_r by done.
  destruct c; simpl; rewrite ?Hc; try done. by rewrite <-P_Conjunction.
Qed.

Lemma Disjunction_loop_keeps fuel own seen todo l :
  forallb P todo = true → forallb P seen = true →
  forallb P (default [] own) = true →
  Disjunction_loop fuel own seen todo = Some l → forallb P l = true.
Proof.
  revert own seen todo. induction fuel as [|fuel IH]; intros own seen todo Htodo Hseen Hown.
  - destruct todo; [|discriminate]. simpl. intros [= <-]. by destruct own.
  - destruct todo as [|c todo]; [simpl; intros [= <-]; by destruct own|].
    simpl in Htodo. apply andb_prop in Htodo as [Hc Htodo].
    assert (Hseen' : forallb P (seen ++ [c]) = true).
    { rewrite forallb_app, Hseen. simpl. by rewrite Hc. }
    destruct c as [|sub|subs|subs|s p t]; cbn [Disjunction_loop];
      try (by apply IH).
    rewrite P_Disjunction in Hc.
    destruct own as [o|]; apply IH; try done.
    + simpl in *. by rewrite forallb_app, Hown.
    + by rewrite forallb_app, Htodo.
Qed.

Lemma new_Disjunction_keeps subclauses :
  forallb P subclauses = true → P (new_Disjunction subclauses) = true.
Proof.
  intros H. destruct (new_Disjunction_returns subclauses) as (l & Hl & ->).
  rewrite P_Disjunction.
  by apply (Disjunction_loop_keeps (clauses_size subclauses) (Some []) []
              subclauses l).
Qed.

Lemma read_group_keeps read guard close n subclauses tokens subclauses' rest :
  (∀ ts c ts', read ts = Ok (c, ts') → P c = true) →
  forallb P subclauses = true →
  read_group read guard close n subclauses tokens = Ok (subclauses', rest) →
  forallb P subclauses' = true.
Proof.
  intros Hread. revert subclauses tokens.
  induction n as [|n IH]; intros subclauses tokens Hsubs.
  - destruct tokens as [|first tokens], guard; simpl; try discriminate;
      case_decide; try discriminate; by intros [= <- <-].
  - assert (Hturn : ∀ ts,
              (read ts ≫= λ '(subclause, tokens'),
                 read_group read guard close n (subclauses ++ [subclause]) tokens')
              = Ok (subclauses', rest) →
              forallb P subclauses' = true).
    { intros ts ([c ts'] & Hc & Hgo)%bind_Ok_inv. apply (IH _ _) in Hgo; [done|].
      rewrite forallb_app, Hsubs. simpl. by rewrite (Hread _ _ _ Hc). }
    destruct tokens as [|first tokens], guard; cbn [read_group]; try discriminate;
      try case_decide; try (by intros [= <- <-]); apply Hturn.
Qed.
End Kept_by_the_constructors.

(** The literals this parser builds are all at position 0. *)
Lemma SignToken_read_at_position_0 fuel tokens c rest :
  SignToken.readConditionTokens_fuel fuel tokens = Ok (c, rest) →
  literals_within 0 0 c = true.
Proof.
  revert tokens c rest. induction fuel as [|fuel IH]; intros tokens c rest; [discriminate|].
  destruct tokens as [|token tokens]; [by intros [= <- <-]|].
  cbn [SignToken.readConditionTokens_fuel]. repeat case_decide.
  - intros ([subs ts] & Hgroup & Hc)%bind_Ok_inv.
    apply (read_group_keeps (literals_within 0 0)) in Hgroup; [|exact IH|done].
    destruct subs as [|c1 [|c2 subs]]; injection Hc as <- <-; [done|..].
    + simpl in Hgroup. by rewrite andb_true_r in Hgroup.
    + by apply new_Conjunction_keeps.
  - intros ([subs ts] & Hgroup & Hc)%bind_Ok_inv.
    apply (read_group_keeps (literals_within 0 0)) in Hgroup; [|exact IH|done].
    destruct subs as [|c1 [|c2 subs]]; injection Hc as <- <-; [done|..].
    + simpl in Hgroup. by rewrite andb_true_r in Hgroup.
    + by apply new_Disjunction_keeps.
  - intros ([neg ts] & Hneg%IH & Hc)%bind_Ok_inv.
    destruct neg; injection Hc as <- <-; done.
  - apply IH.
  - by intros [= <- <-].
Qed.

Lemma SignToken_parseCondition_at_position_0 conditionString c :
  SignToken.parseCondition conditionString = Ok c → literals_within 0 0 c = true.
Proof.
  unfold SignToken.parseCondition. destruct (match_all _ _) as [tokens|]; [|discriminate].
  intros ([c' rest] & Hread%SignToken_read_at_position_0 & Hc)%bind_Ok_inv.
  case_decide; [discriminate|]. by injection Hc as <-.
Qed.

Lemma Forall_drop_while {A} (P : A → Prop) (p : A → bool) (l : list A) :
  Forall P l → Forall P (drop_while p l).
Proof.
  induction 1 as [|x l Hx Hl IH]; simpl; [done|]. destruct (p x); [done|by constructor].
Qed.

(** What a line adds to the rules: nothing, or one rule whose condition is
    the condition of the line, under the condition of the entry of the
    stack it is nested in, with the outputs of the line. *)
Lemma parse_line_rules parseCondition parseOutputs st line st' :
  parse_line parseCondition parseOutputs st line = Ok st' →
  (parsed_rules st' = parsed_rules st
   ∧ parsed_maxFutureDepth st' = parsed_maxFutureDepth st)
  ∨ ∃ condition outputs depth outputsString,
      parsed_rules st' = parsed_rules st
                         ++ [{| condition := condition; outputs := outputs |}]
      ∧ parseOutputs (parsed_maxFutureDepth st) outputsString = Ok (outputs, depth)
      ∧ parsed_maxFutureDepth st' = depth
      ∧ conditionsStack st' ≠ []
      ∧ ((∃ top, head (conditionsStack st') = Some top ∧ entry_condition top = condition)).
Proof.
  unfold parse_line. case_decide; [intros [= <-]; by left|].
  destruct (if includes ":" _ then _ else _) as [conditionString outputsString].
  intros ([condition stack] & Hcondition & Hrest)%bind_Ok_inv.
  case_decide; [injection Hrest as <-; by left|].
  apply bind_Ok_inv in Hrest as ([outputs depth] & Houtputs & Hst').
  injection Hst' as <-. right. exists condition, outputs, depth, outputsString.
  simpl. repeat split; try done.
  - destruct conditionString as [conditionString|].
    + case_decide.
      * destruct (drop_while _ _); [discriminate|]. by injection Hcondition as <- <-.
      * apply bind_Ok_inv in Hcondition as (lineCondition & _ & Hc).
        by injection Hc as <- <-.
    + destruct (drop_while _ _); [discriminate|]. by injection Hcondition as <- <-.
  - destruct conditionString as [conditionString|].
    + case_decide.
      * destruct (drop_while _ _) as [|top rest]; [discriminate|].
        injection Hcondition as <- <-. by exists top.
      * apply bind_Ok_inv in Hcondition as (lineCondition & _ & Hc).
        injection Hc as <- <-. by eexists.
    + destruct (drop_while _ _) as [|top rest]; [discriminate|].
      injection Hcondition as <- <-. by exists top.
Qed.

(** The conditions of the rules and of the stack keep their literals at
    position 0 when the conditions of the lines have theirs there. *)
Lemma parse_line_at_position_0 parseCondition parseOutputs st line st' :
  (∀ s c, parseCondition s = Ok c → literals_within 0 0 c = true) →
  Forall (λ rule, literals_within 0 0 (condition rule) = true) (parsed_rules st) →
  Forall (λ e, literals_within 0 0 (entry_condition e) = true) (conditionsStack st) →
  parse_line parseCondition parseOutputs st line = Ok st' →
  Forall (λ rule, literals_within 0 0 (condition rule) = true) (parsed_rules st')
  ∧ Forall (λ e, literals_within 0 0 (entry_condition e) = true) (conditionsStack st').
Proof.
  intros Hparse Hrules Hstack. unfold parse_line. case_decide; [by intros [= <-]|].
  destruct (if includes ":" _ then _ else _) as [conditionString outputsString].
  pose proof (Forall_drop_while _
                (λ e, bool_decide
                        (search (RAlt (RClass (λ c, negb (is_space c))) REnd) line
                         ≤ e.(entry_indent))%nat) _ Hstack) as Hdropped.
  revert Hdropped. generalize (drop_while
    (λ e, bool_decide (search (RAlt (RClass (λ c, negb (is_space c))) REnd) line
                       ≤ e.(entry_indent))%nat) st.(conditionsStack)).
  intros stack Hdropped ([condition stack'] & Hcondition & Hrest)%bind_Ok_inv.
  assert (Hboth : literals_within 0 0 condition = true
                  ∧ Forall (λ e, literals_within 0 0 (entry_condition e) = true) stack').
  { assert (Htop : match stack with
                   | [] => Throw TypeError
                   | top :: _ => Ok (entry_condition top, stack)
                   end = Ok (condition, stack') →
                   literals_within 0 0 condition = true
                   ∧ Forall (λ e, literals_within 0 0 (entry_condition e) = true) stack').
    { destruct stack as [|top rest]; [discriminate|]. intros [= <- <-].
      split; [|done]. by apply Forall_cons in Hdropped as [? _]. }
    destruct conditionString as [conditionString|]; [|by apply Htop].
    destruct (decide (conditionString = "")); [by apply Htop|].
    apply bind_Ok_inv in Hcondition as (lineCondition & Hline%Hparse & Hc).
    injection Hc as <- <-.
    assert (Hnew : literals_within 0 0
                     match stack with
                     | [] => lineCondition
                     | top :: _ => new_Conjunction [entry_condition top; lineCondition]
                     end = true).
    { destruct stack as [|top rest]; [done|].
      apply (new_Conjunction_keeps (literals_within 0 0)); [done|]. simpl.
      apply Forall_cons in Hdropped as [-> _]. by rewrite Hline. }
    split; [done|]. by constructor. }
  destruct Hboth as [Hcond Hstack'].
  case_decide; [by injection Hrest as <-|].
  apply bind_Ok_inv in Hrest as ([outputs depth] & _ & Hst'). injection Hst' as <-.
  simpl. split; [|done]. apply Forall_app. split; [done|]. by constructor.
Qed.

(** X11: an automaton parsed from a text by the revision with sign tokens
    has all the literals of its conditions at position 0, inside the
    window [[0, 0]] its constructor leaves it: no evaluation throws, and
    when no output aims before the time of its rule, [makeDiagram] returns
    a diagram for every initial configuration and every number of
    steps. *)
Theorem SignToken_automaton_evaluates (rulesString : string) (a : Automaton) :
  SignToken.new_Automaton rulesString = Ok a →
  Forall (λ rule, literals_within (minNeighbor a) (maxNeighbor a) (condition rule) = true)
         (rules a)
  ∧ (Forall (λ rule, Forall (λ output, 0 ≤ futureStep output) (outputs rule)) (rules a) →
     ∀ initial nbSteps, ∃ d, makeDiagram a initial nbSteps = Ok d).
Proof.
  unfold SignToken.new_Automaton, constructor.
  intros (st & Hlines & Ha)%bind_Ok_inv. injection Ha as <-. simpl.
  assert (Hrules : Forall (λ rule, literals_within 0 0 (condition rule) = true)
                          (parsed_rules st)).
  { apply (for_of_invariant
             (λ st, Forall (λ rule, literals_within 0 0 (condition rule) = true)
                           (parsed_rules st)
                    ∧ Forall (λ e, literals_within 0 0 (entry_condition e) = true)
                             (conditionsStack st))
             _ _) with (s' := st) in Hlines; [by destruct Hlines| |by split].
    intros s line s' _ [Hr Hs]. apply parse_line_at_position_0; [|done..].
    apply SignToken_parseCondition_at_position_0. }
  split; [done|]. intros Houtputs initial nbSteps. apply makeDiagram_returns.
  unfold well_formed. simpl. apply forallb_forall. intros rule Hrule%list_elem_of_In.
  rewrite Forall_forall in Hrules, Houtputs. rewrite (Hrules rule Hrule). simpl.
  apply forallb_forall. intros output Houtput%list_elem_of_In.
  apply bool_decide_eq_true. specialize (Houtputs rule Hrule).
  rewrite Forall_forall in Houtputs. by apply Houtputs.
Qed.

Lemma SignToken_automaton_evaluates_witness :
  Forall (λ rule, literals_within (minNeighbor scenario_A) (maxNeighbor scenario_A)
                                  (condition rule) = true) (rules scenario_A)
  ∧ (Forall (λ rule, Forall (λ output, 0 ≤ futureStep output) (outputs rule))
            (rules scenario_A) →
     ∀ initial nbSteps, ∃ d, makeDiagram scenario_A initial nbSteps = Ok d).
Proof.
  apply (SignToken_automaton_evaluates "A: 0/0.B" scenario_A). reflexivity.
Defined.

(** ** The depth into the future *)

Lemma foldr_max_least (l : list Z) : 1 ≤ foldr Z.max 1 l.
Proof. induction l as [|x l IH]; simpl; lia. Qed.

Lemma foldr_max_app (l l' : list Z) :
  foldr Z.max 1 (l ++ l') = Z.max (foldr Z.max 1 l) (foldr Z.max 1 l').
Proof.
  pose proof (foldr_max_least l'). induction l as [|x l IH]; simpl; lia.
Qed.

Lemma futureSteps_app (rs rs' : list Rule) :
  futureSteps (rs ++ rs') = futureSteps rs ++ futureSteps rs'.
Proof.
  unfold futureSteps. induction rs as [|r rs IH]; simpl; [done|].
  by rewrite IH, (assoc_L _).
Qed.

(** A token adds one output; the depth becomes the larger of the depth
    and of the step of the output, which is 1 when the token gives none. *)
Lemma SignToken_parse_output_depth outputs depth token :
  1 ≤ depth →
  ∃ output, SignToken.parse_output (outputs, depth) token
            = (outputs ++ [output], Z.max depth (futureStep output)).
Proof.
  intros Hdepth. unfold SignToken.parse_output.
  destruct (includes "." token).
  - destruct (includes "/" _).
    + eexists (Build_RuleOutput _ _ _). simpl. reflexivity.
    + eexists (Build_RuleOutput _ _ _). simpl. f_equal. lia.
  - eexists (Build_RuleOutput _ _ _). simpl. f_equal. lia.
Qed.

Lemma SignToken_parse_outputs_depth tokens : ∀ outputs depth,
  1 ≤ depth →
  ∃ new, foldl SignToken.parse_output (outputs, depth) tokens
         = (outputs ++ new, Z.max depth (foldr Z.max 1 (futureStep <$> new))).
Proof.
  induction tokens as [|token tokens IH]; intros outputs depth Hdepth; cbn [foldl].
  - exists []. rewrite (right_id_L [] _). simpl. f_equal. lia.
  - destruct (SignToken_parse_output_depth outputs depth token Hdepth) as [output ->].
    destruct (IH (outputs ++ [output]) (Z.max depth (futureStep output))) as [new ->]; [lia|].
    exists (output :: new). f_equal; [by rewrite <-(assoc_L _)|].
    rewrite fmap_cons. cbn [foldr]. lia.
Qed.

(** X12: on an automaton parsed by the revision with sign tokens,
    [maxFutureDepth] is the largest of 1 and of the steps into the future
    of all the outputs of all the rules. *)
Theorem SignToken_maxFutureDepth (rulesString : string) (a : Automaton) :
  SignToken.new_Automaton rulesString = Ok a →
  maxFutureDepth a = foldr Z.max 1 (futureSteps (rules a)).
Proof.
  unfold SignToken.new_Automaton, constructor.
  intros (st & Hlines & Ha)%bind_Ok_inv. injection Ha as <-. simpl.
  apply (for_of_invariant
           (λ st, parsed_maxFutureDepth st = foldr Z.max 1 (futureSteps (parsed_rules st)))
           _ _) with (s' := st) in Hlines; [done| |done].
  intros s line s' _ Hs
    [[-> ->]|(condition & outputs & depth & outputsString & -> & Houtputs & -> & _)]
      %parse_line_rules;
    [done|].
  revert Houtputs. unfold SignToken.parseOutputs.
  destruct (match_all _ _) as [tokens|]; [|discriminate].
  destruct (SignToken_parse_outputs_depth tokens [] (parsed_maxFutureDepth s)) as [new ->].
  { rewrite Hs. apply foldr_max_least. }
  intros [= <- <-]. rewrite futureSteps_app, foldr_max_app, Hs. unfold futureSteps at 2.
  simpl. by rewrite (right_id_L [] _).
Qed.

Lemma SignToken_maxFutureDepth_witness :
  maxFutureDepth {| rules := [rule_of (Literal "A" 0 0) "B" 0 3];
                    minNeighbor := 0; maxNeighbor := 0; maxFutureDepth := 3 |}
  = foldr Z.max 1 (futureSteps [rule_of (Literal "A" 0 0) "B" 0 3]).
Proof. apply (SignToken_maxFutureDepth "A: 0/3.B"). reflexivity. Defined.

(** ** The steps already made do not depend on the steps to come *)

(** A loop run on the image of the state, when every turn commutes with
    the image. *)
Lemma for_of_image {A S} (f : S → S) (body : S → A → result S) l :
  (∀ s x s', x ∈ l → body s x = Ok s' → body (f s) x = Ok (f s')) →
  ∀ s s', for_of body l s = Ok s' → for_of body l (f s) = Ok (f s').
Proof.
  induction l as [|x l IH]; intros Hbody s s' Hrun; simpl in *.
  - by injection Hrun as <-.
  - apply bind_Ok_inv in Hrun as (s1 & H1 & Hrun).
    rewrite (Hbody _ _ _ (list_elem_of_here _ _) H1). simpl.
    apply IH; [|done]. intros ? y ? Hy. apply Hbody. by right.
Qed.

(** A write on the first [m] configurations of the diagram: the same
    write when it aims at one of them, none when it aims further. *)
Lemma write_output_take nbCells t c diagram output diagram' m :
  write_output nbCells t c diagram output = Ok diagram' →
  write_output nbCells t c (take m diagram) output = Ok (take m diagram').
Proof.
  unfold write_output, lookupZ. rewrite length_take.
  destruct (bool_decide (_ < Z.of_nat (length diagram))) eqn:Htime; simpl.
  - apply bool_decide_eq_true in Htime.
    destruct (bool_decide (0 ≤ _)) eqn:Hleft; simpl;
      [|intros [= <-]; by rewrite andb_false_r].
    destruct (bool_decide (_ < Z.of_nat nbCells)) eqn:Hright; simpl;
      [|intros [= <-]; by rewrite andb_false_r].
    rewrite !andb_true_r.
    destruct (decide (0 ≤ Z.of_nat t + futureStep output)) as [Hpos|]; [|discriminate].
    destruct (diagram !! _) as [config|] eqn:Hconfig; [|discriminate].
    destruct (decide (0 ≤ Z.of_nat c + neighbor output)); [|discriminate].
    destruct (config !! _) as [cell|] eqn:Hcell; [|discriminate]. intros [= <-].
    destruct (decide (Z.to_nat (Z.of_nat t + futureStep output) < m)%nat) as [Hin|Hout].
    + rewrite bool_decide_eq_true_2 by lia.
      rewrite lookup_take_lt, Hconfig, Hcell by done. by rewrite take_insert_lt.
    + rewrite bool_decide_eq_false_2 by lia. rewrite take_insert_ge by lia. done.
  - apply bool_decide_eq_false in Htime. intros [= <-].
    by rewrite bool_decide_eq_false_2 by lia.
Qed.

Lemma run_step_take a nbCells diagram t diagram' m :
  (t < m)%nat →
  run_step a nbCells diagram t = Ok diagram' →
  run_step a nbCells (take m diagram) t = Ok (take m diagram').
Proof.
  intros Ht. unfold run_step. apply (for_of_image (take m)). intros s c s' _.
  unfold run_cell. rewrite lookup_take_lt by done.
  destruct (s !! t) as [config|] eqn:Hconfig; [|discriminate].
  apply (for_of_image (take m)). intros s2 rule s2' _. unfold run_rule.
  rewrite lookup_take_lt by done.
  intros (fires & -> & Hwrites)%bind_Ok_inv. simpl. destruct fires.
  - revert Hwrites. apply (for_of_image (take m)). intros s3 output s3' _.
    apply write_output_take.
  - by injection Hwrites as <-.
Qed.

(** A write further than the first [m] configurations leaves them as they
    are. *)
Lemma write_output_beyond nbCells t c diagram output diagram' m :
  (Z.of_nat m ≤ Z.of_nat t + futureStep output) →
  write_output nbCells t c diagram output = Ok diagram' →
  take m diagram' = take m diagram.
Proof.
  intros Hm. unfold write_output. destruct (_ && _); [|by intros [= <-]].
  destruct (lookupZ diagram _) as [config|]; [|discriminate].
  destruct (lookupZ config _) as [cell|]; [|discriminate]. intros [= <-].
  apply take_insert_ge. lia.
Qed.

Lemma run_step_beyond a nbCells diagram t diagram' m :
  forward a = true → (m ≤ S t)%nat →
  run_step a nbCells diagram t = Ok diagram' →
  take m diagram' = take m diagram.
Proof.
  intros Hforward Ht. unfold run_step.
  apply (for_of_invariant (λ s, take m s = take m diagram)); [|done].
  intros s c s' _ Hs. unfold run_cell. destruct (s !! t) as [config|]; [|discriminate].
  apply (for_of_invariant (λ s, take m s = take m diagram)); [|done].
  intros s2 rule s2' Hrule Hs2. unfold run_rule.
  intros (fires & _ & Hwrites)%bind_Ok_inv. destruct fires; [|by injection Hwrites as <-].
  revert Hwrites. apply (for_of_invariant (λ s, take m s = take m diagram)); [|done].
  intros s3 output s3' Houtput Hs3 Hwrite. rewrite <-Hs3.
  eapply write_output_beyond; [|exact Hwrite].
  unfold forward in Hforward. rewrite forallb_forall in Hforward.
  specialize (Hforward rule (proj1 (list_elem_of_In _ _) Hrule)).
  rewrite forallb_forall in Hforward.
  specialize (Hforward output (proj1 (list_elem_of_In _ _) Houtput)).
  apply bool_decide_eq_true in Hforward. lia.
Qed.

(** X13: when every output of the automaton aims at a later time than the
    time of its rule, the first [k + 1] configurations of a diagram of
    more steps are the diagram of [k] steps: if the longer run returns, so
    does the shorter one, with those configurations. The steps already
    made do not depend on the steps to come. *)
Theorem makeDiagram_prefix (a : Automaton) (initial : Configuration) (k n : nat)
    (d : Diagram) :
  forward a = true → (k ≤ n)%nat →
  makeDiagram a initial n = Ok d →
  makeDiagram a initial k = Ok (take (S k) d).
Proof.
  intros Hforward Hk. unfold makeDiagram.
  replace (seq 0 n) with (seq 0 k ++ seq k (n - k))
    by (rewrite <-seq_app; f_equal; lia).
  cbv zeta. rewrite for_of_app.
  intros (d1 & Hfirst & Hrest)%bind_Ok_inv.
  apply (for_of_image (take (S k))) in Hfirst.
  - simpl in Hfirst. rewrite take_replicate, Nat.min_l in Hfirst by done.
    rewrite Hfirst. f_equal. symmetry. revert Hrest.
    apply (for_of_invariant (λ s, take (S k) s = take (S k) d1)); [|done].
    intros s t s' Ht%list_elem_of_In%in_seq Hs Hstep. rewrite <-Hs.
    apply (run_step_beyond a (getSize initial) s t s'); [done|lia|done].
  - intros s t s' Ht%list_elem_of_In%in_seq. apply run_step_take. lia.
Qed.

Lemma makeDiagram_prefix_witness :
  makeDiagram (automaton_of [rule_of (Literal "A" 0 0) "A" 1 1] 0 0) [["A"]; []; []] 1
  = Ok (take 2 [[["A"]; []; []]; [[]; ["A"]; []]; [[]; []; ["A"]]]).
Proof.
  apply (makeDiagram_prefix _ _ 1 2); [reflexivity|lia|reflexivity].
Defined.

(** ** The text of the outputs, read again *)

Lemma chars_text l : chars (text l) = l.
Proof. apply list_ascii_of_string_of_list_ascii. Qed.

Lemma text_chars s : text (chars s) = s.
Proof. apply string_of_list_ascii_of_string. Qed.

Lemma chars_app (a b : string) : chars (a ++ b) = chars a ++ chars b.
Proof. induction a as [|c a IH]; simpl; [done|]. unfold chars in *. simpl. by rewrite IH. Qed.

Lemma text_app (a b : list ascii) : text (a ++ b) = (text a ++ text b)%string.
Proof. induction a as [|c a IH]; simpl; [done|]. unfold text in *. simpl. by rewrite IH. Qed.

Lemma digit_char_is_digit d : 0 ≤ d < 10 → is_digit (digit_char d) = true.
Proof.
  intros Hd.
  assert (d = 0 ∨ d = 1 ∨ d = 2 ∨ d = 3 ∨ d = 4 ∨ d = 5 ∨ d = 6 ∨ d = 7 ∨ d = 8 ∨ d = 9)
    as Hcases by lia.
  repeat destruct Hcases as [->|Hcases]; try reflexivity. by subst.
Qed.

Lemma digit_value_digit_char d : 0 ≤ d < 10 → digit_value (digit_char d) = d.
Proof.
  intros Hd.
  assert (d = 0 ∨ d = 1 ∨ d = 2 ∨ d = 3 ∨ d = 4 ∨ d = 5 ∨ d = 6 ∨ d = 7 ∨ d = 8 ∨ d = 9)
    as Hcases by lia.
  repeat destruct Hcases as [->|Hcases]; try reflexivity. by subst.
Qed.

Lemma digits_fuel_digits fuel : ∀ n acc,
  0 ≤ n → Forall (λ c, is_digit c = true) acc →
  Forall (λ c, is_digit c = true) (digits_fuel fuel n acc).
Proof.
  induction fuel as [|fuel IH]; intros n acc Hn Hacc; simpl; [done|].
  destruct (Z.ltb_spec n 10).
  - constructor; [|done]. apply digit_char_is_digit. lia.
  - apply IH; [apply Z.div_pos; lia|]. constructor; [|done].
    apply digit_char_is_digit. apply Z.mod_pos_bound. lia.
Qed.

Lemma digits_fuel_length fuel : ∀ n acc,
  (length acc ≤ length (digits_fuel fuel n acc))%nat.
Proof.
  induction fuel as [|fuel IH]; intros n acc; simpl; [done|].
  destruct (n <? 10); simpl; [lia|]. etrans; [|apply IH]. simpl. lia.
Qed.

Lemma digits_fuel_value fuel : ∀ n acc,
  0 ≤ n < 2 ^ Z.of_nat fuel →
  foldl (λ n c, 10 * n + digit_value c) 0 (digits_fuel fuel n acc)
  = foldl (λ n c, 10 * n + digit_value c) n acc.
Proof.
  induction fuel as [|fuel IH]; intros n acc Hn.
  - simpl in *. by replace n with 0 by lia.
  - cbn [digits_fuel]. destruct (Z.ltb_spec n 10).
    + simpl. rewrite digit_value_digit_char by lia. done.
    + rewrite IH.
      * simpl. rewrite digit_value_digit_char by (apply Z.mod_pos_bound; lia).
        f_equal. pose proof (Z.div_mod n 10). lia.
      * rewrite Nat2Z.inj_succ, Z.pow_succ_r in Hn by lia.
        split; [apply Z.div_pos; lia|]. apply Z.div_lt_upper_bound; lia.
Qed.

(** The digits of a natural number: one at least, all of them digits, and
    they spell the number. *)
Lemma digits_spec n :
  0 ≤ n →
  digits n ≠ [] ∧ Forall (λ c, is_digit c = true) (digits n)
  ∧ foldl (λ n c, 10 * n + digit_value c) 0 (digits n) = n.
Proof.
  intros Hn. unfold digits. split; [|split].
  - simpl. destruct (n <? 10); [done|].
    pose proof (digits_fuel_length (Z.to_nat (Z.log2 n)) (n / 10) [digit_char (n mod 10)]).
    intros Heq. rewrite Heq in H. simpl in H. lia.
  - by apply digits_fuel_digits.
  - rewrite digits_fuel_value; [done|]. split; [done|].
    rewrite Nat2Z.inj_succ, Z2Nat.id by apply Z.log2_nonneg.
    destruct (decide (n = 0)) as [->|]; [done|]. apply Z.log2_spec. lia.
Qed.

(** The run of a class at the head of a text stops where the class does. *)
Lemma run_length_app p (run rest : list ascii) :
  Forall (λ c, p c = true) run →
  match rest with [] => True | c :: _ => p c = false end →
  run_length p (run ++ rest) = length run.
Proof.
  intros Hrun Hrest. induction Hrun as [|c run Hc Hrun IH]; simpl.
  - destruct rest as [|c rest]; simpl; [done|]. by rewrite Hrest.
  - by rewrite Hc, IH.
Qed.

Lemma run_length_all p (run : list ascii) :
  Forall (λ c, p c = true) run → run_length p run = length run.
Proof.
  intros Hrun. rewrite <-(right_id_L [] app run) at 1. by apply run_length_app.
Qed.

Lemma parse_digits_all ds :
  Forall (λ c, is_digit c = true) ds →
  parse_digits ds = foldl (λ n c, 10 * n + digit_value c) 0 ds.
Proof.
  intros Hds. unfold parse_digits. by rewrite run_length_all, firstn_all.
Qed.

Lemma Number_toString_number n : is_number (chars (Number_toString n)).
Proof.
  unfold Number_toString. destruct (Z.ltb_spec n 0); rewrite chars_text.
  - destruct (digits_spec (- n)) as (? & ? & _); [lia|]. exists (digits (- n)). auto.
  - destruct (digits_spec n) as (? & ? & _); [lia|]. exists (digits n). auto.
Qed.

Lemma parseInt_digits ds :
  ds ≠ [] → Forall (λ c, is_digit c = true) ds →
  parseInt (text ds) = foldl (λ n c, 10 * n + digit_value c) 0 ds.
Proof.
  intros Hne Hds. unfold parseInt. rewrite chars_text.
  destruct ds as [|c ds]; [done|]. apply Forall_cons in Hds as Hc. destruct Hc as [Hc _].
  rewrite <-parse_digits_all by done.
  destruct (Ascii.eqb_spec c "-") as [->|]; [discriminate|].
  destruct (Ascii.eqb_spec c "+") as [->|]; [discriminate|].
  destruct c as [[] [] [] [] [] [] [] []]; done.
Qed.

(** [parseInt] reads the text of an integer back into the integer. *)
Lemma parseInt_Number_toString n : parseInt (Number_toString n) = n.
Proof.
  unfold Number_toString. destruct (Z.ltb_spec n 0).
  - destruct (digits_spec (- n)) as (_ & Hds & Hvalue); [lia|].
    unfold parseInt. rewrite chars_text, parse_digits_all, Hvalue by done. lia.
  - destruct (digits_spec n) as (Hne & Hds & Hvalue); [lia|].
    by rewrite parseInt_digits.
Qed.

Lemma give_back_first {R} (k : list ascii → option R) s least n r :
  k (drop n s) = Some r → give_back k s least n = Some r.
Proof. intros Hk. destruct n; simpl; by rewrite Hk. Qed.

Lemma give_back_fails {R} (k : list ascii → option R) s least n :
  (∀ j, (j ≤ n)%nat → k (drop j s) = None) → give_back k s least n = None.
Proof.
  induction n as [|n IH]; intros Hk; simpl.
  - by rewrite (Hk 0%nat).
  - rewrite (Hk (S n)) by done. case_decide; [|done]. apply IH. intros j Hj. apply Hk. lia.
Qed.

(** The whole run is taken when what follows matches after it. *)
Lemma rmatch_RPlus_all {R} p run rest g (k : list ascii → Groups → option R) r :
  run ≠ [] → Forall (λ c, p c = true) run → stops p rest →
  k rest g = Some r →
  rmatch (RPlus p) (run ++ rest) g k = Some r.
Proof.
  intros Hne Hrun Hrest Hk. cbn [rmatch]. rewrite run_length_app by done.
  rewrite decide_True by (destruct run; [done|simpl; lia]).
  apply give_back_first. by rewrite drop_app_length.
Qed.

(** No part of the run is followed by a match when what follows it wants a
    character that is neither in the class nor after the run. *)
Lemma rmatch_RPlus_fails {R} p run rest g (k : list ascii → Groups → option R) c :
  Forall (λ c, p c = true) run → stops p rest → p c = false → head rest ≠ Some c →
  (∀ s', head s' ≠ Some c → k s' g = None) →
  rmatch (RPlus p) (run ++ rest) g k = None.
Proof.
  intros Hrun Hrest Hc Hhead Hk. cbn [rmatch]. case_decide; [|done].
  apply give_back_fails. intros j Hj. apply Hk. rewrite run_length_app in Hj by done.
  destruct (decide (j = length run)) as [->|]; [by rewrite drop_app_length|].
  rewrite drop_app_le by lia. destruct (drop j run) as [|c' l] eqn:Hdrop.
  - apply (f_equal length) in Hdrop. rewrite length_drop in Hdrop. simpl in Hdrop. lia.
  - simpl. intros [= ->]. 
    assert (c ∈ run) as Hin
      by (rewrite <-(take_drop j run), Hdrop; apply elem_of_app; right; left).
    rewrite Forall_forall in Hrun. apply Hrun in Hin. congruence.
Qed.

Lemma rmatch_RSeq {R} r1 r2 s g (k : list ascii → Groups → option R) :
  rmatch (RSeq r1 r2) s g k = rmatch r1 s g (λ s' g', rmatch r2 s' g' k).
Proof. reflexivity. Qed.

Lemma rmatch_ROpt {R} r s g (k : list ascii → Groups → option R) :
  rmatch (ROpt r) s g k
  = match rmatch r s g k with Some res => Some res | None => k s g end.
Proof. reflexivity. Qed.

Lemma rmatch_RGroup {R} name r s g (k : list ascii → Groups → option R) :
  rmatch (RGroup name r) s g k
  = rmatch r s g
      (λ s' g', k s' (g' ++ [(name, text (take (length s - length s') s))])).
Proof. reflexivity. Qed.

Lemma rmatch_RChar {R} c s g (k : list ascii → Groups → option R) :
  rmatch (RChar c) s g k
  = match s with
    | c' :: s' => if Ascii.eqb c c' then k s' g else None
    | [] => None
    end.
Proof. reflexivity. Qed.

Lemma rmatch_RPlus_stops {R} p s g (k : list ascii → Groups → option R) :
  stops p s → rmatch (RPlus p) s g k = None.
Proof. intros Hs. cbn [rmatch]. destruct s as [|c s]; simpl in *; [done|by rewrite Hs]. Qed.

Section Numbers.

(** The sign of a number, [-?] or [[+-]?]. *)
Variable sign : Regex.
Hypothesis sign_minus : ∀ R s g (k : list ascii → Groups → option R),
  rmatch sign ("-"%char :: s) g k = k s g.
Hypothesis sign_digit : ∀ R c s g (k : list ascii → Groups → option R),
  is_digit c = true → rmatch sign (c :: s) g k = None.

(** A number is matched whole when what follows it matches after it. *)
Lemma rmatch_number {R} N rest g (k : list ascii → Groups → option R) r :
  is_number N → stops is_digit rest →
  k rest g = Some r →
  rmatch (RSeq (ROpt sign) (RPlus is_digit)) (N ++ rest) g k = Some r.
Proof.
  intros (ds & Hne & Hds & [->| ->]) Hrest Hk; rewrite rmatch_RSeq, rmatch_ROpt.
  - destruct ds as [|c ds]; [done|]. apply Forall_cons in Hds as Hc. destruct Hc as [Hc _].
    rewrite <-app_comm_cons, sign_digit by done. by apply (rmatch_RPlus_all _ (c :: ds)).
  - rewrite <-app_comm_cons, sign_minus. by rewrite rmatch_RPlus_all with (r := r).
Qed.

(** No part of a number is followed by a match when what follows wants a
    character that is neither a digit nor the one after the number. *)
Lemma rmatch_number_fails {R} N rest g (k : list ascii → Groups → option R) c :
  is_number N → stops is_digit rest → is_digit c = false → head rest ≠ Some c →
  (∀ s', head s' ≠ Some c → k s' g = None) →
  rmatch (RSeq (ROpt sign) (RPlus is_digit)) (N ++ rest) g k = None.
Proof.
  intros (ds & Hne & Hds & [->| ->]) Hrest Hc Hhead Hk; rewrite rmatch_RSeq, rmatch_ROpt.
  - destruct ds as [|c' ds]; [done|]. apply Forall_cons in Hds as Hc'.
    destruct Hc' as [Hc' _]. rewrite <-app_comm_cons, sign_digit by done.
    by apply (rmatch_RPlus_fails _ (c' :: ds) _ _ _ c).
  - rewrite <-app_comm_cons, sign_minus. rewrite (rmatch_RPlus_fails _ ds _ _ _ c) by done.
    by apply rmatch_RPlus_stops.
Qed.

End Numbers.

Lemma minus_sign {R} s g (k : list ascii → Groups → option R) :
  rmatch (RChar "-") ("-"%char :: s) g k = k s g.
Proof. reflexivity. Qed.

Lemma minus_sign_digit {R} c s g (k : list ascii → Groups → option R) :
  is_digit c = true → rmatch (RChar "-") (c :: s) g k = None.
Proof. intros Hc. rewrite rmatch_RChar. by destruct (Ascii.eqb_spec "-" c) as [<-|]. Qed.

Lemma is_name_chars name : is_name name = true → name_chars (chars name).
Proof.
  unfold is_name, name_chars. destruct (chars name) as [|c cs]; [done|].
  intros Hcs. split; [done|]. apply Forall_forall. intros x Hx%list_elem_of_In.
  by apply (proj1 (forallb_forall _ _) Hcs).
Qed.

Lemma SignToken_token_with_step {R} N F name rest g
    (k : list ascii → Groups → option R) r :
  is_number N → is_number F → name_chars name → stops is_name_char rest →
  k rest g = Some r →
  rmatch SignToken.outputTokenRE (N ++ "/"%char :: F ++ "."%char :: name ++ rest) g k
  = Some r.
Proof.
  intros HN HF [Hne Hname] Hrest Hk.
  unfold SignToken.outputTokenRE, SignToken.numberRE, SignToken.signalNameRE.
  rewrite rmatch_RSeq, rmatch_ROpt, rmatch_RSeq, rmatch_ROpt, rmatch_RSeq.
  rewrite (rmatch_number (RChar "-") (@minus_sign) (@minus_sign_digit) N _ g _ r);
    [done|done|done|].
  rewrite rmatch_RChar. simpl Ascii.eqb. cbv iota. rewrite rmatch_RSeq.
  apply (rmatch_number (RChar "-") (@minus_sign) (@minus_sign_digit)); [done..|].
  rewrite rmatch_RChar. simpl Ascii.eqb. cbv iota.
  by apply rmatch_RPlus_all.
Qed.

Lemma rmatch_RChar_fails {R} c s g (k : list ascii → Groups → option R) :
  head s ≠ Some c → rmatch (RChar c) s g k = None.
Proof.
  intros Hs. rewrite rmatch_RChar. destruct s as [|c' s]; [done|].
  destruct (Ascii.eqb_spec c c') as [<-|]; [done|done].
Qed.

Lemma SignToken_token_without_step {R} N name rest g
    (k : list ascii → Groups → option R) r :
  is_number N → name_chars name → stops is_name_char rest →
  k rest g = Some r →
  rmatch SignToken.outputTokenRE (N ++ "."%char :: name ++ rest) g k = Some r.
Proof.
  intros HN [Hne Hname] Hrest Hk.
  unfold SignToken.outputTokenRE, SignToken.numberRE, SignToken.signalNameRE.
  rewrite rmatch_RSeq, rmatch_ROpt, rmatch_RSeq, rmatch_ROpt, rmatch_RSeq.
  rewrite (rmatch_number_fails (RChar "-") (@minus_sign) (@minus_sign_digit)
             N _ g _ "/"%char); [|done|done|done|done|].
  - rewrite rmatch_RSeq.
    rewrite (rmatch_number (RChar "-") (@minus_sign) (@minus_sign_digit) N _ g _ r);
      [done|done|done|].
    rewrite rmatch_RChar. simpl Ascii.eqb. cbv iota. by apply rmatch_RPlus_all.
  - intros s' Hs'. by apply rmatch_RChar_fails.
Qed.

Lemma length_text l : String.length (text l) = length l.
Proof. unfold text. induction l as [|c l IH]; simpl; [done|]. by rewrite IH. Qed.

Lemma match_all_from_skip re a : ∀ rest i,
  match_all_from re (length a) (a ++ rest) i
  = match_all_from re 0 rest (length a + i).
Proof.
  induction a as [|c a IH]; intros rest i; [done|]. cbn [length app match_all_from].
  rewrite IH. f_equal. lia.
Qed.

(** A token matched at the head is the first match, and the search goes on
    after it. *)
Lemma match_all_from_token re tok rest i m :
  tok ≠ [] → match_here re (tok ++ rest) i = Some m → matched m = text tok →
  match_all_from re 0 (tok ++ rest) i
  = m :: match_all_from re 0 rest (length tok + i).
Proof.
  intros Hne Hm Hmatched. destruct tok as [|c tok]; [done|].
  rewrite <-app_comm_cons in *. cbn [match_all_from]. rewrite Hm. f_equal.
  rewrite Hmatched, length_text. cbn [length]. rewrite Nat.sub_1_r. cbn [Nat.pred].
  rewrite match_all_from_skip. f_equal. lia.
Qed.

Lemma match_all_from_no_match re c rest i :
  match_here re (c :: rest) i = None →
  match_all_from re 0 (c :: rest) i = match_all_from re 0 rest (S i).
Proof. intros Hm. cbn [match_all_from]. by rewrite Hm. Qed.

(** The match at the head when the regular expression takes [tok] and
    leaves [rest]. *)
Lemma match_here_token re tok rest i groups :
  (∀ (k : list ascii → Groups → option Match) r,
     k rest groups = Some r → rmatch re (tok ++ rest) [] k = Some r) →
  match_here re (tok ++ rest) i
  = Some {| matched := text tok; groups := groups; index := i |}.
Proof.
  intros Hre. unfold match_here. apply Hre. do 2 f_equal.
  rewrite length_app. replace (length tok + length rest - length rest)%nat
    with (length tok) by lia. by rewrite take_app_length.
Qed.

Lemma SignToken_no_token_at_space rest i :
  match_here SignToken.outputTokenRE (" "%char :: rest) i = None.
Proof. reflexivity. Qed.

Lemma SignToken_no_token_at_end i :
  match_all_from SignToken.outputTokenRE 0 [] i = [].
Proof. reflexivity. Qed.

Lemma split_chars_none c cur a :
  c ∉ a → split_chars c cur a = [text (cur ++ a)].
Proof.
  revert cur. induction a as [|x a IH]; intros cur Hc; simpl.
  - by rewrite (right_id_L [] _).
  - apply not_elem_of_cons in Hc as [Hx Ha].
    destruct (Ascii.eqb_spec x c) as [->|]; [done|]. rewrite IH by done.
    by rewrite <-(assoc_L _).
Qed.

Lemma split_chars_one c cur a b :
  c ∉ a → split_chars c cur (a ++ c :: b) = text (cur ++ a) :: split_chars c [] b.
Proof.
  revert cur. induction a as [|x a IH]; intros cur Hc; simpl.
  - rewrite Ascii.eqb_refl. by rewrite (right_id_L [] _).
  - apply not_elem_of_cons in Hc as [Hx Ha].
    destruct (Ascii.eqb_spec x c) as [->|]; [done|]. rewrite IH by done.
    by rewrite <-(assoc_L _).
Qed.

Lemma includes_true c s : c ∈ chars s → includes c s = true.
Proof.
  intros Hc. unfold includes. apply existsb_exists. exists c.
  split; [by apply list_elem_of_In|apply Ascii.eqb_refl].
Qed.

Lemma includes_false c s : c ∉ chars s → includes c s = false.
Proof.
  intros Hc. unfold includes. apply not_true_iff_false.
  intros (x & Hx%list_elem_of_In & Heq%Ascii.eqb_eq)%existsb_exists. by subst.
Qed.

Lemma number_without c N :
  is_number N → is_digit c = false → c ≠ "-"%char → c ∉ N.
Proof.
  intros (ds & _ & Hds & HN) Hc Hminus Hin. rewrite Forall_forall in Hds.
  destruct HN as [->| ->].
  - apply Hds in Hin. congruence.
  - apply elem_of_cons in Hin as [->|Hin]; [done|]. apply Hds in Hin. congruence.
Qed.

Lemma name_without c name :
  Forall (λ c, is_name_char c = true) name → is_name_char c = false → c ∉ name.
Proof. intros Hname Hc Hin. rewrite Forall_forall in Hname. apply Hname in Hin. congruence. Qed.

Lemma number_not_empty N : is_number N → text N ≠ "".
Proof.
  intros (ds & Hne & _ & [->| ->]); [|done]. by destruct ds.
Qed.

Lemma chars_String c (s : string) : chars (String c s) = c :: chars s.
Proof. reflexivity. Qed.

(** A text with one separator is split in two. *)
Lemma split_two c (a b : string) :
  c ∉ chars a → c ∉ chars b → split c (a ++ String c b) = [a; b].
Proof.
  intros Ha Hb. unfold split. rewrite chars_app, chars_String.
  rewrite split_chars_one, split_chars_none by done. simpl. by rewrite !text_chars.
Qed.

Lemma append_String_assoc (a : string) c (b d : string) :
  (a ++ String c (b ++ d) = (a ++ String c b) ++ d)%string.
Proof.
  induction a as [|x a IH]; [done|].
  change (String x (a ++ String c (b ++ d)) = String x ((a ++ String c b) ++ d))%string.
  by f_equal.
Qed.

Lemma Number_toString_without c n :
  is_digit c = false → c ≠ "-"%char → c ∉ chars (Number_toString n).
Proof. apply number_without, Number_toString_number. Qed.

Lemma Number_toString_not_empty n : Number_toString n ≠ "".
Proof.
  rewrite <-(text_chars (Number_toString n)). apply number_not_empty, Number_toString_number.
Qed.

(** The token of an output, read: the output comes after the outputs read
    so far. *)
Lemma SignToken_parse_output_toString outputs depth o :
  is_name (signal o) = true →
  SignToken.parse_output (outputs, depth) (RuleOutput_toString o)
  = (outputs ++ [o],
     if decide (futureStep o = 1) then depth else Z.max depth (futureStep o)).
Proof.
  intros [Hne Hname]%is_name_chars. destruct o as [n name f].
  unfold SignToken.parse_output, RuleOutput_toString.
  cbn [neighbor signal futureStep] in *.
  assert (Hdot : "."%char ∉ chars name) by (by apply name_without).
  destruct (decide (f = 1)) as [->|Hf].
  - rewrite includes_true by (rewrite chars_app; apply elem_of_app; right; left).
    change ("." ++ name)%string with (String "." name).
    rewrite split_two by (done || by apply Number_toString_without).
    cbn [lookup list_lookup default from_option id].
    rewrite includes_false by (by apply Number_toString_without).
    cbv beta iota zeta.
    rewrite decide_False by apply Number_toString_not_empty.
    by rewrite parseInt_Number_toString.
  - rewrite includes_true
      by (rewrite chars_app; apply elem_of_app; right; right;
          rewrite chars_app; apply elem_of_app; right; left).
    change ("." ++ name)%string with (String "." name).
    change ("/" ++ Number_toString f ++ String "." name)%string
      with (String "/" (Number_toString f ++ String "." name)).
    rewrite append_String_assoc, split_two.
    2: { rewrite chars_app, chars_String. intros [Hin|Hin]%elem_of_app.
         - by apply (Number_toString_without "." n).
         - apply elem_of_cons in Hin as [?|Hin]; [done|].
           by apply (Number_toString_without "." f). }
    2: done.
    cbn [lookup list_lookup default from_option id].
    rewrite includes_true by (rewrite chars_app; apply elem_of_app; right; left).
    rewrite split_two by (by apply Number_toString_without).
    cbn [lookup list_lookup default from_option id]. cbv beta iota zeta.
    rewrite decide_False by apply Number_toString_not_empty.
    by rewrite !parseInt_Number_toString.
Qed.

Lemma RuleOutput_toString_chars o :
  chars (RuleOutput_toString o)
  = if decide (futureStep o = 1)
    then chars (Number_toString (neighbor o)) ++ "."%char :: chars (signal o)
    else chars (Number_toString (neighbor o))
         ++ "/"%char :: chars (Number_toString (futureStep o))
         ++ "."%char :: chars (signal o).
Proof.
  unfold RuleOutput_toString. case_decide.
  - by rewrite chars_app.
  - rewrite chars_app. change (chars ("/" ++ ?s)) with ("/"%char :: chars s).
    by rewrite chars_app.
Qed.

Lemma SignToken_match_here_printed o rest i :
  is_name (signal o) = true → stops is_name_char rest →
  match_here SignToken.outputTokenRE (chars (RuleOutput_toString o) ++ rest) i
  = Some {| matched := RuleOutput_toString o; groups := []; index := i |}.
Proof.
  intros Hname%is_name_chars Hrest.
  rewrite <-(text_chars (RuleOutput_toString o)) at 2.
  apply match_here_token. intros k r Hk. rewrite RuleOutput_toString_chars.
  case_decide.
  - rewrite <-(assoc_L (++)), <-app_comm_cons.
    apply SignToken_token_without_step; try done. apply Number_toString_number.
  - rewrite <-(assoc_L (++)), <-app_comm_cons, <-(assoc_L (++)), <-app_comm_cons.
    apply SignToken_token_with_step; try done; apply Number_toString_number.
Qed.

Lemma RuleOutput_toString_not_empty o : chars (RuleOutput_toString o) ≠ [].
Proof.
  rewrite RuleOutput_toString_chars.
  destruct (Number_toString_number (neighbor o)) as (ds & Hne & _ & [->| ->]);
    case_decide; by destruct ds.
Qed.

Lemma chars_join_cons sep (x y : string) l :
  chars (join (String sep "") (x :: y :: l))
  = chars x ++ sep :: chars (join (String sep "") (y :: l)).
Proof. cbn [join]. by rewrite chars_app. Qed.

(** The tokens of the text of the outputs of a rule are the texts of the
    outputs. *)
Lemma SignToken_tokens_of_outputs os : ∀ i,
  Forall (λ o, is_name (signal o) = true) os →
  matched <$> match_all_from SignToken.outputTokenRE 0
                (chars (join " " (map RuleOutput_toString os))) i
  = RuleOutput_toString <$> os.
Proof.
  induction os as [|o os IH]; intros i Hnames; [done|].
  apply Forall_cons in Hnames as [Hname Hnames]. destruct os as [|o' os].
  - cbn [map join]. rewrite <-(right_id_L [] (++) (chars _)).
    rewrite (match_all_from_token _ _ _ _ _ (RuleOutput_toString_not_empty o)
               (SignToken_match_here_printed o [] i Hname I))
      by (cbn [matched]; by rewrite text_chars).
    done.
  - cbn [map]. rewrite chars_join_cons.
    rewrite (match_all_from_token _ _ _ _ _ (RuleOutput_toString_not_empty o)
               (SignToken_match_here_printed o (" "%char :: _) i Hname eq_refl))
      by (cbn [matched]; by rewrite text_chars).
    rewrite match_all_from_no_match by apply SignToken_no_token_at_space.
    rewrite fmap_cons, (fmap_cons RuleOutput_toString o). cbn [matched]. f_equal.
    by apply IH.
Qed.

Lemma SignToken_parse_outputs_toString os : ∀ outputs depth,
  Forall (λ o, is_name (signal o) = true) os → 1 ≤ depth →
  foldl SignToken.parse_output (outputs, depth) (RuleOutput_toString <$> os)
  = (outputs ++ os, Z.max depth (foldr Z.max 1 (futureStep <$> os))).
Proof.
  induction os as [|o os IH]; intros outputs depth Hnames Hdepth.
  - simpl. rewrite (right_id_L [] _). f_equal. lia.
  - apply Forall_cons in Hnames as [Hname Hnames]. rewrite fmap_cons. cbn [foldl].
    rewrite SignToken_parse_output_toString, IH by (done || case_decide; lia).
    rewrite <-(assoc_L (++)). f_equal. rewrite fmap_cons. cbn [foldr].
    case_decide; lia.
Qed.



Lemma either_sign {R} s g (k : list ascii → Groups → option R) :
  rmatch (RClass (is_one_of ["+"; "-"]%char)) ("-"%char :: s) g k = k s g.
Proof. reflexivity. Qed.

Lemma either_sign_digit {R} c s g (k : list ascii → Groups → option R) :
  is_digit c = true → rmatch (RClass (is_one_of ["+"; "-"]%char)) (c :: s) g k = None.
Proof.
  intros Hc. cbn [rmatch]. unfold is_one_of. cbn [existsb].
  destruct (Ascii.eqb_spec c "+") as [->|]; [discriminate|].
  destruct (Ascii.eqb_spec c "-") as [->|]; [discriminate|]. done.
Qed.

(** A group around a number holds the number. *)
Lemma SignedItem_number_group {R} name N rest g (k : list ascii → Groups → option R) r :
  is_number N → stops is_digit rest →
  k rest (g ++ [(name, text N)]) = Some r →
  rmatch (RGroup name SignedItem.signed_number) (N ++ rest) g k = Some r.
Proof.
  intros HN Hrest Hk. rewrite rmatch_RGroup. unfold SignedItem.signed_number.
  apply (rmatch_number _ (@either_sign) (@either_sign_digit)); [done..|].
  rewrite length_app. replace (length N + length rest - length rest)%nat
    with (length N) by lia. by rewrite take_app_length.
Qed.

Lemma SignedItem_number_group_fails {R} name N rest g
    (k : list ascii → Groups → option R) c :
  is_number N → stops is_digit rest → is_digit c = false → head rest ≠ Some c →
  (∀ s' g', head s' ≠ Some c → k s' g' = None) →
  rmatch (RGroup name SignedItem.signed_number) (N ++ rest) g k = None.
Proof.
  intros HN Hrest Hc Hhead Hk. rewrite rmatch_RGroup. unfold SignedItem.signed_number.
  apply (rmatch_number_fails _ (@either_sign) (@either_sign_digit) _ _ _ _ c); [done..|].
  intros s' Hs'. by apply Hk.
Qed.

Lemma SignedItem_name_group {R} name rest g (k : list ascii → Groups → option R) r :
  name_chars name → stops is_name_char rest →
  k rest (g ++ [("signal", text name)]) = Some r →
  rmatch SignedItem.signalNameRE (name ++ rest) g k = Some r.
Proof.
  intros [Hne Hname] Hrest Hk. unfold SignedItem.signalNameRE. rewrite rmatch_RGroup.
  apply rmatch_RPlus_all; [done..|].
  rewrite length_app. replace (length name + length rest - length rest)%nat
    with (length name) by lia. by rewrite take_app_length.
Qed.

Lemma SignedItem_item_with_step {R} N F name rest g
    (k : list ascii → Groups → option R) r :
  is_number N → is_number F → name_chars name → stops is_name_char rest →
  k rest (g ++ [("time", text N); ("coord", text F); ("signal", text name)]) = Some r →
  rmatch SignedItem.outputItemRE (N ++ "/"%char :: F ++ "."%char :: name ++ rest) g k
  = Some r.
Proof.
  intros HN HF Hname Hrest Hk.
  unfold SignedItem.outputItemRE, RE_seq, SignedItem.timeStepRE, SignedItem.coordinateRE.
  cbn [foldl]. rewrite !rmatch_RSeq, rmatch_ROpt, rmatch_RSeq.
  rewrite (SignedItem_number_group "time" N _ g _ r); [done|done|done|].
  rewrite rmatch_RChar. simpl Ascii.eqb. cbv iota. rewrite rmatch_ROpt, rmatch_RSeq.
  rewrite (SignedItem_number_group "coord" F _ _ _ r); [done|done|done|].
  rewrite rmatch_RChar. simpl Ascii.eqb. cbv iota.
  apply SignedItem_name_group; [done..|]. by rewrite <-!(assoc_L (++)).
Qed.

Lemma SignedItem_item_without_step {R} N name rest g
    (k : list ascii → Groups → option R) r :
  is_number N → name_chars name → stops is_name_char rest →
  k rest (g ++ [("coord", text N); ("signal", text name)]) = Some r →
  rmatch SignedItem.outputItemRE (N ++ "."%char :: name ++ rest) g k = Some r.
Proof.
  intros HN Hname Hrest Hk.
  unfold SignedItem.outputItemRE, RE_seq, SignedItem.timeStepRE, SignedItem.coordinateRE.
  cbn [foldl]. rewrite !rmatch_RSeq, rmatch_ROpt, rmatch_RSeq.
  rewrite (SignedItem_number_group_fails "time" N _ g _ "/"%char); [|done|done|done|done|].
  - rewrite rmatch_ROpt, rmatch_RSeq.
    rewrite (SignedItem_number_group "coord" N _ _ _ r); [done|done|done|].
    rewrite rmatch_RChar. simpl Ascii.eqb. cbv iota.
    apply SignedItem_name_group; [done..|]. by rewrite <-!(assoc_L (++)).
  - intros s' g' Hs'. by apply rmatch_RChar_fails.
Qed.

Lemma SignedItem_no_item_at_space rest i :
  match_here SignedItem.outputItemRE (" "%char :: rest) i = None.
Proof. reflexivity. Qed.

Lemma SignedItem_match_here_printed o rest i :
  is_name (signal o) = true → stops is_name_char rest →
  match_here SignedItem.outputItemRE (chars (RuleOutput_toString o) ++ rest) i
  = Some {| matched := RuleOutput_toString o;
            groups :=
              if decide (futureStep o = 1)
              then [("coord", Number_toString (neighbor o)); ("signal", signal o)]
              else [("time", Number_toString (neighbor o));
                    ("coord", Number_toString (futureStep o)); ("signal", signal o)];
            index := i |}.
Proof.
  intros Hname%is_name_chars Hrest.
  rewrite <-(text_chars (RuleOutput_toString o)) at 2.
  apply match_here_token. intros k r Hk. rewrite RuleOutput_toString_chars.
  destruct (decide (futureStep o = 1)).
  - rewrite <-(assoc_L (++)), <-app_comm_cons.
    apply SignedItem_item_without_step; try done; [apply Number_toString_number|].
    by rewrite !text_chars.
  - rewrite <-(assoc_L (++)), <-app_comm_cons, <-(assoc_L (++)), <-app_comm_cons.
    apply SignedItem_item_with_step; try done; try apply Number_toString_number.
    by rewrite !text_chars.
Qed.

Lemma SignedItem_parse_output_printed o i :
  SignedItem.parse_output
    {| matched := RuleOutput_toString o;
       groups :=
         if decide (futureStep o = 1)
         then [("coord", Number_toString (neighbor o)); ("signal", signal o)]
         else [("time", Number_toString (neighbor o));
               ("coord", Number_toString (futureStep o)); ("signal", signal o)];
       index := i |}
  = exchanged o.
Proof.
  unfold SignedItem.parse_output, exchanged. cbn [groups].
  destruct o as [n name f]. cbn [neighbor signal futureStep].
  destruct (decide (f = 1)) as [->|Hf].
  - change (group _ "time") with (@None string).
    change (group _ "coord") with (Some (Number_toString n)).
    change (group _ "signal") with (Some name).
    cbn [SignedItem.or_default default from_option id].
    rewrite decide_False by apply Number_toString_not_empty.
    by rewrite parseInt_Number_toString.
  - change (group _ "time") with (Some (Number_toString n)).
    change (group _ "coord") with (Some (Number_toString f)).
    change (group _ "signal") with (Some name).
    cbn [SignedItem.or_default default from_option id].
    rewrite !decide_False by apply Number_toString_not_empty.
    by rewrite !parseInt_Number_toString.
Qed.

(** The items of the text of the outputs of a rule, read: the outputs, each
    with its neighbor and its step exchanged. *)
Lemma SignedItem_items_of_outputs os : ∀ i,
  Forall (λ o, is_name (signal o) = true) os →
  SignedItem.parse_output
    <$> match_all_from SignedItem.outputItemRE 0
          (chars (join " " (map RuleOutput_toString os))) i
  = exchanged <$> os.
Proof.
  induction os as [|o os IH]; intros i Hnames; [done|].
  apply Forall_cons in Hnames as [Hname Hnames]. destruct os as [|o' os].
  - cbn [map join]. rewrite <-(right_id_L [] (++) (chars _)).
    rewrite (match_all_from_token _ _ _ _ _ (RuleOutput_toString_not_empty o)
               (SignedItem_match_here_printed o [] i Hname I))
      by (cbn [matched]; by rewrite text_chars).
    rewrite fmap_cons, SignedItem_parse_output_printed. done.
  - cbn [map]. rewrite chars_join_cons.
    rewrite (match_all_from_token _ _ _ _ _ (RuleOutput_toString_not_empty o)
               (SignedItem_match_here_printed o (" "%char :: _) i Hname eq_refl))
      by (cbn [matched]; by rewrite text_chars).
    rewrite match_all_from_no_match by apply SignedItem_no_item_at_space.
    rewrite fmap_cons, (fmap_cons exchanged o), SignedItem_parse_output_printed.
    f_equal. by apply IH.
Qed.



(** ** The revision with signed items *)

(** X16: the revision with signed items leaves [maxFutureDepth] at the 1
    its constructor gives it, whatever the steps into the future of the
    outputs it parses. *)
Theorem SignedItem_maxFutureDepth (fuel : nat) (rulesString : string) (a : Automaton) :
  SignedItem.new_Automaton fuel rulesString = Ok a → maxFutureDepth a = 1.
Proof.
  unfold SignedItem.new_Automaton, constructor.
  intros (st & Hlines & Ha)%bind_Ok_inv. injection Ha as <-. simpl.
  apply (for_of_invariant (λ st, parsed_maxFutureDepth st = 1) _ _) with (s' := st)
    in Hlines; [done| |done].
  intros s line s' _ Hs
    [[_ ->]|(condition & outputs & depth & outputsString & _ & Houtputs & -> & _)]%parse_line_rules;
    [done|].
  unfold SignedItem.parseOutputs in Houtputs. by injection Houtputs as _ <-.
Qed.

Lemma SignedItem_maxFutureDepth_witness :
  maxFutureDepth {| rules := [rule_of (Literal "A" 0 0) "B" 0 3];
                    minNeighbor := 0; maxNeighbor := 0; maxFutureDepth := 1 |} = 1.
Proof. apply (SignedItem_maxFutureDepth 10 "A: 3/0.B"). reflexivity. Defined.

Lemma SignedItem_negations_on_leaves_witness :
  negations_on_leaves (Disjunction [Negation (Literal "A" 0 0); Literal "B" 0 0]) = true.
Proof.
  apply (SignedItem_negations_on_leaves 5 ["["; "-A"; "B"; "]"] _ []). reflexivity.
Defined.

(** ** Comments and lines of white space *)

Lemma exec_from_indent_comment l comment : ∀ i,
  index <$> exec_from (RAlt (RClass (λ c, negb (is_space c))) REnd) (l ++ "#"%char :: comment) i
  = index <$> exec_from (RAlt (RClass (λ c, negb (is_space c))) REnd) l i.
Proof.
  induction l as [|x l IH]; intros i; [done|].
  rewrite <-app_comm_cons. cbn [exec_from]. unfold match_here.
  cbn [rmatch]. destruct (is_space x); simpl; [|done]. apply IH.
Qed.

Lemma exec_from_no_comment l : ∀ i,
  "#"%char ∉ l → exec_from (RSeq (RChar "#") (RStar is_dot)) l i = None.
Proof.
  induction l as [|x l IH]; intros i Hl; [done|].
  apply not_elem_of_cons in Hl as [Hx Hl]. cbn [exec_from].
  unfold match_here. cbn [rmatch].
  destruct (Ascii.eqb_spec "#" x) as [<-|]; [done|]. by apply IH.
Qed.

(** The comment starts at the first [#] and runs to the end of the line. *)
Lemma exec_from_comment l comment : ∀ i,
  "#"%char ∉ l → Forall (λ c, is_dot c = true) comment →
  exec_from (RSeq (RChar "#") (RStar is_dot)) (l ++ "#"%char :: comment) i
  = Some {| matched := text ("#"%char :: comment); groups := [];
            index := (i + length l)%nat |}.
Proof.
  induction l as [|x l IH]; intros i Hl Hcomment.
  - cbn [app exec_from]. unfold match_here. rewrite rmatch_RSeq, rmatch_RChar.
    simpl Ascii.eqb. cbv iota. cbn [rmatch]. rewrite run_length_all by done.
    erewrite give_back_first; [reflexivity|]. rewrite drop_all.
    change (length (@nil ascii)) with 0%nat. rewrite Nat.sub_0_r, firstn_all, Nat.add_0_r.
    done.
  - apply not_elem_of_cons in Hl as [Hx Hl]. rewrite <-app_comm_cons. cbn [exec_from].
    replace (match_here (RSeq (RChar "#") (RStar is_dot))
                        (x :: l ++ "#"%char :: comment) i) with (@None Match).
    + rewrite IH by done. do 2 f_equal. simpl. lia.
    + unfold match_here. cbn [rmatch].
      by destruct (Ascii.eqb_spec "#" x) as [<-|].
Qed.

Lemma remove_first_comment (l comment : string) :
  "#"%char ∉ chars l → Forall (λ c, is_dot c = true) (chars comment) →
  remove_first (RSeq (RChar "#") (RStar is_dot)) (l ++ String "#" comment)
  = remove_first (RSeq (RChar "#") (RStar is_dot)) l.
Proof.
  intros Hl Hcomment. unfold remove_first, exec.
  rewrite (exec_from_no_comment (chars l)) by done.
  rewrite chars_app, chars_String, exec_from_comment by done.
  cbn [index matched Nat.add]. rewrite length_text, take_app_length.
  rewrite drop_ge by (rewrite length_app; cbn [length]; lia).
  rewrite (right_id_L [] _). apply text_chars.
Qed.

Lemma search_indent_comment (l comment : string) :
  search (RAlt (RClass (λ c, negb (is_space c))) REnd) (l ++ String "#" comment)
  = search (RAlt (RClass (λ c, negb (is_space c))) REnd) l.
Proof.
  unfold search, exec. rewrite chars_app, chars_String.
  pose proof (exec_from_indent_comment (chars l) (chars comment) 0) as H.
  by destruct (exec_from _ (_ ++ _) _), (exec_from _ (chars l) _);
    simpl in H; try injection H as ->.
Qed.

Lemma includes_false_inv c s : includes c s = false → c ∉ chars s.
Proof.
  intros Hc Hin. by rewrite includes_true in Hc.
Qed.

Lemma drop_while_all {A} (p : A → bool) l : forallb p l = true → drop_while p l = [].
Proof.
  induction l as [|x l IH]; simpl.
  - done.
  - intros [Hx Hl]%andb_true_iff. rewrite Hx. by apply IH.
Qed.



(** ** The text of a condition, read again *)

(** The clauses the parser with sign tokens reads back from their text. *)
(** The tokens of the text of a clause. *)
Lemma rmatch_RAlt {R} r1 r2 s g (k : list ascii → Groups → option R) :
  rmatch (RAlt r1 r2) s g k
  = match rmatch r1 s g k with Some res => Some res | None => rmatch r2 s g k end.
Proof. reflexivity. Qed.

Lemma SignToken_match_here_name name rest i :
  name_chars name → stops is_name_char rest →
  match_here SignToken.conditionTokenRE (name ++ rest) i
  = Some {| matched := text name; groups := []; index := i |}.
Proof.
  intros [Hne Hname] Hrest. apply match_here_token. intros k r Hk.
  unfold SignToken.conditionTokenRE, SignToken.signalNameRE.
  destruct name as [|x name]; [done|]. apply Forall_cons in Hname as Hx.
  destruct Hx as [Hx _].
  rewrite !rmatch_RAlt, !rmatch_RChar_fails
    by (rewrite <-app_comm_cons; simpl; intros [= ->]; discriminate).
  by apply rmatch_RPlus_all.
Qed.

Lemma SignToken_match_here_mark c rest i :
  c ∈ ["("; ")"; "["; "]"; "-"]%char →
  match_here SignToken.conditionTokenRE (c :: rest) i
  = Some {| matched := String c ""; groups := []; index := i |}.
Proof.
  intros Hc. apply (match_here_token _ [c]). intros k r Hk.
  unfold SignToken.conditionTokenRE. cbn [app].
  repeat (apply elem_of_cons in Hc as [->|Hc]); [..|by apply elem_of_nil in Hc];
    cbn [rmatch]; simpl Ascii.eqb; cbv iota; by rewrite Hk.
Qed.

Lemma SignToken_no_mark_at_space rest i :
  match_here SignToken.conditionTokenRE (" "%char :: rest) i = None.
Proof. reflexivity. Qed.

Lemma match_all_from_mark c rest i :
  c ∈ ["("; ")"; "["; "]"; "-"]%char →
  matched <$> match_all_from SignToken.conditionTokenRE 0 (c :: rest) i
  = String c "" :: (matched <$> match_all_from SignToken.conditionTokenRE 0 rest (S i)).
Proof.
  intros Hc. change (c :: rest) with ([c] ++ rest).
  rewrite (match_all_from_token _ [c] rest i _ ltac:(done)
             (SignToken_match_here_mark c rest i Hc)) by done.
  by rewrite fmap_cons.
Qed.

Lemma tokenizes_join subclauses :
  Forall (λ c, readable c = true → tokenizes (Clause_toString c) (Clause_tokens c))
         subclauses →
  forallb readable subclauses = true →
  tokenizes (join " " (map Clause_toString subclauses))
            (flat_map Clause_tokens subclauses).
Proof.
  induction 1 as [|c l Hc Hl IH]; intros Hreadable rest i Hrest.
  - by exists i.
  - cbn [forallb] in Hreadable. apply andb_true_iff in Hreadable as [Hreadable Hrest'].
    cbn [flat_map]. destruct l as [|c' l].
    + cbn [map join flat_map]. rewrite (right_id_L [] _). by apply Hc.
    + change (map Clause_toString (c :: c' :: l))
        with (Clause_toString c :: Clause_toString c' :: map Clause_toString l).
      rewrite chars_join_cons.
      change (Clause_toString c' :: map Clause_toString l)
        with (map Clause_toString (c' :: l)).
      rewrite <-(assoc_L (++)), <-app_comm_cons.
      destruct (Hc Hreadable (" "%char :: chars (join " " (map Clause_toString (c' :: l)))
                               ++ rest) i eq_refl) as [j ->].
      rewrite match_all_from_no_match by apply SignToken_no_mark_at_space.
      destruct (IH Hrest' rest (S j) Hrest) as [j' ->].
      exists j'. by rewrite <-(assoc_L (++)).
Qed.

Lemma tokenizes_group (open close : ascii) (s : string) tokens :
  open ∈ ["("; ")"; "["; "]"; "-"]%char → close ∈ ["("; ")"; "["; "]"; "-"]%char →
  is_name_char close = false →
  tokenizes s tokens →
  tokenizes (String open s ++ String close "")
            (String open "" :: tokens ++ [String close ""]).
Proof.
  intros Hopen Hclose Hstop Hs rest i Hrest.
  rewrite chars_app, !chars_String, <-(assoc_L (++)), <-app_comm_cons.
  change ((close :: chars "") ++ rest) with ([close] ++ rest).
  rewrite match_all_from_mark by done.
  destruct (Hs ([close] ++ rest) (S i) Hstop) as [j ->]. cbn [app].
  rewrite match_all_from_mark by done. exists (S j).
  by rewrite <-(assoc_L (++)).
Qed.

(** The tokens of the text of a clause are [Clause_tokens] of it. *)
Lemma tokenizes_Clause c :
  readable c = true → tokenizes (Clause_toString c) (Clause_tokens c).
Proof.
  induction c as [|c IH|l IH|l IH|s p t] using Clause_ind'; cbn [readable].
  - done.
  - intros [Hc _]%andb_true_iff rest i Hrest. cbn [Clause_toString Clause_tokens].
    change (chars ("-" ++ Clause_toString c)) with ("-"%char :: chars (Clause_toString c)).
    rewrite <-app_comm_cons, match_all_from_mark by set_solver.
    destruct (IH Hc rest (S i) Hrest) as [j ->]. by exists j.
  - intros [[Hl _]%andb_true_iff _]%andb_true_iff. cbn [Clause_toString Clause_tokens].
    apply (tokenizes_group "(" ")"); [set_solver|set_solver|done|].
    by apply tokenizes_join.
  - intros [[Hl _]%andb_true_iff _]%andb_true_iff. cbn [Clause_toString Clause_tokens].
    apply (tokenizes_group "[" "]"); [set_solver|set_solver|done|].
    by apply tokenizes_join.
  - intros [[Hs Hp%bool_decide_eq_true]%andb_true_iff _]%andb_true_iff rest i Hrest.
    cbn [Clause_toString Clause_tokens]. rewrite decide_True by done.
    rewrite (match_all_from_token _ _ _ _ _ (proj1 (is_name_chars s Hs))
               (SignToken_match_here_name _ rest i (is_name_chars s Hs) Hrest))
      by done.
    eexists. by rewrite fmap_cons, text_chars.
Qed.

Lemma SignToken_read_minus fuel tokens :
  SignToken.readConditionTokens_fuel (S fuel) ("-" :: tokens)
  = SignToken.readConditionTokens_fuel fuel tokens
    ≫= λ '(negatedCondition, rest),
         match negatedCondition with
         | Negation subclause => Ok (subclause, rest)
         | _ => Ok (Negation negatedCondition, rest)
         end.
Proof. reflexivity. Qed.

Lemma is_name_not_mark s c :
  is_name s = true → is_name_char c = false → s ≠ String c "".
Proof.
  intros [_ Hs]%is_name_chars Hc ->. apply Forall_cons in Hs as [Hs _]. congruence.
Qed.

Lemma SignToken_read_name fuel s tokens :
  is_name s = true →
  SignToken.readConditionTokens_fuel (S fuel) (s :: tokens) = Ok (Literal s 0 0, tokens).
Proof.
  intros Hs. cbn [SignToken.readConditionTokens_fuel].
  by rewrite !decide_False by (by apply is_name_not_mark).
Qed.

Lemma readable_head c :
  readable c = true →
  ∃ first more, Clause_tokens c = first :: more ∧ first ≠ ")" ∧ first ≠ "]".
Proof.
  destruct c as [|c|l|l|s p t]; cbn [readable Clause_tokens]; [done|..].
  - by eexists _, _.
  - by eexists _, _.
  - by eexists _, _.
  - intros [[Hs _]%andb_true_iff _]%andb_true_iff. exists s, [].
    split; [done|]. split; by apply is_name_not_mark.
Qed.

Lemma read_group_children read guard close subs : ∀ n acc rest,
  (length subs ≤ n)%nat →
  Forall (λ c, (∀ rest', read (Clause_tokens c ++ rest') = Ok (c, rest'))
               ∧ ∃ first more, Clause_tokens c = first :: more ∧ first ≠ close) subs →
  read_group read guard close n acc (flat_map Clause_tokens subs ++ close :: rest)
  = Ok (acc ++ subs, rest).
Proof.
  induction subs as [|c l IH]; intros n acc rest Hn Hsubs.
  - cbn [flat_map app]. by rewrite read_group_closes, (right_id_L [] _).
  - apply Forall_cons in Hsubs as [[Hread (first & more & Htokens & Hfirst)] Hsubs].
    destruct n as [|n]; [simpl in Hn; lia|].
    cbn [flat_map]. rewrite <-(assoc_L (++)).
    pose proof (Hread (flat_map Clause_tokens l ++ close :: rest)) as Hc.
    rewrite Htokens in Hc |- *. rewrite <-app_comm_cons in Hc |- *.
    rewrite read_group_reads, Hc by done. cbn.
    rewrite IH by (done || simpl in Hn; lia). by rewrite <-(assoc_L (++)).
Qed.

Lemma length_flat_map_tokens subs :
  forallb readable subs = true →
  (length subs ≤ length (flat_map Clause_tokens subs))%nat.
Proof.
  induction subs as [|c l IH]; [done|]. cbn [forallb flat_map].
  intros [Hc Hl]%andb_true_iff. rewrite length_app. cbn [length].
  destruct (readable_head c Hc) as (first & more & -> & _). specialize (IH Hl).
  simpl. lia.
Qed.

Lemma new_Conjunction_plain subs :
  forallb (λ s, negb (is_Conjunction s)) subs = true →
  new_Conjunction subs = Conjunction subs.
Proof.
  intros Hplain. rewrite new_Conjunction_spliced. f_equal.
  induction subs as [|c l IH]; [done|]. cbn [forallb] in Hplain.
  apply andb_true_iff in Hplain as [Hc Hl]. cbn [flat_map]. rewrite IH by done.
  by destruct c.
Qed.

Lemma new_Disjunction_plain subs :
  forallb (λ s, negb (is_Disjunction s)) subs = true →
  new_Disjunction subs = Disjunction subs.
Proof.
  intros Hplain. destruct (new_Disjunction_returns subs) as (l & Hl & ->). f_equal.
  destruct subs as [|c rest].
  { destruct (clauses_size []); by injection Hl as <-. }
  assert (Forall (λ c, is_Disjunction c = false) (c :: rest)) as Hall.
  { apply Forall_forall. intros x Hx%list_elem_of_In.
    apply (proj1 (forallb_forall _ _) Hplain) in Hx. by destruct (is_Disjunction x). }
  apply Forall_cons in Hall as [Hc Hall].
  destruct (clauses_size (c :: rest)) as [|fuel]; [discriminate|].
  destruct c; try discriminate; cbn [Disjunction_loop] in Hl;
    by apply Disjunction_loop_plain in Hl.
Qed.

(** [readConditionTokens] takes the tokens of a clause off the head and
    returns the clause; a unit of fuel by token is enough. *)
Lemma SignToken_reads_tokens c :
  readable c = true →
  ∀ fuel rest, (length (Clause_tokens c) ≤ fuel)%nat →
    SignToken.readConditionTokens_fuel fuel (Clause_tokens c ++ rest) = Ok (c, rest).
Proof.
  induction c as [|c IH|l IH|l IH|s p t] using Clause_ind'; cbn [readable]; [done|..].
  - intros [Hc Hneg]%andb_true_iff fuel rest Hfuel. cbn [Clause_tokens length] in *.
    destruct fuel as [|fuel]; [lia|]. rewrite <-app_comm_cons, SignToken_read_minus.
    rewrite IH by (done || lia). cbn. by destruct c.
  - intros [[Hl Hplain]%andb_true_iff Hlen]%andb_true_iff fuel rest Hfuel.
    cbn [Clause_tokens length] in *. rewrite length_app in Hfuel. cbn [length] in Hfuel.
    destruct fuel as [|fuel]; [lia|].
    rewrite <-app_comm_cons, <-(assoc_L (++)), SignToken_read_parenthesis. cbn [app].
    rewrite read_group_children.
    + cbn. rewrite new_Conjunction_plain by done.
      by destruct l as [|c1 [|c2 l]].
    + pose proof (length_flat_map_tokens l Hl). lia.
    + apply Forall_forall. intros c Hc.
      assert (readable c = true) as Hreadable
        by (apply (proj1 (forallb_forall _ _) Hl); by apply list_elem_of_In).
      split.
      * intros rest'. rewrite Forall_forall in IH. apply IH; [done..|].
        assert (length (Clause_tokens c) ≤ length (flat_map Clause_tokens l))%nat; [|lia].
        clear -Hc. induction Hc as [|x y l' Hc IHc]; cbn [flat_map];
          rewrite length_app; lia.
      * destruct (readable_head c Hreadable) as (first & more & ? & ? & ?).
        by exists first, more.
  - intros [[Hl Hplain]%andb_true_iff Hlen]%andb_true_iff fuel rest Hfuel.
    cbn [Clause_tokens length] in *. rewrite length_app in Hfuel. cbn [length] in Hfuel.
    destruct fuel as [|fuel]; [lia|].
    rewrite <-app_comm_cons, <-(assoc_L (++)), SignToken_read_bracket. cbn [app].
    rewrite read_group_children.
    + cbn. rewrite new_Disjunction_plain by done.
      by destruct l as [|c1 [|c2 l]].
    + pose proof (length_flat_map_tokens l Hl). lia.
    + apply Forall_forall. intros c Hc.
      assert (readable c = true) as Hreadable
        by (apply (proj1 (forallb_forall _ _) Hl); by apply list_elem_of_In).
      split.
      * intros rest'. rewrite Forall_forall in IH. apply IH; [done..|].
        assert (length (Clause_tokens c) ≤ length (flat_map Clause_tokens l))%nat; [|lia].
        clear -Hc. induction Hc as [|x y l' Hc IHc]; cbn [flat_map];
          rewrite length_app; lia.
      * destruct (readable_head c Hreadable) as (first & more & ? & ? & ?).
        by exists first, more.
  - intros [[Hs ->%bool_decide_eq_true]%andb_true_iff ->%bool_decide_eq_true]%andb_true_iff
      fuel rest Hfuel.
    cbn [Clause_tokens length app] in *. destruct fuel as [|fuel]; [lia|].
    by apply SignToken_read_name.
Qed.

Lemma SignToken_parseCondition_toString c :
  readable c = true → SignToken.parseCondition (Clause_toString c) = Ok c.
Proof.
  intros Hc. unfold SignToken.parseCondition, match_all, match_all_groups.
  destruct (tokenizes_Clause c Hc [] 0%nat I) as [j Htokens].
  rewrite (right_id_L [] (++) (chars _)) in Htokens.
  change (matched <$> match_all_from SignToken.conditionTokenRE 0 [] j)
    with (@nil string) in Htokens.
  rewrite (right_id_L [] (++)) in Htokens.
  destruct (readable_head c Hc) as (first & more & Hhead & _).
  destruct (match_all_from _ _ _ _) as [|m ms]; [by rewrite Hhead in Htokens|].
  rewrite Htokens. unfold SignToken.readConditionTokens.
  rewrite <-(right_id_L [] (++) (Clause_tokens c)) at 2.
  rewrite SignToken_reads_tokens by (done || lia). done.
Qed.

(** X19: in the revision with sign tokens, [parseCondition] reads the text
    [toString] gives to a clause back into this clause, when the clause is
    one the parser builds from a text: literals at position 0 and time
    step 0 on names it can read, no Negation of a Negation, no group of one
    subclause, no Conjunction inside a Conjunction nor Disjunction inside
    a Disjunction, no empty clause. *)
Theorem SignToken_condition_round_trip (c : Clause) :
  readable c = true → SignToken.parseCondition (Clause_toString c) = Ok c.
Proof. apply SignToken_parseCondition_toString. Qed.

Lemma SignToken_condition_round_trip_witness :
  SignToken.parseCondition
    (Clause_toString
       (Conjunction [Literal "A" 0 0;
                     Negation (Disjunction [Literal "B" 0 0; Literal "C" 0 0]);
                     Disjunction []]))
  = Ok (Conjunction [Literal "A" 0 0;
                     Negation (Disjunction [Literal "B" 0 0; Literal "C" 0 0]);
                     Disjunction []]).
Proof. apply SignToken_condition_round_trip. reflexivity. Defined.

(** ** The text of an automaton, read again *)

Lemma name_char_plain c : is_name_char c = true → plain c = true.
Proof.
  intros Hc. unfold plain.
  destruct (Ascii.eqb_spec c ":") as [->|]; [discriminate|].
  destruct (Ascii.eqb_spec c "#") as [->|]; [discriminate|].
  destruct (Ascii.eqb_spec c "010") as [->|]; [discriminate|]. done.
Qed.

Lemma name_char_not_space c : is_name_char c = true → is_space c = false.
Proof.
  intros Hc. destruct c as [[] [] [] [] [] [] [] []]; try done.
Qed.

Lemma digit_plain c : is_digit c = true → plain c = true.
Proof.
  intros Hc. unfold plain.
  destruct (Ascii.eqb_spec c ":") as [->|]; [discriminate|].
  destruct (Ascii.eqb_spec c "#") as [->|]; [discriminate|].
  destruct (Ascii.eqb_spec c "010") as [->|]; [discriminate|]. done.
Qed.

Lemma number_plain N : is_number N → Forall (λ c, plain c = true) N.
Proof.
  intros (ds & _ & Hds & HN).
  assert (Forall (λ c, plain c = true) ds) as Hplain
    by (eapply Forall_impl; [exact Hds|]; apply digit_plain).
  destruct HN as [->| ->]; [done|]. by constructor.
Qed.

Lemma name_plain s : is_name s = true → Forall (λ c, plain c = true) (chars s).
Proof.
  intros [_ Hs]%is_name_chars. eapply Forall_impl; [exact Hs|]. apply name_char_plain.
Qed.

Lemma RuleOutput_toString_plain o :
  is_name (signal o) = true → Forall (λ c, plain c = true) (chars (RuleOutput_toString o)).
Proof.
  intros Hs%name_plain. rewrite RuleOutput_toString_chars.
  pose proof (number_plain _ (Number_toString_number (neighbor o))).
  pose proof (number_plain _ (Number_toString_number (futureStep o))).
  case_decide.
  - apply Forall_app; split; [done|]. by constructor.
  - apply Forall_app; split; [done|]. constructor; [done|].
    apply Forall_app; split; [done|]. by constructor.
Qed.

Lemma join_plain (l : list string) :
  Forall (λ s, Forall (λ c, plain c = true) (chars s)) l →
  Forall (λ c, plain c = true) (chars (join " " l)).
Proof.
  induction 1 as [|s l Hs Hl IH]; [done|]. destruct l as [|s' l]; [done|].
  rewrite chars_join_cons. apply Forall_app; split; [done|]. by constructor.
Qed.

Lemma Clause_toString_plain c :
  readable c = true → Forall (λ x, plain x = true) (chars (Clause_toString c)).
Proof.
  induction c as [|c IH|l IH|l IH|s p t] using Clause_ind';
    cbn [readable Clause_toString]; [done|..].
  - intros [Hc _]%andb_true_iff. change (chars ("-" ++ ?s)) with ("-"%char :: chars s).
    constructor; [done|]. by apply IH.
  - intros [[Hl _]%andb_true_iff _]%andb_true_iff.
    change (chars ("(" ++ ?s)) with ("("%char :: chars s). rewrite chars_app.
    constructor; [done|]. apply Forall_app; split; [|by repeat constructor].
    apply join_plain. apply Forall_fmap, Forall_forall. intros c Hc.
    rewrite Forall_forall in IH. apply IH; [done|].
    apply (proj1 (forallb_forall _ _) Hl). by apply list_elem_of_In.
  - intros [[Hl _]%andb_true_iff _]%andb_true_iff.
    change (chars ("[" ++ ?s)) with ("["%char :: chars s). rewrite chars_app.
    constructor; [done|]. apply Forall_app; split; [|by repeat constructor].
    apply join_plain. apply Forall_fmap, Forall_forall. intros c Hc.
    rewrite Forall_forall in IH. apply IH; [done|].
    apply (proj1 (forallb_forall _ _) Hl). by apply list_elem_of_In.
  - intros [[Hs ->%bool_decide_eq_true]%andb_true_iff _]%andb_true_iff.
    rewrite decide_True by done. by apply name_plain.
Qed.

Lemma Clause_toString_head c :
  readable c = true →
  ∃ x more, chars (Clause_toString c) = x :: more ∧ is_space x = false.
Proof.
  destruct c as [|c|l|l|s p t]; cbn [readable Clause_toString]; [done|..].
  - by eexists _, _.
  - by eexists _, _.
  - by eexists _, _.
  - intros [[Hs ->%bool_decide_eq_true]%andb_true_iff _]%andb_true_iff.
    rewrite decide_True by done. apply is_name_chars in Hs as [Hne Hs].
    destruct (chars s) as [|x more]; [done|]. apply Forall_cons in Hs as [Hx _].
    exists x, more. split; [done|]. by apply name_char_not_space.
Qed.

Lemma RuleOutput_toString_last o :
  is_name (signal o) = true →
  ∃ more z, chars (RuleOutput_toString o) = more ++ [z] ∧ is_space z = false.
Proof.
  intros [Hne Hs]%is_name_chars. rewrite RuleOutput_toString_chars.
  destruct (exists_last Hne) as (name & z & Hname). rewrite Hname in Hs |- *.
  apply Forall_app in Hs as [_ [Hz%name_char_not_space _]%Forall_cons].
  case_decide.
  - exists (chars (Number_toString (neighbor o)) ++ "."%char :: name), z.
    split; [|done]. by rewrite <-(assoc_L (++)).
  - exists (chars (Number_toString (neighbor o)) ++ "/"%char
            :: chars (Number_toString (futureStep o)) ++ "."%char :: name), z.
    split; [|done]. rewrite <-(assoc_L (++)). cbn [app]. by rewrite <-(assoc_L (++)).
Qed.

Lemma outputs_text_last os :
  os ≠ [] → Forall (λ o, is_name (signal o) = true) os →
  ∃ more z, chars (join " " (map RuleOutput_toString os)) = more ++ [z]
            ∧ is_space z = false.
Proof.
  induction os as [|o os IH]; intros Hne Hos; [done|].
  apply Forall_cons in Hos as [Ho Hos]. destruct os as [|o' os].
  - by apply RuleOutput_toString_last.
  - destruct IH as (more & z & Hmore & Hz); [done..|].
    change (map RuleOutput_toString (o :: o' :: os))
      with (RuleOutput_toString o :: RuleOutput_toString o' :: map RuleOutput_toString os).
    rewrite chars_join_cons.
    change (RuleOutput_toString o' :: map RuleOutput_toString os)
      with (map RuleOutput_toString (o' :: os)).
    rewrite Hmore. exists (chars (RuleOutput_toString o) ++ " "%char :: more), z.
    split; [|done]. by rewrite <-(assoc_L (++)).
Qed.

(** [trim] leaves a text alone that neither starts nor ends with white
    space. *)
Lemma trim_chars x mid z :
  is_space x = false → is_space z = false →
  trim (text (x :: mid ++ [z])) = text (x :: mid ++ [z]).
Proof.
  intros Hx Hz. unfold trim. rewrite chars_text. cbn [drop_while]. rewrite Hx.
  rewrite app_comm_cons, reverse_snoc. cbn [drop_while]. rewrite Hz.
  by rewrite <-reverse_snoc, reverse_involutive.
Qed.

Lemma search_indent_none x more :
  is_space x = false →
  search (RAlt (RClass (λ c, negb (is_space c))) REnd) (text (x :: more)) = 0%nat.
Proof.
  intros Hx. unfold search, exec. rewrite chars_text. cbn [exec_from].
  unfold match_here. cbn [rmatch]. by rewrite Hx.
Qed.

Lemma plain_without c l :
  plain c = false → Forall (λ x, plain x = true) l → c ∉ l.
Proof. intros Hc Hl Hin. rewrite Forall_forall in Hl. apply Hl in Hin. congruence. Qed.

Lemma remove_first_no_comment s :
  "#"%char ∉ chars s → remove_first (RSeq (RChar "#") (RStar is_dot)) s = s.
Proof. intros Hs. unfold remove_first, exec. by rewrite exec_from_no_comment. Qed.

Lemma SignToken_parseOutputs_after_space os depth :
  os ≠ [] → Forall (λ o, is_name (signal o) = true) os → 1 ≤ depth →
  SignToken.parseOutputs depth (String " " (join " " (map RuleOutput_toString os)))
  = Ok (os, Z.max depth (foldr Z.max 1 (futureStep <$> os))).
Proof.
  intros Hne Hnames Hdepth. unfold SignToken.parseOutputs, match_all, match_all_groups.
  rewrite chars_String, match_all_from_no_match by apply SignToken_no_token_at_space.
  pose proof (SignToken_tokens_of_outputs os 1%nat Hnames) as Htokens.
  destruct (match_all_from _ _ _ _) as [|m ms].
  - by destruct os.
  - rewrite Htokens. by rewrite SignToken_parse_outputs_toString.
Qed.

Lemma Rule_toString_chars rule :
  printable rule = true →
  ∃ x mid z, Rule_toString rule = text (x :: mid ++ [z])
             ∧ is_space x = false ∧ is_space z = false.
Proof.
  intros [[Hc Hne]%andb_true_iff Hnames]%andb_true_iff.
  destruct (Clause_toString_head _ Hc) as (x & cmore & Hhead & Hx).
  destruct (outputs_text_last (outputs rule)) as (omore & z & Hlast & Hz).
  { by destruct (outputs rule). }
  { apply Forall_forall. intros o Ho%list_elem_of_In.
    by apply (proj1 (forallb_forall _ _) Hnames). }
  exists x, (cmore ++ ":"%char :: " "%char :: omore), z. split; [|done].
  rewrite <-(text_chars (Rule_toString rule)). f_equal. unfold Rule_toString.
  rewrite chars_app. change (chars (": " ++ ?s)) with (":"%char :: " "%char :: chars s).
  rewrite Hhead, Hlast. cbn [app]. by rewrite <-(assoc_L (++)).
Qed.

Lemma Rule_toString_colon rule :
  Rule_toString rule
  = (Clause_toString (condition rule)
     ++ String ":" (String " " (join " " (map RuleOutput_toString (outputs rule)))))%string.
Proof. reflexivity. Qed.

Lemma drop_while_nat_all (stack : list StackEntry) :
  drop_while (λ e, bool_decide (0 ≤ entry_indent e)%nat) stack = [].
Proof.
  apply drop_while_all, forallb_forall. intros e _. apply bool_decide_eq_true. lia.
Qed.

(** The line of a rule, read by the constructor: the stack is emptied, since
    the line has no indentation, and the rule comes after the rules read so
    far. *)
Lemma parse_line_printed st rule :
  printable rule = true → 1 ≤ parsed_maxFutureDepth st →
  parse_line SignToken.parseCondition SignToken.parseOutputs st (Rule_toString rule)
  = Ok {| parsed_rules := parsed_rules st ++ [rule];
          parsed_maxFutureDepth :=
            Z.max (parsed_maxFutureDepth st)
                  (foldr Z.max 1 (futureStep <$> outputs rule));
          conditionsStack :=
            [{| entry_condition := condition rule; entry_indent := 0 |}] |}.
Proof.
  intros Hrule Hdepth.
  destruct (Rule_toString_chars rule Hrule) as (x & mid & z & Htext & Hx & Hz).
  apply andb_true_iff in Hrule as [[Hc Hne]%andb_true_iff Hnames].
  assert (Hne' : outputs rule ≠ []) by (by destruct (outputs rule)).
  assert (Hos : Forall (λ o, is_name (signal o) = true) (outputs rule)).
  { apply Forall_forall. intros o Ho%list_elem_of_In.
    by apply (proj1 (forallb_forall _ _) Hnames). }
  assert (Hcond : Forall (λ c, plain c = true) (chars (Clause_toString (condition rule))))
    by (by apply Clause_toString_plain).
  assert (Houts : Forall (λ c, plain c = true)
                         (chars (join " " (map RuleOutput_toString (outputs rule))))).
  { apply join_plain, Forall_fmap. eapply Forall_impl; [exact Hos|].
    intros o. apply RuleOutput_toString_plain. }
  assert (Hcomment : "#"%char ∉ chars (Rule_toString rule)).
  { rewrite Rule_toString_colon, chars_app, !chars_String.
    intros [Hin|Hin]%elem_of_app; [by apply (plain_without "#" _ eq_refl Hcond)|].
    repeat (apply elem_of_cons in Hin as [?|Hin]; [done|]).
    by apply (plain_without "#" _ eq_refl Houts). }
  unfold parse_line. rewrite remove_first_no_comment by done.
  rewrite Htext, search_indent_none, trim_chars by done.
  rewrite decide_False by (rewrite length_text; cbn [length]; lia).
  rewrite <-Htext, Rule_toString_colon.
  rewrite includes_true by (rewrite chars_app, chars_String; apply elem_of_app; right; left).
  rewrite split_two.
  2: by apply (plain_without ":" _ eq_refl Hcond).
  2: { rewrite chars_String. intros [?|Hin]%elem_of_cons; [done|].
       by apply (plain_without ":" _ eq_refl Houts). }
  cbn [lookup list_lookup default from_option id].
  rewrite decide_False.
  2: { destruct (Clause_toString_head _ Hc) as (y & more & Hhead & _). intros Hempty.
       by rewrite Hempty in Hhead. }
  rewrite SignToken_parseCondition_toString by done. cbn [mbind result_bind].
  rewrite drop_while_nat_all. rewrite decide_False by done.
  rewrite SignToken_parseOutputs_after_space by done. by destruct rule.
Qed.

(** Lines joined by line feeds are split back into the lines. *)
Lemma split_lines (line : string) (lines : list string) :
  Forall (λ l, "010"%char ∉ chars l) (line :: lines) →
  split "010" (join (String "010" "") (line :: lines)) = line :: lines.
Proof.
  revert line. induction lines as [|line' lines IH]; intros line Hlines.
  - apply Forall_cons in Hlines as [Hline _]. cbn [join]. unfold split.
    rewrite split_chars_none by done. cbn [app]. by rewrite text_chars.
  - apply Forall_cons in Hlines as [Hline Hlines]. unfold split in *.
    rewrite chars_join_cons, split_chars_one by done. cbn [app].
    by rewrite text_chars, IH.
Qed.

(** The lines of the rules, read one after the other. *)
Lemma for_of_printed rs : ∀ st,
  Forall (λ rule, printable rule = true) rs → 1 ≤ parsed_maxFutureDepth st →
  ∃ st', for_of (parse_line SignToken.parseCondition SignToken.parseOutputs)
                (map Rule_toString rs) st = Ok st'
         ∧ parsed_rules st' = parsed_rules st ++ rs
         ∧ parsed_maxFutureDepth st'
           = Z.max (parsed_maxFutureDepth st) (foldr Z.max 1 (futureSteps rs)).
Proof.
  induction rs as [|rule rs IH]; intros st Hrs Hdepth.
  - exists st. cbn. rewrite (right_id_L [] _). split; [done|]. split; [done|]. lia.
  - apply Forall_cons in Hrs as [Hrule Hrs]. cbn [map for_of].
    rewrite parse_line_printed by done. cbn [mbind result_bind].
    destruct (IH {| parsed_rules := parsed_rules st ++ [rule];
                    parsed_maxFutureDepth :=
                      Z.max (parsed_maxFutureDepth st)
                            (foldr Z.max 1 (futureStep <$> outputs rule));
                    conditionsStack :=
                      [{| entry_condition := condition rule; entry_indent := 0 |}] |})
      as (st' & Hrun & Hrules & Hdepth'); [done|cbn [parsed_maxFutureDepth]; lia|].
    exists st'. split; [done|]. rewrite Hrules, Hdepth'.
    cbn [parsed_rules parsed_maxFutureDepth].
    split; [by rewrite <-(assoc_L (++))|].
    change (futureSteps (rule :: rs))
      with ((futureStep <$> outputs rule) ++ futureSteps rs).
    rewrite foldr_max_app. lia.
Qed.

Lemma Rule_toString_one_line rule :
  printable rule = true → "010"%char ∉ chars (Rule_toString rule).
Proof.
  intros [[Hc Hne]%andb_true_iff Hnames]%andb_true_iff.
  rewrite Rule_toString_colon, chars_app, !chars_String.
  intros [Hin|Hin]%elem_of_app.
  - by apply (plain_without "010" _ eq_refl (Clause_toString_plain _ Hc)).
  - repeat (apply elem_of_cons in Hin as [?|Hin]; [done|]).
    apply (plain_without "010" (chars (join " " (map RuleOutput_toString (outputs rule))))
             eq_refl); [|done].
    apply join_plain, Forall_fmap, Forall_forall. intros o Ho%list_elem_of_In.
    apply RuleOutput_toString_plain. by apply (proj1 (forallb_forall _ _) Hnames).
Qed.



(** ** The text of a negated literal, read by the revision with signed items *)

Lemma name_char_not_sign c :
  is_name_char c = true → is_one_of ["+"; "-"]%char c = false.
Proof.
  intros Hc. unfold is_one_of. cbn [existsb].
  destruct (Ascii.eqb_spec c "+") as [->|]; [discriminate|].
  destruct (Ascii.eqb_spec c "-") as [->|]; [discriminate|]. done.
Qed.

Lemma rmatch_RClass {R} p c s g (k : list ascii → Groups → option R) :
  rmatch (RClass p) (c :: s) g k = if p c then k s g else None.
Proof. reflexivity. Qed.

(** An item [coord.name]: no time, no sign. *)
Lemma SignedItem_item_at_coordinate {R} N name rest g
    (k : list ascii → Groups → option R) r :
  is_number N → name_chars name → stops is_name_char rest →
  k rest (g ++ [("coord", text N); ("signal", text name)]) = Some r →
  rmatch SignedItem.conditionItemRE (N ++ "."%char :: name ++ rest) g k = Some r.
Proof.
  intros HN Hname Hrest Hk.
  unfold SignedItem.conditionItemRE, RE_seq, SignedItem.timeStepRE,
    SignedItem.coordinateRE, SignedItem.signRE.
  cbn [foldl]. rewrite !rmatch_RSeq, rmatch_ROpt, rmatch_RSeq.
  rewrite (SignedItem_number_group_fails "time" N _ g _ "/"%char); [|done|done|done|done|].
  - rewrite rmatch_ROpt, rmatch_RSeq.
    rewrite (SignedItem_number_group "coord" N _ _ _ r); [done|done|done|].
    rewrite rmatch_RChar. simpl Ascii.eqb. cbv iota.
    rewrite rmatch_ROpt. destruct Hname as [Hne Hname].
    destruct name as [|x name]; [done|]. apply Forall_cons in Hname as Hx.
    destruct Hx as [Hx _]. rewrite rmatch_RGroup. rewrite <-app_comm_cons.
    rewrite rmatch_RClass, (name_char_not_sign x Hx).
    rewrite app_comm_cons.
    apply SignedItem_name_group; [done..|]. by rewrite <-!(assoc_L (++)).
  - intros s' g' Hs'. by apply rmatch_RChar_fails.
Qed.

Lemma rmatch_RPlus_without {R} p s g (k : list ascii → Groups → option R) c :
  c ∉ s → (∀ s', head s' ≠ Some c → k s' g = None) →
  rmatch (RPlus p) s g k = None.
Proof.
  intros Hc Hk. cbn [rmatch]. case_decide; [|done]. apply give_back_fails.
  intros j _. apply Hk. intros Hhead. apply Hc.
  rewrite <-(take_drop j s). apply elem_of_app. right.
  destruct (drop j s) as [|x l]; [done|]. injection Hhead as ->. left.
Qed.

Lemma SignedItem_number_group_fails_at_sign {R} nm name g
    (k : list ascii → Groups → option R) c :
  c ∉ name → (∀ s' g', head s' ≠ Some c → k s' g' = None) →
  rmatch (RGroup nm SignedItem.signed_number) ("-"%char :: name) g k = None.
Proof.
  intros Hc Hk. rewrite rmatch_RGroup. unfold SignedItem.signed_number.
  rewrite rmatch_RSeq, rmatch_ROpt, rmatch_RClass. simpl is_one_of. cbv iota.
  rewrite (rmatch_RPlus_without _ name _ _ c); [|done|intros; by apply Hk].
  by apply rmatch_RPlus_stops.
Qed.

Lemma SignedItem_item_negated {R} name g (k : list ascii → Groups → option R) r :
  name_chars name →
  k [] (g ++ [("sign", "-"); ("signal", text name)]) = Some r →
  rmatch SignedItem.conditionItemRE ("-"%char :: name) g k = Some r.
Proof.
  intros [Hne Hname] Hk.
  unfold SignedItem.conditionItemRE, RE_seq, SignedItem.timeStepRE,
    SignedItem.coordinateRE, SignedItem.signRE.
  cbn [foldl]. rewrite !rmatch_RSeq, rmatch_ROpt, rmatch_RSeq.
  rewrite (SignedItem_number_group_fails_at_sign "time" name g _ "/"%char).
  2: by apply name_without.
  2: intros s' g' Hs'; by apply rmatch_RChar_fails.
  rewrite rmatch_ROpt, rmatch_RSeq.
  rewrite (SignedItem_number_group_fails_at_sign "coord" name g _ "."%char).
  2: by apply name_without.
  2: intros s' g' Hs'; by apply rmatch_RChar_fails.
  rewrite rmatch_ROpt, rmatch_RGroup, rmatch_RClass. simpl is_one_of. cbv iota.
  rewrite <-(right_id_L [] (++) name) at 1.
  rewrite (SignedItem_name_group name [] _ _ r); [done|done|done|].
  cbn [length]. replace (S (length name) - length name)%nat with 1%nat by lia.
  cbn [take]. by rewrite <-(assoc_L (++)).
Qed.

Lemma SignedItem_no_item_at_two_signs rest i :
  match_here SignedItem.conditionTokensRE ("-"%char :: "-"%char :: rest) i = None.
Proof. reflexivity. Qed.

Lemma SignedItem_no_token_at_end i :
  match_all_from SignedItem.conditionTokensRE 0 [] i = [].
Proof. reflexivity. Qed.

(** The text of one item that begins with a [-]: one token, and the groups
    of the item. *)
Lemma SignedItem_read_item fuel more gs leaf :
  (∀ (k : list ascii → Groups → option Match) r,
     k [] gs = Some r →
     rmatch SignedItem.conditionItemRE (("-"%char :: more) ++ []) [] k = Some r) →
  (let timeStep := parseInt (SignedItem.or_default (group gs "time") "0") in
   let position := parseInt (SignedItem.or_default (group gs "coord") "0") in
   let signal := default "" (group gs "signal") in
   if decide (group gs "sign" = Some "-")
   then Negation (Literal signal position timeStep)
   else Literal signal position timeStep) = leaf →
  match_all SignedItem.conditionTokensRE (text ("-"%char :: more))
  = Some [text ("-"%char :: more)]
  ∧ match_all SignedItem.conditionTokensRE (text ("-"%char :: "-"%char :: more))
    = Some [text ("-"%char :: more)]
  ∧ SignedItem.readConditionTokens (S fuel) [text ("-"%char :: more)] = Ok (leaf, []).
Proof.
  intros Hitem Hleaf.
  assert (Hhere : ∀ i, match_here SignedItem.conditionItemRE (("-"%char :: more) ++ []) i
                       = Some {| matched := text ("-"%char :: more); groups := gs;
                                 index := i |})
    by (intros i; by apply match_here_token).
  assert (Htoken : ∀ i, match_here SignedItem.conditionTokensRE
                          (("-"%char :: more) ++ []) i
                        = Some {| matched := text ("-"%char :: more); groups := gs;
                                  index := i |}).
  { intros i. apply match_here_token. intros k r Hk.
    unfold SignedItem.conditionTokensRE. rewrite rmatch_RAlt.
    rewrite <-app_comm_cons, rmatch_RClass. simpl is_one_of. cbv iota.
    rewrite app_comm_cons. by apply Hitem. }
  split; [|split].
  - unfold match_all, match_all_groups. rewrite chars_text.
    rewrite <-(right_id_L [] (++) ("-"%char :: more)) at 1.
    rewrite (match_all_from_token _ ("-"%char :: more) [] 0 _ ltac:(done) (Htoken 0%nat))
      by done.
    by rewrite SignedItem_no_token_at_end.
  - unfold match_all, match_all_groups. rewrite chars_text.
    rewrite match_all_from_no_match by apply SignedItem_no_item_at_two_signs.
    rewrite <-(right_id_L [] (++) ("-"%char :: more)) at 1.
    rewrite (match_all_from_token _ ("-"%char :: more) [] 1 _ ltac:(done) (Htoken 1%nat))
      by done.
    by rewrite SignedItem_no_token_at_end.
  - cbn [SignedItem.readConditionTokens].
    rewrite !decide_False by (unfold text; cbn; intros [=]).
    unfold exec. rewrite chars_text. cbn [exec_from].
    rewrite <-(right_id_L [] (++) ("-"%char :: more)) at 1.
    rewrite Hhere. cbn [groups]. rewrite <-Hleaf. cbv zeta. by case_decide.
Qed.

Lemma chars_minus_number q :
  0 < q → chars (Number_toString (- q)) = "-"%char :: chars (Number_toString q).
Proof.
  intros Hq. unfold Number_toString.
  destruct (Z.ltb_spec (- q) 0); [|lia]. destruct (Z.ltb_spec q 0); [lia|].
  by rewrite !chars_text, Z.opp_involutive.
Qed.


